(** * Infrastructure dependency cascade engine

    A shallow embedding of [src/services/infrastructure-cascade.ts]
    (graph builder, cascade simulator, country aggregation and redundancy
    analyser) together with the properties stated about it.

    Modelling conventions.
    - A JavaScript [number] is an exact rational ([Q]); the specification
      speaks of real numbers and every literal of the engine is a decimal
      fraction.  Rounding, [NaN] and the infinities are outside this model;
      what hinges on them (the noise floor, the level of a pipeline
      disruption) is stated in [Binary64], where the engine is translated
      again with binary64 numbers.
      Depths and path lengths are natural numbers.
    - A [Map<string, V>] whose iteration order is never observed is a
      [gmap string V]; the [affected] map, whose iteration order decides the
      order of the result arrays, is an insertion-ordered association list.
    - A [Set<string>] is a [gset string].
    - Optional properties ([countriesServed?], [metadata?]) are [option]s,
      [undefined] being [None].
    - The module-level variable [cachedGraph] is threaded explicitly; a graph
      object carries the identity it received when it was allocated.
    - The reference datasets imported from [@/config] are parameters. *)

From Stdlib Require Import QArith Lqa Permutation Sorted PrimFloat.
From stdpp Require Import gmap strings list fin_maps sets.
From Equations Require Import Equations.


(** ** JavaScript string helpers *)

Module Js.

(** [s.startsWith(p)] *)
Definition startsWith (s p : string) : bool := String.prefix p s.

Fixpoint drop_chars (n : nat) (s : string) : string :=
  match n, s with
  | O, _ => s
  | S _, EmptyString => EmptyString
  | S n', String _ s' => drop_chars n' s'
  end.

(** [s.replace(pat, rep)] with a string pattern: only the first occurrence
    of [pat] is replaced. *)
Fixpoint replace (s pat rep : string) : string :=
  if String.prefix pat s then rep +:+ drop_chars (String.length pat) s
  else match s with
       | EmptyString => EmptyString
       | String c s' => String c (replace s' pat rep)
       end.

(** Truthiness of a string: the empty string is falsy. *)
Definition truthy_string (s : string) : bool :=
  match s with EmptyString => false | _ => true end.

(** [x || d] on strings. *)
Definition or_string (x : option string) (d : string) : string :=
  match x with
  | Some s => if truthy_string s then s else d
  | None => d
  end.

(** [x || 0] on numbers: [0] is the only falsy rational. *)
Definition or_zero (x : Q) : Q := if Qeq_bool x 0 then 0%Q else x.

(** [a < b] and [a > b] on numbers. *)
Definition ltb (a b : Q) : bool := negb (Qle_bool b a).
Definition gtb (a b : Q) : bool := ltb b a.

(** [xs?.…] and [xs || []] on optional arrays. *)
Definition opt_list {A} (xs : option (list A)) : list A :=
  match xs with Some l => l | None => [] end.

(** [arr.find(p)] *)
Definition find {A} (p : A → bool) (l : list A) : option A := List.find p l.

End Js.

(** ** Reference data (types of [@/types] and [@/config], as the engine reads them) *)

Record CountryServed := {
  cs_country : string;
  capacityShare : Q;
  isRedundant : bool;
}.

Record LandingPoint := {
  lp_country : string;
  lp_name : string;
}.

Record UnderseaCable := {
  cable_id : string;
  cable_name : string;
  cable_points : option (list (Q * Q));
  capacityTbps : option Q;
  rfsYear : option Z;
  owners : option (list string);
  landingPoints : option (list LandingPoint);
  countriesServed : option (list CountryServed);
}.

Record Pipeline := {
  pipeline_id : string;
  pipeline_name : string;
  pipeline_type : string;
  pipeline_status : string;
  pipeline_capacity : option string;
  pipeline_operator : option string;
  pipeline_countries : option (list string);
  pipeline_points : option (list (Q * Q));
}.

Record Port := {
  port_id : string;
  port_name : string;
  port_country : string;
  port_type : string;
  port_rank : option Z;
  port_lon : Q;
  port_lat : Q;
}.

Record Waterway := {
  waterway_id : string;
  waterway_name : string;
  waterway_lon : Q;
  waterway_lat : Q;
  waterway_description : string;
}.

(** ** Graph data model *)

Inductive NodeType := NCable | NPipeline | NPort | NChokepoint | NCountry.

Inductive EdgeType := Serves | LandsAt.

Inductive CascadeImpactLevel := Critical | High | Medium | Low.

#[global] Instance NodeType_eq_dec : EqDecision NodeType.
Proof. solve_decision. Defined.

#[global] Instance CascadeImpactLevel_eq_dec : EqDecision CascadeImpactLevel.
Proof. solve_decision. Defined.

(** The open [metadata] bag of a node, one shape per node type. *)
Inductive NodeMetadata :=
| CableMeta (capacity : option Q) (rfs : option Z) (own : option (list string))
            (landing : option (list LandingPoint))
| PipelineMeta (type status : string) (capacity operator : option string)
               (countries : option (list string))
| PortMeta (country type : string) (rank : option Z)
| ChokepointMeta (description : string)
| CountryMeta (code : string).

(** [metadata?.code] *)
Definition meta_code (m : NodeMetadata) : option string :=
  match m with CountryMeta code => Some code | _ => None end.

Record InfrastructureNode := {
  node_id : string;
  node_type : NodeType;
  node_name : string;
  node_coordinates : option (Q * Q);
  node_metadata : NodeMetadata;
}.

Record EdgeMetadata := {
  meta_capacityShare : Q;
  estimatedImpact : string;
}.

Record DependencyEdge := {
  edge_from : string;
  edge_to : string;
  edge_type : EdgeType;
  strength : Q;
  redundancy : Q;
  edge_metadata : option EdgeMetadata;
}.

Record DependencyGraph := {
  nodes : gmap string InfrastructureNode;
  edges : list DependencyEdge;
  outgoing : gmap string (list DependencyEdge);
  incoming : gmap string (list DependencyEdge);
}.

Definition empty_graph : DependencyGraph :=
  {| nodes := ∅; edges := []; outgoing := ∅; incoming := ∅ |}.

(** [graph.nodes.set(key, node)] *)
Definition nodes_set (key : string) (n : InfrastructureNode)
    (graph : DependencyGraph) : DependencyGraph :=
  {| nodes := <[key := n]> (nodes graph);
     edges := edges graph;
     outgoing := outgoing graph;
     incoming := incoming graph |}.

(** [if (!index.has(k)) index.set(k, []); index.get(k)!.push(edge)] *)
Definition index_push (k : string) (edge : DependencyEdge)
    (index : gmap string (list DependencyEdge)) : gmap string (list DependencyEdge) :=
  <[k := default [] (index !! k) ++ [edge]]> index.

Definition addEdge (graph : DependencyGraph) (edge : DependencyEdge) : DependencyGraph :=
  {| nodes := nodes graph;
     edges := edges graph ++ [edge];
     outgoing := index_push (edge_from edge) edge (outgoing graph);
     incoming := index_push (edge_to edge) edge (incoming graph) |}.

(** ** Country name lookup *)

Definition COUNTRY_NAMES : list (string * string) :=
  [ ("US", "United States"); ("GB", "United Kingdom"); ("ES", "Spain"); ("FR", "France");
    ("DE", "Germany"); ("IT", "Italy"); ("PT", "Portugal"); ("NO", "Norway"); ("DK", "Denmark");
    ("NL", "Netherlands"); ("BE", "Belgium"); ("SE", "Sweden"); ("FI", "Finland"); ("IE", "Ireland");
    ("AT", "Austria"); ("CH", "Switzerland"); ("GR", "Greece"); ("CZ", "Czech Republic");
    ("JP", "Japan"); ("CN", "China"); ("TW", "Taiwan"); ("HK", "Hong Kong"); ("SG", "Singapore");
    ("KR", "South Korea"); ("AU", "Australia"); ("NZ", "New Zealand"); ("IN", "India"); ("PK", "Pakistan");
    ("AE", "UAE"); ("SA", "Saudi Arabia"); ("EG", "Egypt"); ("KW", "Kuwait"); ("BH", "Bahrain");
    ("OM", "Oman"); ("QA", "Qatar"); ("IR", "Iran"); ("IQ", "Iraq"); ("TR", "Turkey"); ("IL", "Israel");
    ("JO", "Jordan"); ("LB", "Lebanon"); ("SY", "Syria"); ("YE", "Yemen");
    ("NG", "Nigeria"); ("ZA", "South Africa"); ("KE", "Kenya"); ("TZ", "Tanzania");
    ("MZ", "Mozambique"); ("MG", "Madagascar"); ("SN", "Senegal"); ("GH", "Ghana");
    ("CI", "Ivory Coast"); ("AO", "Angola"); ("ET", "Ethiopia"); ("UG", "Uganda");
    ("BR", "Brazil"); ("AR", "Argentina"); ("CL", "Chile");
    ("PE", "Peru"); ("CO", "Colombia"); ("MX", "Mexico"); ("PA", "Panama"); ("VE", "Venezuela");
    ("IS", "Iceland"); ("FO", "Faroe Islands"); ("FJ", "Fiji"); ("ID", "Indonesia");
    ("VN", "Vietnam"); ("TH", "Thailand"); ("MY", "Malaysia"); ("PH", "Philippines");
    ("RU", "Russia"); ("UA", "Ukraine"); ("PL", "Poland"); ("RO", "Romania"); ("HU", "Hungary");
    ("CA", "Canada"); ("DJ", "Djibouti"); ("BD", "Bangladesh"); ("LK", "Sri Lanka"); ("MM", "Myanmar") ].

(** [COUNTRY_NAMES[code]], own properties only. *)
Definition country_name_lookup (code : string) : option string :=
  snd <$> List.find (fun kv => String.eqb (fst kv) code) COUNTRY_NAMES.

(** [c === 'USA' ? 'US' : c === 'Canada' ? 'CA' : c] *)
Definition normalizeCountry (c : string) : string :=
  if String.eqb c "USA" then "US" else if String.eqb c "Canada" then "CA" else c.

(** [points?.[0]] turned into a coordinate pair. *)
Definition first_point (points : option (list (Q * Q))) : option (Q * Q) :=
  match points with
  | Some (p :: _) => Some p
  | _ => None
  end.

(** ** Cascade results *)

Record CascadeAffectedNode := {
  node : InfrastructureNode;
  impactLevel : CascadeImpactLevel;
  pathLength : nat;
  dependencyChain : list string;
  redundancyAvailable : bool;
  estimatedRecovery : option string;
}.

Record CascadeCountryImpact := {
  ci_country : string;
  countryName : string;
  ci_impactLevel : CascadeImpactLevel;
  affectedCapacity : Q;
}.

Record RedundancyCandidate := {
  alt_id : string;
  alt_name : string;
  alt_capacityShare : Q;
}.

Record CascadeResult := {
  source : InfrastructureNode;
  affectedNodes : list CascadeAffectedNode;
  countriesAffected : list CascadeCountryImpact;
  redundancies : list RedundancyCandidate;
}.

(** ** Insertion-ordered maps ([affected]) *)

Module OrderedMap.

Abbreviation t V := (list (string * V)).

(** [m.set(k, v)]: an existing key keeps its position. *)
Fixpoint set {V} (k : string) (v : V) (m : t V) : t V :=
  match m with
  | [] => [(k, v)]
  | (k', v') :: m' =>
      if decide (k' = k) then (k, v) :: m' else (k', v') :: set k v m'
  end.

(** [Array.from(m.values())] *)
Definition values {V} (m : t V) : list V := snd <$> m.

Definition keys {V} (m : t V) : list string := fst <$> m.

End OrderedMap.

(** ** The cascade step functions (independent of the datasets) *)

Definition categorizeImpact (s : Q) : CascadeImpactLevel :=
  if Js.gtb s 0.8 then Critical
  else if Js.gtb s 0.5 then High
  else if Js.gtb s 0.2 then Medium
  else Low.

(** [edge.strength * disruptionLevel * (1 - (edge.redundancy || 0))] *)
Definition impactStrength (edge : DependencyEdge) (disruptionLevel : Q) : Q :=
  strength edge * disruptionLevel * (1 - Js.or_zero (redundancy edge)).

Record QueueItem := {
  nodeId : string;
  depth : nat;
  path : list string;
}.

Record LoopState := {
  affected : OrderedMap.t CascadeAffectedNode;
  visited : gset string;
  queue : list QueueItem;
}.

(** One iteration of [for (const edge of dependents)]. *)
Definition visitEdge (graph : DependencyGraph) (disruptionLevel : Q)
    (depth : nat) (path : list string) (st : LoopState) (edge : DependencyEdge) : LoopState :=
  if decide (edge_to edge ∈ visited st) then st
  else
    let visited' := {[edge_to edge]} ∪ visited st in
    let skip := {| affected := affected st; visited := visited'; queue := queue st |} in
    let impact := impactStrength edge disruptionLevel in
    match nodes graph !! edge_to edge with
    | None => skip
    | Some targetNode =>
        if Js.ltb impact 0.05 then skip
        else
          {| affected :=
               OrderedMap.set (edge_to edge)
                 {| node := targetNode;
                    impactLevel := categorizeImpact impact;
                    pathLength := depth + 1;
                    dependencyChain := path ++ [edge_to edge];
                    redundancyAvailable := Js.gtb (Js.or_zero (redundancy edge)) 0.3;
                    estimatedRecovery := estimatedImpact <$> edge_metadata edge |}
                 (affected st);
             visited := visited';
             queue := queue st ++ [{| nodeId := edge_to edge;
                                      depth := depth + 1;
                                      path := path ++ [edge_to edge] |}] |}
    end.

(** The body of the [while] loop once [item] has been shifted off the queue. *)
Definition expand (graph : DependencyGraph) (disruptionLevel : Q)
    (item : QueueItem) (st : LoopState) : LoopState :=
  if Nat.leb 3 (depth item) then st
  else
    let dependents := default [] (outgoing graph !! nodeId item) in
    foldl (visitEdge graph disruptionLevel (depth item) (path item)) st dependents.

(** *** Termination measure of the [while] loop

    Every enqueued item marks a node that was not visited before, and that
    node is the target of an edge of the [outgoing] index; so the number of
    unvisited targets plus the queue length decreases at every iteration. *)

Definition targets (graph : DependencyGraph) : gset string :=
  list_to_set (edge_to <$> mjoin ((map_to_list (outgoing graph)).*2)).

Definition loopMeasure (graph : DependencyGraph) (st : LoopState) : nat :=
  size (targets graph ∖ visited st) + length (queue st).

Lemma edge_to_in_targets graph k l e :
  outgoing graph !! k = Some l → e ∈ l → edge_to e ∈ targets graph.
Proof.
  intros Hk He. unfold targets.
  apply elem_of_list_to_set, list_elem_of_fmap.
  exists e. split; [done|].
  apply list_elem_of_join. exists l. split; [done|].
  apply list_elem_of_fmap. exists (k, l). split; [done|].
  by apply elem_of_map_to_list.
Qed.

Lemma visitEdge_measure graph level d p st e :
  edge_to e ∈ targets graph →
  loopMeasure graph (visitEdge graph level d p st e) ≤ loopMeasure graph st.
Proof.
  intros Ht. unfold visitEdge.
  destruct (decide (edge_to e ∈ visited st)) as [|Hnv]; [done|].
  assert (size (targets graph ∖ ({[edge_to e]} ∪ visited st))
          < size (targets graph ∖ visited st)) as Hlt.
  { apply subset_size. split.
    - apply difference_mono_l, union_subseteq_r.
    - intros Hsub.
      assert (edge_to e ∈ targets graph ∖ visited st) as Hin
        by by apply elem_of_difference.
      apply Hsub, elem_of_difference in Hin as [_ Hin].
      apply Hin, elem_of_union. left. by apply elem_of_singleton. }
  unfold loopMeasure.
  destruct (nodes graph !! edge_to e); [destruct (Js.ltb _ _)|];
    simpl; rewrite ?length_app; simpl; lia.
Qed.

Lemma foldl_visitEdge_measure graph level d p l st :
  (∀ e, e ∈ l → edge_to e ∈ targets graph) →
  loopMeasure graph (foldl (visitEdge graph level d p) st l) ≤ loopMeasure graph st.
Proof.
  revert st. induction l as [|e l IH]; intros st Hl; simpl; [done|].
  etrans; [apply IH|apply visitEdge_measure].
  - intros e' He'. apply Hl. by right.
  - apply Hl. by left.
Qed.

Lemma expand_measure graph level item st :
  loopMeasure graph (expand graph level item st) ≤ loopMeasure graph st.
Proof.
  unfold expand. destruct (Nat.leb 3 (depth item)); [done|].
  apply foldl_visitEdge_measure. intros e He.
  destruct (outgoing graph !! nodeId item) as [l|] eqn:Hl; simpl in He.
  - by eapply edge_to_in_targets.
  - by apply elem_of_nil in He.
Qed.

(** [while (queue.length > 0) { const item = queue.shift()!; … }] *)
Equations? cascadeLoop (graph : DependencyGraph) (disruptionLevel : Q)
    (st : LoopState) : LoopState by wf (loopMeasure graph st) lt :=
  cascadeLoop graph disruptionLevel {| affected := a; visited := v; queue := [] |} :=
    {| affected := a; visited := v; queue := [] |};
  cascadeLoop graph disruptionLevel {| affected := a; visited := v; queue := item :: rest |} :=
    cascadeLoop graph disruptionLevel
      (expand graph disruptionLevel item {| affected := a; visited := v; queue := rest |}).
Proof.
  pose proof (expand_measure graph disruptionLevel item
                {| affected := a; visited := v; queue := rest |}) as H.
  unfold loopMeasure in *. simpl in *. lia.
Qed.

(** ** The engine over the reference datasets *)

Section Engine.

Variable UNDERSEA_CABLES : list UnderseaCable.
Variable PIPELINES : list Pipeline.
Variable PORTS : list Port.
Variable STRATEGIC_WATERWAYS : list Waterway.

(** *** Graph builder *)

Definition cableNode (cable : UnderseaCable) : InfrastructureNode :=
  {| node_id := "cable:" +:+ cable_id cable;
     node_type := NCable;
     node_name := cable_name cable;
     node_coordinates := first_point (cable_points cable);
     node_metadata := CableMeta (capacityTbps cable) (rfsYear cable)
                                (owners cable) (landingPoints cable) |}.

Definition addCablesAsNodes (graph : DependencyGraph) : DependencyGraph :=
  foldl (fun g cable => nodes_set ("cable:" +:+ cable_id cable) (cableNode cable) g)
        graph UNDERSEA_CABLES.

Definition pipelineNode (pipeline : Pipeline) : InfrastructureNode :=
  {| node_id := "pipeline:" +:+ pipeline_id pipeline;
     node_type := NPipeline;
     node_name := pipeline_name pipeline;
     node_coordinates := first_point (pipeline_points pipeline);
     node_metadata := PipelineMeta (pipeline_type pipeline) (pipeline_status pipeline)
                                   (pipeline_capacity pipeline) (pipeline_operator pipeline)
                                   (pipeline_countries pipeline) |}.

Definition addPipelinesAsNodes (graph : DependencyGraph) : DependencyGraph :=
  foldl (fun g pipeline =>
           nodes_set ("pipeline:" +:+ pipeline_id pipeline) (pipelineNode pipeline) g)
        graph PIPELINES.

Definition portNode (port : Port) : InfrastructureNode :=
  {| node_id := "port:" +:+ port_id port;
     node_type := NPort;
     node_name := port_name port;
     node_coordinates := Some (port_lon port, port_lat port);
     node_metadata := PortMeta (port_country port) (port_type port) (port_rank port) |}.

Definition addPortsAsNodes (graph : DependencyGraph) : DependencyGraph :=
  foldl (fun g port => nodes_set ("port:" +:+ port_id port) (portNode port) g)
        graph PORTS.

Definition chokepointNode (waterway : Waterway) : InfrastructureNode :=
  {| node_id := "chokepoint:" +:+ waterway_id waterway;
     node_type := NChokepoint;
     node_name := waterway_name waterway;
     node_coordinates := Some (waterway_lon waterway, waterway_lat waterway);
     node_metadata := ChokepointMeta (waterway_description waterway) |}.

Definition addChokepointsAsNodes (graph : DependencyGraph) : DependencyGraph :=
  foldl (fun g waterway =>
           nodes_set ("chokepoint:" +:+ waterway_id waterway) (chokepointNode waterway) g)
        graph STRATEGIC_WATERWAYS.

(** The two [forEach] calls on one cable in [addCountriesAsNodes]. *)
Definition cableCountries (countries : gset string) (cable : UnderseaCable) : gset string :=
  let served :=
    foldl (fun s c => {[cs_country c]} ∪ s) countries (Js.opt_list (countriesServed cable)) in
  foldl (fun s lp => {[lp_country lp]} ∪ s) served (Js.opt_list (landingPoints cable)).

Definition pipelineCountries (countries : gset string) (pipeline : Pipeline) : gset string :=
  foldl (fun s c => {[normalizeCountry c]} ∪ s) countries
        (Js.opt_list (pipeline_countries pipeline)).

(** The local set [countries] of [addCountriesAsNodes] after both loops. *)
Definition referencedCountries : gset string :=
  foldl pipelineCountries (foldl cableCountries ∅ UNDERSEA_CABLES) PIPELINES.

Definition countryNode (code : string) : InfrastructureNode :=
  {| node_id := "country:" +:+ code;
     node_type := NCountry;
     node_name := Js.or_string (country_name_lookup code) code;
     node_coordinates := None;
     node_metadata := CountryMeta code |}.

Definition addCountriesAsNodes (graph : DependencyGraph) : DependencyGraph :=
  foldl (fun g code => nodes_set ("country:" +:+ code) (countryNode code) g)
        graph (elements referencedCountries).

Definition servesEdge (cableId : string) (cs : CountryServed) : DependencyEdge :=
  {| edge_from := cableId;
     edge_to := "country:" +:+ cs_country cs;
     edge_type := Serves;
     strength := capacityShare cs;
     redundancy := if isRedundant cs then 0.5 else 0;
     edge_metadata :=
       Some {| meta_capacityShare := capacityShare cs;
               estimatedImpact :=
                 if isRedundant cs then "Medium - redundancy available"
                 else "High - limited redundancy" |} |}.

Definition landsAtEdge (cableId : string) (lp : LandingPoint) : DependencyEdge :=
  {| edge_from := cableId;
     edge_to := "country:" +:+ lp_country lp;
     edge_type := LandsAt;
     strength := 0.3;
     redundancy := 0.5;
     edge_metadata := None |}.

Definition cableEdges (graph : DependencyGraph) (cable : UnderseaCable) : DependencyGraph :=
  let cableId := "cable:" +:+ cable_id cable in
  let served :=
    foldl (fun g cs => addEdge g (servesEdge cableId cs)) graph
          (Js.opt_list (countriesServed cable)) in
  foldl (fun g lp => addEdge g (landsAtEdge cableId lp)) served
        (Js.opt_list (landingPoints cable)).

Definition buildCableCountryEdges (graph : DependencyGraph) : DependencyGraph :=
  foldl cableEdges graph UNDERSEA_CABLES.

Definition pipelineEdge (pipelineId code : string) : DependencyEdge :=
  {| edge_from := pipelineId;
     edge_to := "country:" +:+ code;
     edge_type := Serves;
     strength := 0.2;
     redundancy := 0.3;
     edge_metadata := None |}.

Definition pipelineEdges (graph : DependencyGraph) (pipeline : Pipeline) : DependencyGraph :=
  let pipelineId := "pipeline:" +:+ pipeline_id pipeline in
  foldl (fun g c =>
           let code := normalizeCountry c in
           let countryId := "country:" +:+ code in
           match nodes g !! countryId with
           | Some _ => addEdge g (pipelineEdge pipelineId code)
           | None => g
           end)
        graph (Js.opt_list (pipeline_countries pipeline)).

Definition buildPipelineCountryEdges (graph : DependencyGraph) : DependencyGraph :=
  foldl pipelineEdges graph PIPELINES.

(** The part of [buildDependencyGraph] that runs on a cache miss. *)
Definition constructGraph : DependencyGraph :=
  let graph := empty_graph in
  let graph := addCablesAsNodes graph in
  let graph := addPipelinesAsNodes graph in
  let graph := addPortsAsNodes graph in
  let graph := addChokepointsAsNodes graph in
  let graph := addCountriesAsNodes graph in
  let graph := buildCableCountryEdges graph in
  buildPipelineCountryEdges graph.

(** *** The graph cache

    A graph object is the graph together with the identity of its
    allocation; [allocated] counts the graph objects created so far. *)

Record GraphObject := {
  object_id : nat;
  graph_of : DependencyGraph;
}.

Record ModuleState := {
  cachedGraph : option GraphObject;
  allocated : nat;
}.

Definition initialState : ModuleState :=
  {| cachedGraph := None; allocated := 0 |}.

Definition clearGraphCache (st : ModuleState) : ModuleState :=
  {| cachedGraph := None; allocated := allocated st |}.

Definition buildDependencyGraph (st : ModuleState) : GraphObject * ModuleState :=
  match cachedGraph st with
  | Some graph => (graph, st)
  | None =>
      let graph := {| object_id := allocated st; graph_of := constructGraph |} in
      (graph, {| cachedGraph := Some graph; allocated := S (allocated st) |})
  end.

Record GraphStats := {
  stat_nodes : nat;
  stat_edges : nat;
  stat_cables : nat;
  stat_pipelines : nat;
  stat_countries : nat;
}.

Definition count_type (t : NodeType) (graph : DependencyGraph) : nat :=
  size (filter (fun kv => node_type kv.2 = t) (nodes graph)).

Definition statsOf (graph : DependencyGraph) : GraphStats :=
  {| stat_nodes := size (nodes graph);
     stat_edges := length (edges graph);
     stat_cables := count_type NCable graph;
     stat_pipelines := count_type NPipeline graph;
     stat_countries := count_type NCountry graph |}.

Definition getGraphStats (st : ModuleState) : GraphStats * ModuleState :=
  let '(graph, st') := buildDependencyGraph st in
  (statsOf (graph_of graph), st').

(** *** Country aggregation and redundancy analysis *)

Definition getCapacityForCountry (sourceId countryCode : string) : Q :=
  if Js.startsWith sourceId "cable:" then
    let cableId := Js.replace sourceId "cable:" "" in
    let cable := Js.find (fun c => String.eqb (cable_id c) cableId) UNDERSEA_CABLES in
    let countryData :=
      cable ≫= fun c =>
        Js.find (fun cs => String.eqb (cs_country cs) countryCode)
                (Js.opt_list (countriesServed c)) in
    match countryData with
    | Some cs => Js.or_zero (capacityShare cs)
    | None => 0
    end
  else 0.1.

(** [sharedCountries.reduce((sum, c) => sum + c.capacityShare, 0)] *)
Definition sumCapacity (shared : list CountryServed) : Q :=
  foldl (fun sum c => sum + capacityShare c)%Q 0%Q shared.

Definition findRedundancies (sourceId : string) : list RedundancyCandidate :=
  if negb (Js.startsWith sourceId "cable:") then []
  else
    let cableId := Js.replace sourceId "cable:" "" in
    match Js.find (fun c => String.eqb (cable_id c) cableId) UNDERSEA_CABLES with
    | None => []
    | Some sourceCable =>
        let sourceCountries : gset string :=
          list_to_set (cs_country <$> Js.opt_list (countriesServed sourceCable)) in
        let alternatives :=
          foldl (fun alternatives cable =>
                   if String.eqb (cable_id cable) cableId then alternatives
                   else
                     let sharedCountries :=
                       List.filter (fun c => bool_decide (cs_country c ∈ sourceCountries))
                                   (Js.opt_list (countriesServed cable)) in
                     if Nat.ltb 0 (length sharedCountries) then
                       let avgCapacity :=
                         (sumCapacity sharedCountries
                          / inject_Z (Z.of_nat (length sharedCountries)))%Q in
                       alternatives ++ [{| alt_id := cable_id cable;
                                           alt_name := cable_name cable;
                                           alt_capacityShare := avgCapacity |}]
                     else alternatives)
                [] UNDERSEA_CABLES in
        take 5 alternatives
    end.

Definition severityRank (l : CascadeImpactLevel) : Z :=
  match l with Critical => 0 | High => 1 | Medium => 2 | Low => 3 end.

(** The comparator handed to [countriesAffected.sort]:
    [(order[a.impactLevel] - order[b.impactLevel]) || (b.affectedCapacity - a.affectedCapacity)] *)
Definition compareImpact (a b : CascadeCountryImpact) : Q :=
  let byLevel := inject_Z (severityRank (ci_impactLevel a) - severityRank (ci_impactLevel b)) in
  if Qeq_bool byLevel 0 then (affectedCapacity b - affectedCapacity a)%Q else byLevel.

(** [Array.prototype.sort] is stable, and for a consistent comparator its
    result is the one stable ordering; insertion from the right computes it. *)
Fixpoint sort_insert {A} (cmp : A → A → Q) (x : A) (l : list A) : list A :=
  match l with
  | [] => [x]
  | y :: l' => if Js.gtb (cmp x y) 0 then y :: sort_insert cmp x l' else x :: l
  end.

Definition js_sort {A} (cmp : A → A → Q) (l : list A) : list A :=
  foldr (sort_insert cmp) [] l.

(** The loop that fills [countriesAffected] from the entries of [affected]. *)
Definition collectCountries (sourceId : string)
    (affected : OrderedMap.t CascadeAffectedNode) : list CascadeCountryImpact :=
  foldl (fun acc '(nodeId, affectedNode) =>
           if decide (node_type (node affectedNode) = NCountry) then
             let code :=
               Js.or_string (meta_code (node_metadata (node affectedNode)))
                            (Js.replace nodeId "country:" "") in
             acc ++ [{| ci_country := code;
                        countryName := node_name (node affectedNode);
                        ci_impactLevel := impactLevel affectedNode;
                        affectedCapacity := getCapacityForCountry sourceId code |}]
           else acc)
        [] affected.

(** *** Cascade simulator *)

Definition calculateCascade (sourceId : string) (disruptionLevel : Q)
    (st : ModuleState) : option CascadeResult * ModuleState :=
  let '(graphObj, st') := buildDependencyGraph st in
  let graph := graph_of graphObj in
  match nodes graph !! sourceId with
  | None => (None, st')
  | Some source =>
      let final :=
        cascadeLoop graph disruptionLevel
          {| affected := [];
             visited := {[sourceId]};
             queue := [{| nodeId := sourceId; depth := 0; path := [sourceId] |}] |} in
      let countriesAffected :=
        js_sort compareImpact (collectCountries sourceId (affected final)) in
      (Some {| source := source;
               affectedNodes := OrderedMap.values (affected final);
               countriesAffected := countriesAffected;
               redundancies := findRedundancies sourceId |},
       st')
  end.

End Engine.

(** * Properties *)

(** ** Strings and node identifiers *)

Lemma prefix_app p s : String.prefix p (p +:+ s) = true.
Proof.
  induction p as [|c p IH]; simpl.
  - by destruct s.
  - destruct (Ascii.ascii_dec c c); [done|congruence].
Qed.

Lemma drop_chars_app p s : Js.drop_chars (String.length p) (p +:+ s) = s.
Proof. induction p as [|c p IH]; simpl; [by destruct s|done]. Qed.

Lemma startsWith_app p s : Js.startsWith (p +:+ s) p = true.
Proof. apply prefix_app. Qed.

Lemma replace_unfold s pat rep :
  Js.replace s pat rep =
  if String.prefix pat s then rep +:+ Js.drop_chars (String.length pat) s
  else match s with
       | EmptyString => EmptyString
       | String c s' => String c (Js.replace s' pat rep)
       end.
Proof. by destruct s. Qed.

Lemma replace_prefix p s : Js.replace (p +:+ s) p "" = s.
Proof. by rewrite replace_unfold, prefix_app, drop_chars_app. Qed.

Lemma app_inj_prefix p s1 s2 : p +:+ s1 = p +:+ s2 → s1 = s2.
Proof. induction p; simpl; intros H; [done|]. injection H. auto. Qed.

(** The five kinds of node identifier, told apart by their prefix. *)
Definition id_kind (k : string) : option NodeType :=
  if Js.startsWith k "cable:" then Some NCable
  else if Js.startsWith k "pipeline:" then Some NPipeline
  else if Js.startsWith k "port:" then Some NPort
  else if Js.startsWith k "chokepoint:" then Some NChokepoint
  else if Js.startsWith k "country:" then Some NCountry
  else None.

Lemma id_kind_cable s : id_kind ("cable:" +:+ s) = Some NCable.
Proof. by destruct s. Qed.
Lemma id_kind_pipeline s : id_kind ("pipeline:" +:+ s) = Some NPipeline.
Proof. by destruct s. Qed.
Lemma id_kind_port s : id_kind ("port:" +:+ s) = Some NPort.
Proof. by destruct s. Qed.
Lemma id_kind_chokepoint s : id_kind ("chokepoint:" +:+ s) = Some NChokepoint.
Proof. by destruct s. Qed.
Lemma id_kind_country s : id_kind ("country:" +:+ s) = Some NCountry.
Proof. by destruct s. Qed.

Lemma string_eqb_decide (a b : string) : String.eqb a b = bool_decide (a = b).
Proof.
  destruct (String.eqb_spec a b); [by rewrite bool_decide_eq_true_2|
                                   by rewrite bool_decide_eq_false_2].
Qed.

(** ** Folds that add nodes and edges *)

Section NodeFold.
Context {A : Type} (key : A → string) (mk : A → InfrastructureNode).

Let addAll (graph : DependencyGraph) (l : list A) : DependencyGraph :=
  foldl (fun g x => nodes_set (key x) (mk x) g) graph l.

Lemma addAll_snoc graph l x :
  addAll graph (l ++ [x]) = nodes_set (key x) (mk x) (addAll graph l).
Proof. unfold addAll. by rewrite foldl_app. Qed.

Lemma addAll_edges graph l :
  edges (addAll graph l) = edges graph
  ∧ outgoing (addAll graph l) = outgoing graph
  ∧ incoming (addAll graph l) = incoming graph.
Proof.
  induction l as [|x l IH] using rev_ind; [done|].
  rewrite addAll_snoc. simpl. exact IH.
Qed.

Lemma addAll_lookup_ne graph l k :
  (∀ x, x ∈ l → key x ≠ k) →
  nodes (addAll graph l) !! k = nodes graph !! k.
Proof.
  induction l as [|x l IH] using rev_ind; intros Hk; [done|].
  rewrite addAll_snoc. simpl. rewrite lookup_insert_ne.
  - apply IH. intros y Hy. apply Hk, elem_of_app. by left.
  - apply Hk, elem_of_app. right. by apply list_elem_of_singleton.
Qed.

Lemma addAll_lookup_inv graph l k n :
  nodes (addAll graph l) !! k = Some n →
  (∃ x, x ∈ l ∧ key x = k ∧ mk x = n) ∨ nodes graph !! k = Some n.
Proof.
  induction l as [|x l IH] using rev_ind; intros Hn; [by right|].
  rewrite addAll_snoc in Hn. simpl in Hn.
  destruct (decide (key x = k)) as [<-|Hne].
  - rewrite lookup_insert_eq in Hn. injection Hn as <-.
    left. exists x. split; [|done]. apply elem_of_app. right.
    by apply list_elem_of_singleton.
  - rewrite lookup_insert_ne in Hn by done.
    destruct (IH Hn) as [(y & Hy & Hky & Hmk)|Hg]; [left|by right].
    exists y. split; [|done]. apply elem_of_app. by left.
Qed.

Lemma addAll_lookup_in graph l x :
  x ∈ l →
  ∃ y, y ∈ l ∧ key y = key x ∧ nodes (addAll graph l) !! key x = Some (mk y).
Proof.
  induction l as [|z l IH] using rev_ind; intros Hx; [by apply elem_of_nil in Hx|].
  rewrite addAll_snoc. simpl.
  destruct (decide (key z = key x)) as [Heq|Hne].
  - exists z. rewrite <- Heq, lookup_insert_eq.
    split; [|done]. apply elem_of_app. right. by apply list_elem_of_singleton.
  - apply elem_of_app in Hx as [Hx|Hx].
    + destruct (IH Hx) as (y & Hy & Hky & Hl). exists y.
      rewrite lookup_insert_ne by done.
      split; [|done]. apply elem_of_app. by left.
    + apply list_elem_of_singleton in Hx. by subst.
Qed.

End NodeFold.

(** The [outgoing] and [incoming] indexes agree with the edge list. *)
Definition indexed (graph : DependencyGraph) : Prop :=
  ∀ k, default [] (outgoing graph !! k) = filter (fun e => edge_from e = k) (edges graph)
       ∧ default [] (incoming graph !! k) = filter (fun e => edge_to e = k) (edges graph).

Lemma index_push_lookup key k e index :
  default [] (index_push (key e) e index !! k)
  = default [] (index !! k) ++ (if decide (key e = k) then [e] else []).
Proof.
  unfold index_push. destruct (decide (key e = k)) as [<-|Hne].
  - by rewrite lookup_insert_eq.
  - rewrite lookup_insert_ne by done. by rewrite app_nil_r.
Qed.

Lemma filter_snoc_key (key : DependencyEdge → string) k e l :
  filter (fun e => key e = k) (l ++ [e])
  = filter (fun e => key e = k) l ++ (if decide (key e = k) then [e] else []).
Proof.
  rewrite filter_app. by f_equal.
Qed.

Lemma indexed_empty : indexed empty_graph.
Proof. intros k. simpl. by rewrite !lookup_empty. Qed.

Lemma indexed_nodes_set key n graph : indexed graph → indexed (nodes_set key n graph).
Proof. done. Qed.

Lemma indexed_addEdge graph e : indexed graph → indexed (addEdge graph e).
Proof.
  intros Hi k. destruct (Hi k) as [Ho Hin]. simpl.
  rewrite (index_push_lookup edge_from), (index_push_lookup edge_to).
  rewrite (filter_snoc_key edge_from), (filter_snoc_key edge_to).
  by rewrite Ho, Hin.
Qed.

Section EdgeFold.
Context {A : Type} (mk : A → DependencyEdge).

Lemma foldl_addEdge graph l :
  let graph' := foldl (fun g x => addEdge g (mk x)) graph l in
  nodes graph' = nodes graph
  ∧ edges graph' = edges graph ++ (mk <$> l)
  ∧ (indexed graph → indexed graph').
Proof.
  induction l as [|x l IH] using rev_ind; simpl.
  - by rewrite app_nil_r.
  - rewrite foldl_app. simpl. destruct IH as (Hn & He & Hi).
    split; [done|]. split.
    + rewrite He, fmap_app. simpl. by rewrite app_assoc.
    + intros H. by apply indexed_addEdge, Hi.
Qed.

End EdgeFold.

Lemma foldl_add_elem {A} (f : A → string) (l : list A) (s : gset string) y :
  y ∈ foldl (fun s x => {[f x]} ∪ s) s l ↔ y ∈ s ∨ ∃ x, x ∈ l ∧ f x = y.
Proof.
  revert s. induction l as [|x l IH]; intros s; simpl.
  - split; [by left|]. intros [H|(x & Hx & _)]; [done|by apply elem_of_nil in Hx].
  - rewrite IH, elem_of_union, elem_of_singleton. split.
    + intros [[->|H]|(z & Hz & Hf)]; [right|by left|right].
      * exists x. split; [by left|done].
      * exists z. split; [by right|done].
    + intros [H|(z & Hz & Hf)]; [left; by right|].
      apply elem_of_cons in Hz as [->|Hz]; [left; by left|].
      right. by exists z.
Qed.

(** ** The graph built from the reference data *)

Section BuiltGraph.

Variable UNDERSEA_CABLES : list UnderseaCable.
Variable PIPELINES : list Pipeline.
Variable PORTS : list Port.
Variable STRATEGIC_WATERWAYS : list Waterway.

Abbreviation countries := (referencedCountries UNDERSEA_CABLES PIPELINES).
Abbreviation built := (constructGraph UNDERSEA_CABLES PIPELINES PORTS STRATEGIC_WATERWAYS).

(** *** The set of referenced countries *)

Lemma cableCountries_elem s c y :
  y ∈ cableCountries s c ↔
  y ∈ s
  ∨ (∃ cs, cs ∈ Js.opt_list (countriesServed c) ∧ cs_country cs = y)
  ∨ (∃ lp, lp ∈ Js.opt_list (landingPoints c) ∧ lp_country lp = y).
Proof. unfold cableCountries. rewrite !foldl_add_elem. tauto. Qed.

Lemma foldl_cableCountries_elem l s y :
  y ∈ foldl cableCountries s l ↔
  y ∈ s
  ∨ ∃ c, c ∈ l ∧
      ((∃ cs, cs ∈ Js.opt_list (countriesServed c) ∧ cs_country cs = y)
       ∨ (∃ lp, lp ∈ Js.opt_list (landingPoints c) ∧ lp_country lp = y)).
Proof.
  revert s. induction l as [|c l IH]; intros s; simpl.
  - split; [by left|]. intros [H|(c & Hc & _)]; [done|by apply elem_of_nil in Hc].
  - rewrite IH, cableCountries_elem. split.
    + intros [[H|H]|(c' & Hc' & H)]; [by left|right|right].
      * exists c. split; [by left|done].
      * exists c'. split; [by right|done].
    + intros [H|(c' & Hc' & H)]; [left; by left|].
      apply elem_of_cons in Hc' as [->|Hc']; [left; by right|].
      right. by exists c'.
Qed.

Lemma foldl_pipelineCountries_elem l s y :
  y ∈ foldl pipelineCountries s l ↔
  y ∈ s
  ∨ ∃ p c, p ∈ l ∧ c ∈ Js.opt_list (pipeline_countries p) ∧ normalizeCountry c = y.
Proof.
  revert s. induction l as [|p l IH]; intros s; simpl.
  - split; [by left|]. intros [H|(p & c & Hp & _)]; [done|by apply elem_of_nil in Hp].
  - rewrite IH. unfold pipelineCountries. rewrite foldl_add_elem. split.
    + intros [[H|(c & Hc & H)]|(p' & c & Hp' & H)]; [by left|right|right].
      * exists p, c. split; [by left|done].
      * exists p', c. split; [by right|done].
    + intros [H|(p' & c & Hp' & Hc & H)]; [left; by left|].
      apply elem_of_cons in Hp' as [->|Hp']; [left; right; by exists c|].
      right. by exists p', c.
Qed.

Lemma served_country_referenced c cs :
  c ∈ UNDERSEA_CABLES → cs ∈ Js.opt_list (countriesServed c) →
  cs_country cs ∈ countries.
Proof.
  intros Hc Hcs. unfold referencedCountries.
  apply foldl_pipelineCountries_elem. left.
  apply foldl_cableCountries_elem. right. exists c. split; [done|].
  left. by exists cs.
Qed.

Lemma landing_country_referenced c lp :
  c ∈ UNDERSEA_CABLES → lp ∈ Js.opt_list (landingPoints c) →
  lp_country lp ∈ countries.
Proof.
  intros Hc Hlp. unfold referencedCountries.
  apply foldl_pipelineCountries_elem. left.
  apply foldl_cableCountries_elem. right. exists c. split; [done|].
  right. by exists lp.
Qed.

Lemma pipeline_country_referenced p c :
  p ∈ PIPELINES → c ∈ Js.opt_list (pipeline_countries p) →
  normalizeCountry c ∈ countries.
Proof.
  intros Hp Hc. unfold referencedCountries.
  apply foldl_pipelineCountries_elem. right. by exists p, c.
Qed.

(** *** Nodes *)

(** The node stage of [buildDependencyGraph]. *)
Definition nodeStage : DependencyGraph :=
  addCountriesAsNodes UNDERSEA_CABLES PIPELINES
    (addChokepointsAsNodes STRATEGIC_WATERWAYS
       (addPortsAsNodes PORTS
          (addPipelinesAsNodes PIPELINES
             (addCablesAsNodes UNDERSEA_CABLES empty_graph)))).

Inductive built_node : string → InfrastructureNode → Prop :=
| built_cable c :
    c ∈ UNDERSEA_CABLES → built_node ("cable:" +:+ cable_id c) (cableNode c)
| built_pipeline p :
    p ∈ PIPELINES → built_node ("pipeline:" +:+ pipeline_id p) (pipelineNode p)
| built_port p :
    p ∈ PORTS → built_node ("port:" +:+ port_id p) (portNode p)
| built_chokepoint w :
    w ∈ STRATEGIC_WATERWAYS →
    built_node ("chokepoint:" +:+ waterway_id w) (chokepointNode w)
| built_country code :
    code ∈ countries → built_node ("country:" +:+ code) (countryNode code).

Lemma built_node_kind k n : built_node k n → id_kind k = Some (node_type n).
Proof.
  destruct 1; simpl;
    auto using id_kind_cable, id_kind_pipeline, id_kind_port,
               id_kind_chokepoint, id_kind_country.
Qed.

Lemma built_node_id k n : built_node k n → node_id n = k.
Proof. by destruct 1. Qed.

Lemma nodeStage_indexed : indexed nodeStage ∧ edges nodeStage = [].
Proof.
  unfold nodeStage, addCountriesAsNodes, addChokepointsAsNodes, addPortsAsNodes,
    addPipelinesAsNodes, addCablesAsNodes.
  split.
  - intros k.
    repeat match goal with
           | |- context [foldl (fun g x => nodes_set (@?key x) (@?mk x) g) ?g0 ?l] =>
               destruct (addAll_edges key mk g0 l) as (-> & -> & ->)
           end.
    apply indexed_empty.
  - repeat match goal with
           | |- context [foldl (fun g x => nodes_set (@?key x) (@?mk x) g) ?g0 ?l] =>
               destruct (addAll_edges key mk g0 l) as (-> & _ & _)
           end.
    done.
Qed.

Lemma nodeStage_built k n : nodes nodeStage !! k = Some n → built_node k n.
Proof.
  unfold nodeStage, addCountriesAsNodes, addChokepointsAsNodes, addPortsAsNodes,
    addPipelinesAsNodes, addCablesAsNodes.
  intros H.
  apply addAll_lookup_inv in H as [(code & Hc & <- & <-)|H].
  { apply built_country. by apply elem_of_elements. }
  apply addAll_lookup_inv in H as [(w & Hw & <- & <-)|H]; [by constructor|].
  apply addAll_lookup_inv in H as [(p & Hp & <- & <-)|H]; [by constructor|].
  apply addAll_lookup_inv in H as [(p & Hp & <- & <-)|H]; [by constructor|].
  apply addAll_lookup_inv in H as [(c & Hc & <- & <-)|H]; [by constructor|].
  simpl in H. by rewrite lookup_empty in H.
Qed.

Lemma nodeStage_country code :
  code ∈ countries → nodes nodeStage !! ("country:" +:+ code) = Some (countryNode code).
Proof.
  intros Hc. unfold nodeStage, addCountriesAsNodes.
  apply elem_of_elements in Hc.
  match goal with
  | |- nodes (foldl _ ?g0 ?l) !! _ = _ =>
      destruct (addAll_lookup_in (fun code => "country:" +:+ code) countryNode
                  g0 l code Hc) as (code' & _ & Heq & Hl)
  end.
  apply app_inj_prefix in Heq. by subst.
Qed.

Lemma kind_mismatch (k1 k2 : string) t1 t2 :
  id_kind k1 = Some t1 → id_kind k2 = Some t2 → t1 ≠ t2 → k1 ≠ k2.
Proof. intros H1 H2 Hne ->. congruence. Qed.

Lemma nodeStage_cable c :
  c ∈ UNDERSEA_CABLES →
  ∃ c', c' ∈ UNDERSEA_CABLES ∧ cable_id c' = cable_id c
        ∧ nodes nodeStage !! ("cable:" +:+ cable_id c) = Some (cableNode c').
Proof.
  intros Hc. unfold nodeStage, addCountriesAsNodes, addChokepointsAsNodes,
    addPortsAsNodes, addPipelinesAsNodes.
  rewrite !addAll_lookup_ne.
  - unfold addCablesAsNodes.
    destruct (addAll_lookup_in (fun c => "cable:" +:+ cable_id c) cableNode
                empty_graph _ c Hc) as (c' & Hc' & Heq & Hl).
    apply app_inj_prefix in Heq. by exists c'.
  - intros p _. eapply kind_mismatch;
      [apply id_kind_pipeline|apply id_kind_cable|done].
  - intros p _. eapply kind_mismatch;
      [apply id_kind_port|apply id_kind_cable|done].
  - intros p _. eapply kind_mismatch;
      [apply id_kind_chokepoint|apply id_kind_cable|done].
  - intros p _. eapply kind_mismatch;
      [apply id_kind_country|apply id_kind_cable|done].
Qed.

Lemma nodeStage_pipeline p :
  p ∈ PIPELINES →
  ∃ p', p' ∈ PIPELINES ∧ pipeline_id p' = pipeline_id p
        ∧ nodes nodeStage !! ("pipeline:" +:+ pipeline_id p) = Some (pipelineNode p').
Proof.
  intros Hp. unfold nodeStage, addCountriesAsNodes, addChokepointsAsNodes,
    addPortsAsNodes.
  rewrite !addAll_lookup_ne.
  - unfold addPipelinesAsNodes.
    destruct (addAll_lookup_in (fun p => "pipeline:" +:+ pipeline_id p) pipelineNode
                (addCablesAsNodes UNDERSEA_CABLES empty_graph) _ p Hp)
      as (p' & Hp' & Heq & Hl).
    apply app_inj_prefix in Heq. by exists p'.
  - intros x _. eapply kind_mismatch;
      [apply id_kind_port|apply id_kind_pipeline|done].
  - intros x _. eapply kind_mismatch;
      [apply id_kind_chokepoint|apply id_kind_pipeline|done].
  - intros x _. eapply kind_mismatch;
      [apply id_kind_country|apply id_kind_pipeline|done].
Qed.

(** *** Edges *)

(** Edges contributed by one cable and by one pipeline, in emission order;
    the pipeline list is the one an unguarded loop would emit. *)
Definition cableEdgeList (c : UnderseaCable) : list DependencyEdge :=
  (servesEdge ("cable:" +:+ cable_id c) <$> Js.opt_list (countriesServed c))
  ++ (landsAtEdge ("cable:" +:+ cable_id c) <$> Js.opt_list (landingPoints c)).

Definition pipelineEdgeList (p : Pipeline) : list DependencyEdge :=
  (fun c => pipelineEdge ("pipeline:" +:+ pipeline_id p) (normalizeCountry c))
    <$> Js.opt_list (pipeline_countries p).

Lemma foldl_steps_spec {A} (step : DependencyGraph → A → DependencyGraph)
    (E : A → list DependencyEdge) (N : gmap string InfrastructureNode) (l : list A) :
  (∀ g x, x ∈ l → nodes g = N →
          nodes (step g x) = N ∧ edges (step g x) = edges g ++ E x
          ∧ (indexed g → indexed (step g x))) →
  ∀ g, nodes g = N →
       nodes (foldl step g l) = N
       ∧ edges (foldl step g l) = edges g ++ (l ≫= E)
       ∧ (indexed g → indexed (foldl step g l)).
Proof.
  induction l as [|x l IH]; intros Hstep g Hg; simpl.
  - by rewrite app_nil_r.
  - destruct (Hstep g x) as (Hn & He & Hi); [by left|done|].
    destruct (IH (fun g y Hy => Hstep g y (list_elem_of_further _ _ _ Hy))
                 (step g x) Hn) as (Hn' & He' & Hi').
    split; [done|]. split; [|by auto].
    by rewrite He', He, <- app_assoc.
Qed.

Lemma cableEdges_spec g c :
  nodes (cableEdges g c) = nodes g
  ∧ edges (cableEdges g c) = edges g ++ cableEdgeList c
  ∧ (indexed g → indexed (cableEdges g c)).
Proof.
  unfold cableEdges, cableEdgeList.
  set (cableId := "cable:" +:+ cable_id c).
  destruct (foldl_addEdge (servesEdge cableId) g (Js.opt_list (countriesServed c)))
    as (Hn1 & He1 & Hi1).
  destruct (foldl_addEdge (landsAtEdge cableId)
              (foldl (fun g cs => addEdge g (servesEdge cableId cs)) g
                     (Js.opt_list (countriesServed c)))
              (Js.opt_list (landingPoints c)))
    as (Hn2 & He2 & Hi2).
  split; [by rewrite Hn2|]. split; [|by auto].
  by rewrite He2, He1, <- app_assoc.
Qed.

Lemma pipelineEdges_spec g p :
  (∀ c, c ∈ Js.opt_list (pipeline_countries p) →
        is_Some (nodes g !! ("country:" +:+ normalizeCountry c))) →
  nodes (pipelineEdges g p) = nodes g
  ∧ edges (pipelineEdges g p) = edges g ++ pipelineEdgeList p
  ∧ (indexed g → indexed (pipelineEdges g p)).
Proof.
  unfold pipelineEdges, pipelineEdgeList.
  set (pipelineId := "pipeline:" +:+ pipeline_id p).
  generalize (Js.opt_list (pipeline_countries p)) as l.
  intros l. revert g. induction l as [|c l IH]; intros g Hl; simpl.
  - by rewrite app_nil_r.
  - destruct (Hl c) as [n Hn]; [by left|]. rewrite Hn.
    destruct (IH (addEdge g (pipelineEdge pipelineId (normalizeCountry c))))
      as (Hn' & He' & Hi').
    { intros c' Hc'. simpl. apply Hl. by right. }
    split; [done|]. split.
    + rewrite He'. simpl. by rewrite <- app_assoc.
    + intros Hi. by apply Hi', indexed_addEdge.
Qed.

(** The edges of the built graph, in emission order, had the guard of
    [buildPipelineCountryEdges] not been there. *)
Definition emittedEdges : list DependencyEdge :=
  (UNDERSEA_CABLES ≫= cableEdgeList) ++ (PIPELINES ≫= pipelineEdgeList).

Lemma constructGraph_spec :
  nodes built = nodes nodeStage
  ∧ edges built = emittedEdges
  ∧ indexed built.
Proof.
  destruct nodeStage_indexed as [Hi0 He0].
  destruct (foldl_steps_spec cableEdges cableEdgeList (nodes nodeStage) UNDERSEA_CABLES)
    with (g := nodeStage) as (Hn1 & He1 & Hi1); [|done|].
  { intros g c _ Hg. rewrite <- Hg. apply cableEdges_spec. }
  destruct (foldl_steps_spec pipelineEdges pipelineEdgeList (nodes nodeStage) PIPELINES)
    with (g := buildCableCountryEdges UNDERSEA_CABLES nodeStage)
    as (Hn2 & He2 & Hi2); [|done|].
  { intros g p Hp Hg. rewrite <- Hg. apply pipelineEdges_spec.
    intros c Hc. rewrite Hg, nodeStage_country; [done|].
    by eapply pipeline_country_referenced. }
  unfold constructGraph. fold nodeStage. unfold buildPipelineCountryEdges.
  split; [done|]. split; [|by auto].
  rewrite He2. unfold buildCableCountryEdges. by rewrite He1, He0.
Qed.

Lemma built_nodes k n : nodes built !! k = Some n → built_node k n.
Proof. destruct constructGraph_spec as (-> & _). apply nodeStage_built. Qed.

Lemma built_outgoing k :
  default [] (outgoing built !! k) = filter (fun e => edge_from e = k) emittedEdges.
Proof. destruct constructGraph_spec as (_ & <- & Hi). apply Hi. Qed.

(** Where an emitted edge comes from. *)
Inductive emitted : DependencyEdge → Prop :=
| emitted_serves c cs :
    c ∈ UNDERSEA_CABLES → cs ∈ Js.opt_list (countriesServed c) →
    emitted (servesEdge ("cable:" +:+ cable_id c) cs)
| emitted_lands_at c lp :
    c ∈ UNDERSEA_CABLES → lp ∈ Js.opt_list (landingPoints c) →
    emitted (landsAtEdge ("cable:" +:+ cable_id c) lp)
| emitted_pipeline p c :
    p ∈ PIPELINES → c ∈ Js.opt_list (pipeline_countries p) →
    emitted (pipelineEdge ("pipeline:" +:+ pipeline_id p) (normalizeCountry c)).

Lemma emittedEdges_emitted e : e ∈ emittedEdges → emitted e.
Proof.
  unfold emittedEdges. rewrite elem_of_app, !list_elem_of_bind.
  intros [(c & He & Hc)|(p & He & Hp)].
  - unfold cableEdgeList in He. rewrite elem_of_app, !list_elem_of_fmap in He.
    destruct He as [(cs & -> & Hcs)|(lp & -> & Hlp)]; by constructor.
  - unfold pipelineEdgeList in He. rewrite list_elem_of_fmap in He.
    destruct He as (c & -> & Hc). by constructor.
Qed.

Lemma emitted_endpoints e :
  emitted e →
  (∃ n, nodes built !! edge_from e = Some n
        ∧ (node_type n = NCable ∨ node_type n = NPipeline))
  ∧ ∃ code, code ∈ countries ∧ edge_to e = "country:" +:+ code
            ∧ nodes built !! edge_to e = Some (countryNode code).
Proof.
  destruct constructGraph_spec as (-> & _).
  destruct 1 as [c cs Hc Hcs|c lp Hc Hlp|p c Hp Hc]; simpl.
  - split.
    + destruct (nodeStage_cable c Hc) as (c' & _ & _ & ->). eexists. split; [done|by left].
    + exists (cs_country cs).
      assert (cs_country cs ∈ countries) by by eapply served_country_referenced.
      by rewrite nodeStage_country.
  - split.
    + destruct (nodeStage_cable c Hc) as (c' & _ & _ & ->). eexists. split; [done|by left].
    + exists (lp_country lp).
      assert (lp_country lp ∈ countries) by by eapply landing_country_referenced.
      by rewrite nodeStage_country.
  - split.
    + destruct (nodeStage_pipeline p Hp) as (p' & _ & _ & ->).
      eexists. split; [done|by right].
    + exists (normalizeCountry c).
      assert (normalizeCountry c ∈ countries) by by eapply pipeline_country_referenced.
      by rewrite nodeStage_country.
Qed.

Lemma emitted_from_kind e :
  emitted e → id_kind (edge_from e) = Some NCable ∨ id_kind (edge_from e) = Some NPipeline.
Proof.
  destruct 1; simpl; [left|left|right];
    auto using id_kind_cable, id_kind_pipeline.
Qed.

Lemma built_outgoing_emitted k e :
  e ∈ default [] (outgoing built !! k) → emitted e ∧ edge_from e = k.
Proof.
  rewrite built_outgoing, list_elem_of_filter. intros [Hk He].
  split; [by apply emittedEdges_emitted|done].
Qed.

(** Country nodes have no outgoing edges. *)
Lemma built_outgoing_country code :
  default [] (outgoing built !! ("country:" +:+ code)) = [].
Proof.
  destruct (default [] _) as [|e l] eqn:E; [done|].
  destruct (built_outgoing_emitted ("country:" +:+ code) e) as [He Hf].
  { rewrite E. by left. }
  apply emitted_from_kind in He. rewrite Hf, id_kind_country in He.
  by destruct He.
Qed.

End BuiltGraph.

(** ** Insertion-ordered maps *)

Lemma OrderedMap_set_Forall {V} (P : string * V → Prop) k v (m : OrderedMap.t V) :
  P (k, v) → Forall P m → Forall P (OrderedMap.set k v m).
Proof.
  intros Hkv. induction 1 as [|[k' v'] m Hx Hm IH]; simpl.
  - by constructor.
  - destruct (decide (k' = k)); constructor; done.
Qed.

Lemma OrderedMap_set_fresh {V} k v (m : OrderedMap.t V) :
  k ∉ OrderedMap.keys m → OrderedMap.set k v m = m ++ [(k, v)].
Proof.
  induction m as [|[k' v'] m IH]; simpl; intros Hk; [done|].
  apply not_elem_of_cons in Hk as [Hne Hk].
  destruct (decide (k' = k)); [congruence|]. by rewrite IH.
Qed.

(** ** The propagation loop on an arbitrary graph *)

Lemma ltb_false_iff a b : Js.ltb a b = false ↔ (b <= a)%Q.
Proof.
  unfold Js.ltb. rewrite negb_false_iff. apply Qle_bool_iff.
Qed.

Lemma ltb_true_iff a b : Js.ltb a b = true ↔ (a < b)%Q.
Proof.
  unfold Js.ltb. rewrite negb_true_iff. split.
  - intros H. apply Qnot_le_lt. intros Hle. apply Qle_bool_iff in Hle. congruence.
  - intros H. destruct (Qle_bool b a) eqn:E; [|done].
    apply Qle_bool_iff in E. exfalso. by eapply Qlt_not_le.
Qed.

(** The iteration that records an entry. *)
Lemma visitEdge_record graph level d p st e targetNode :
  edge_to e ∉ visited st →
  nodes graph !! edge_to e = Some targetNode →
  Js.ltb (impactStrength e level) 0.05 = false →
  visitEdge graph level d p st e
  = {| affected :=
         OrderedMap.set (edge_to e)
           {| node := targetNode;
              impactLevel := categorizeImpact (impactStrength e level);
              pathLength := d + 1;
              dependencyChain := p ++ [edge_to e];
              redundancyAvailable := Js.gtb (Js.or_zero (redundancy e)) 0.3;
              estimatedRecovery := estimatedImpact <$> edge_metadata e |}
           (affected st);
       visited := {[edge_to e]} ∪ visited st;
       queue := queue st ++ [{| nodeId := edge_to e; depth := d + 1;
                                path := p ++ [edge_to e] |}] |}.
Proof.
  intros Hv Hn Hi. unfold visitEdge.
  rewrite decide_False by done. by rewrite Hn, Hi.
Qed.

Section Loop.

Variable graph : DependencyGraph.
Variable disruptionLevel : Q.

Lemma cascadeLoop_invariant (I : LoopState → Prop) :
  (∀ a v item rest,
      I {| affected := a; visited := v; queue := item :: rest |} →
      I (expand graph disruptionLevel item {| affected := a; visited := v; queue := rest |})) →
  ∀ st, I st → I (cascadeLoop graph disruptionLevel st).
Proof.
  intros Hstep st. funelim (cascadeLoop graph disruptionLevel st); intros HI.
  - done.
  - match goal with
    | IH : ∀ J : LoopState → Prop, _ |- _ => apply IH; [done|by apply Hstep]
    end.
Qed.

Lemma cascadeLoop_queue st : queue (cascadeLoop graph disruptionLevel st) = [].
Proof. funelim (cascadeLoop graph disruptionLevel st); [done|auto]. Qed.

(** Items dequeued at depth 3 or more are not expanded. *)
Lemma expand_at_bound item st :
  3 ≤ depth item → expand graph disruptionLevel item st = st.
Proof. intros H. unfold expand. by rewrite (proj2 (Nat.leb_le _ _) H). Qed.

Lemma expand_foldl_invariant (I : LoopState → Prop) d p l st :
  (∀ st e, e ∈ l → I st → I (visitEdge graph disruptionLevel d p st e)) →
  I st → I (foldl (visitEdge graph disruptionLevel d p) st l).
Proof.
  revert st. induction l as [|e l IH]; intros st Hstep HI; simpl; [done|].
  apply IH.
  - intros st' e' He'. apply Hstep. by right.
  - apply Hstep; [by left|done].
Qed.

(** What the loop knows about a recorded entry: it was reached along an
    edge of the [outgoing] index whose impact passed the noise floor. *)
Definition justified (k : string) (an : CascadeAffectedNode) : Prop :=
  ∃ from e,
    e ∈ default [] (outgoing graph !! from)
    ∧ edge_to e = k
    ∧ nodes graph !! k = Some (node an)
    ∧ (0.05 <= impactStrength e disruptionLevel)%Q
    ∧ impactLevel an = categorizeImpact (impactStrength e disruptionLevel)
    ∧ redundancyAvailable an = Js.gtb (Js.or_zero (redundancy e)) 0.3
    ∧ estimatedRecovery an = (estimatedImpact <$> edge_metadata e)
    ∧ pathLength an ≤ 3
    ∧ length (dependencyChain an) = S (pathLength an)
    ∧ last (dependencyChain an) = Some k.

Definition loopInv (st : LoopState) : Prop :=
  Forall (fun item => length (path item) = S (depth item)
                      ∧ last (path item) = Some (nodeId item)) (queue st)
  ∧ Forall (fun kv => justified kv.1 kv.2) (affected st).

Lemma visitEdge_loopInv item st e :
  depth item < 3 →
  length (path item) = S (depth item) →
  e ∈ default [] (outgoing graph !! nodeId item) →
  loopInv st →
  loopInv (visitEdge graph disruptionLevel (depth item) (path item) st e).
Proof.
  intros Hd Hp He [Hq Ha]. unfold visitEdge.
  destruct (decide (edge_to e ∈ visited st)); [done|].
  destruct (nodes graph !! edge_to e) as [targetNode|] eqn:Hn; [|done].
  destruct (Js.ltb _ _) eqn:Hlt; [done|].
  apply ltb_false_iff in Hlt.
  split; simpl.
  - apply Forall_app. split; [done|].
    constructor; [|done]. simpl.
    rewrite length_app, last_snoc. simpl. split; [lia|done].
  - apply OrderedMap_set_Forall; [|done]. simpl.
    exists (nodeId item), e. simpl.
    rewrite length_app, last_snoc. simpl.
    repeat split; try done; lia.
Qed.

Lemma expand_loopInv a v item rest :
  loopInv {| affected := a; visited := v; queue := item :: rest |} →
  loopInv (expand graph disruptionLevel item {| affected := a; visited := v; queue := rest |}).
Proof.
  intros [Hq Ha]. simpl in *. apply Forall_cons in Hq as [[Hp Hl] Hq].
  unfold expand. destruct (Nat.leb 3 (depth item)) eqn:Hd; [done|].
  apply Nat.leb_gt in Hd.
  apply expand_foldl_invariant; [|done].
  intros st e He Hst. by apply visitEdge_loopInv.
Qed.

Definition startState (sourceId : string) : LoopState :=
  {| affected := [];
     visited := {[sourceId]};
     queue := [{| nodeId := sourceId; depth := 0; path := [sourceId] |}] |}.

Lemma cascadeLoop_justified sourceId :
  Forall (fun kv => justified kv.1 kv.2)
         (affected (cascadeLoop graph disruptionLevel (startState sourceId))).
Proof.
  apply (cascadeLoop_invariant loopInv).
  - apply expand_loopInv.
  - split; simpl; [|done]. by repeat constructor.
Qed.

End Loop.

Lemma or_zero_eq x : (Js.or_zero x == x)%Q.
Proof.
  unfold Js.or_zero. destruct (Qeq_bool x 0) eqn:E; [|done].
  apply Qeq_bool_iff in E. by rewrite E.
Qed.

(** ** The cache and the simulator *)

Section Simulator.

Variable UNDERSEA_CABLES : list UnderseaCable.
Variable PIPELINES : list Pipeline.
Variable PORTS : list Port.
Variable STRATEGIC_WATERWAYS : list Waterway.

Abbreviation built := (constructGraph UNDERSEA_CABLES PIPELINES PORTS STRATEGIC_WATERWAYS).
Abbreviation buildGraph :=
  (buildDependencyGraph UNDERSEA_CABLES PIPELINES PORTS STRATEGIC_WATERWAYS).
Abbreviation simulateCascade :=
  (calculateCascade UNDERSEA_CABLES PIPELINES PORTS STRATEGIC_WATERWAYS).

(** The graph a call made in state [st] works on. *)
Definition currentGraph (st : ModuleState) : DependencyGraph :=
  graph_of (buildGraph st).1.

(** States in which the cache is empty or holds a graph built from the
    reference data by an earlier allocation. *)
Definition stateInv (st : ModuleState) : Prop :=
  ∀ g, cachedGraph st = Some g → graph_of g = built ∧ object_id g < allocated st.

Lemma stateInv_initial : stateInv initialState.
Proof. by intros g. Qed.

Lemma stateInv_clear st : stateInv st → stateInv (clearGraphCache st).
Proof. by intros _ g. Qed.

Lemma stateInv_build st : stateInv st → stateInv (buildGraph st).2.
Proof.
  intros H. unfold buildDependencyGraph.
  destruct (cachedGraph st) eqn:E; simpl; [done|].
  intros g [= <-]. simpl. split; [done|lia].
Qed.

Lemma currentGraph_built st : stateInv st → currentGraph st = built.
Proof.
  intros H. unfold currentGraph, buildDependencyGraph.
  destruct (cachedGraph st) as [g|] eqn:E; simpl; [|done].
  by apply H.
Qed.

(** The result of a call as a function of the graph it works on. *)
Definition cascadeOn (graph : DependencyGraph) (sourceId : string)
    (disruptionLevel : Q) : option CascadeResult :=
  source ← nodes graph !! sourceId;
  let final := cascadeLoop graph disruptionLevel (startState sourceId) in
  Some {| source := source;
          affectedNodes := OrderedMap.values (affected final);
          countriesAffected :=
            js_sort compareImpact
              (collectCountries UNDERSEA_CABLES sourceId (affected final));
          redundancies := findRedundancies UNDERSEA_CABLES sourceId |}.

Lemma calculateCascade_on sourceId disruptionLevel st :
  simulateCascade sourceId disruptionLevel st
  = (cascadeOn (currentGraph st) sourceId disruptionLevel, (buildGraph st).2).
Proof.
  unfold calculateCascade, cascadeOn, currentGraph.
  destruct (buildDependencyGraph _ _ _ _ st) as [g st']. simpl.
  by destruct (nodes (graph_of g) !! sourceId).
Qed.

Lemma stateInv_calculateCascade sourceId disruptionLevel st :
  stateInv st → stateInv (simulateCascade sourceId disruptionLevel st).2.
Proof. rewrite calculateCascade_on. apply stateInv_build. Qed.

Lemma stateInv_getGraphStats st :
  stateInv st →
  stateInv (getGraphStats UNDERSEA_CABLES PIPELINES PORTS STRATEGIC_WATERWAYS st).2.
Proof.
  intros H. unfold getGraphStats.
  pose proof (stateInv_build st H) as H'.
  by destruct (buildDependencyGraph _ _ _ _ st).
Qed.

(** The states the module can be in: it starts with an empty cache and is
    only changed by its exported functions. *)
Inductive reachable : ModuleState → Prop :=
| reachable_initial : reachable initialState
| reachable_clear st : reachable st → reachable (clearGraphCache st)
| reachable_build st : reachable st → reachable (buildGraph st).2
| reachable_stats st :
    reachable st →
    reachable (getGraphStats UNDERSEA_CABLES PIPELINES PORTS STRATEGIC_WATERWAYS st).2
| reachable_cascade st sourceId disruptionLevel :
    reachable st → reachable (simulateCascade sourceId disruptionLevel st).2.

Lemma reachable_stateInv st : reachable st → stateInv st.
Proof.
  induction 1;
    auto using stateInv_initial, stateInv_clear, stateInv_build,
               stateInv_getGraphStats, stateInv_calculateCascade.
Qed.

Lemma justified_values graph level sourceId (P : CascadeAffectedNode → Prop) :
  (∀ k an, justified graph level k an → P an) →
  Forall P (OrderedMap.values
              (affected (cascadeLoop graph level (startState sourceId)))).
Proof.
  intros HP. unfold OrderedMap.values. apply Forall_fmap.
  eapply Forall_impl; [apply cascadeLoop_justified|].
  intros [k an] H. by eapply HP.
Qed.

(** C3: an item dequeued at depth 3 or more is not expanded; for an existing
    source, the call succeeds and every affected-node entry has pathLength
    at most 3. *)
Theorem depth_bound st sourceId disruptionLevel src :
  nodes (currentGraph st) !! sourceId = Some src →
  (∀ item loopState,
      3 ≤ depth item →
      expand (currentGraph st) disruptionLevel item loopState = loopState)
  ∧ ∃ r, (calculateCascade UNDERSEA_CABLES PIPELINES PORTS STRATEGIC_WATERWAYS
            sourceId disruptionLevel st).1 = Some r
         ∧ Forall (fun an => pathLength an ≤ 3) (affectedNodes r).
Proof.
  intros Hsrc. split; [by intros; apply expand_at_bound|].
  rewrite calculateCascade_on. unfold cascadeOn. rewrite Hsrc. simpl.
  eexists. split; [done|]. simpl.
  apply justified_values.
  by intros k an (from & e & _ & _ & _ & _ & _ & _ & _ & Hlen & _).
Qed.

(** C4: the call is total; it returns the not-found signal exactly when
    [sourceId] is not a node id of the current graph, and otherwise a
    result whose source is that node. *)
Theorem not_found_iff st sourceId disruptionLevel :
  ((calculateCascade UNDERSEA_CABLES PIPELINES PORTS STRATEGIC_WATERWAYS
      sourceId disruptionLevel st).1 = None
   ↔ nodes (currentGraph st) !! sourceId = None)
  ∧ (∀ r, (calculateCascade UNDERSEA_CABLES PIPELINES PORTS STRATEGIC_WATERWAYS
             sourceId disruptionLevel st).1 = Some r →
          nodes (currentGraph st) !! sourceId = Some (source r))
  ∧ (nodes (currentGraph st) !! "cable:does-not-exist" = None →
     (calculateCascade UNDERSEA_CABLES PIPELINES PORTS STRATEGIC_WATERWAYS
        "cable:does-not-exist" disruptionLevel st).1 = None).
Proof.
  rewrite !calculateCascade_on. unfold cascadeOn. simpl.
  split; [|split].
  - by destruct (nodes (currentGraph st) !! sourceId).
  - destruct (nodes (currentGraph st) !! sourceId) as [src|]; simpl; [|done].
    by intros r [= <-].
  - by intros ->.
Qed.

(** C5: two consecutive builds return the same graph object and leave the
    cache as it is; after an invalidation the next build allocates a new
    graph object with the same node and edge counts. *)
Theorem build_cached st :
  stateInv st →
  let build := buildDependencyGraph UNDERSEA_CABLES PIPELINES PORTS STRATEGIC_WATERWAYS in
  let '(g1, s1) := build st in
  let '(g2, s2) := build s1 in
  let '(g3, s3) := build (clearGraphCache s2) in
  g2 = g1 ∧ s2 = s1
  ∧ object_id g3 ≠ object_id g1
  ∧ graph_of g3 = constructGraph UNDERSEA_CABLES PIPELINES PORTS STRATEGIC_WATERWAYS
  ∧ size (nodes (graph_of g3)) = size (nodes (graph_of g1))
  ∧ length (edges (graph_of g3)) = length (edges (graph_of g1)).
Proof.
  intros Hinv. cbv zeta. unfold buildDependencyGraph, clearGraphCache.
  destruct (cachedGraph st) as [g|] eqn:E; simpl.
  - rewrite E. simpl. destruct (Hinv g E) as [-> Hid].
    repeat split; try done; lia.
  - repeat split; try done; lia.
Qed.

End Simulator.


(** ** Sorting the country impacts *)

(** [a] may stand before [b]: a more severe level, or the same level and at
    least the affected capacity. *)
Definition impactOrder (a b : CascadeCountryImpact) : Prop :=
  (severityRank (ci_impactLevel a) < severityRank (ci_impactLevel b))%Z
  ∨ (severityRank (ci_impactLevel a) = severityRank (ci_impactLevel b)
     ∧ (affectedCapacity b <= affectedCapacity a)%Q).

Lemma gtb_false_iff a b : Js.gtb a b = false ↔ (a <= b)%Q.
Proof. apply ltb_false_iff. Qed.

Lemma gtb_true_iff a b : Js.gtb a b = true ↔ (b < a)%Q.
Proof. apply ltb_true_iff. Qed.

Lemma compareImpact_same a b :
  ci_impactLevel a = ci_impactLevel b →
  compareImpact a b = (affectedCapacity b - affectedCapacity a)%Q.
Proof.
  intros H. unfold compareImpact. rewrite H, Z.sub_diag. reflexivity.
Qed.

Lemma compareImpact_keep a b : Js.gtb (compareImpact a b) 0 = false → impactOrder a b.
Proof.
  intros H. apply gtb_false_iff in H. unfold impactOrder.
  destruct (decide (ci_impactLevel a = ci_impactLevel b)) as [Heq|Hne].
  - right. rewrite compareImpact_same in H by done. split; [by rewrite Heq|].
    lra.
  - left. revert H Hne. unfold compareImpact.
    destruct (ci_impactLevel a), (ci_impactLevel b); simpl; intros H Hne;
      try lia; try congruence; by vm_compute in H.
Qed.

Lemma compareImpact_swap a b : Js.gtb (compareImpact a b) 0 = true → impactOrder b a.
Proof.
  intros H. apply gtb_true_iff in H. unfold impactOrder.
  destruct (decide (ci_impactLevel a = ci_impactLevel b)) as [Heq|Hne].
  - right. rewrite compareImpact_same in H by done. split; [by rewrite Heq|].
    lra.
  - left. revert H Hne. unfold compareImpact.
    destruct (ci_impactLevel a), (ci_impactLevel b); simpl; intros H Hne;
      try lia; try congruence; by vm_compute in H.
Qed.

Lemma impactOrder_trans a b c : impactOrder a b → impactOrder b c → impactOrder a c.
Proof.
  unfold impactOrder. intros [H1|[H1 H1']] [H2|[H2 H2']].
  - left. lia.
  - left. lia.
  - left. lia.
  - right. split; [lia|]. by eapply Qle_trans.
Qed.

Lemma sort_insert_perm {A} (cmp : A → A → Q) x l : sort_insert cmp x l ≡ₚ x :: l.
Proof.
  induction l as [|y l IH]; simpl; [done|].
  destruct (Js.gtb (cmp x y) 0); [|done].
  rewrite IH. apply Permutation_swap.
Qed.

Lemma js_sort_perm {A} (cmp : A → A → Q) l : js_sort cmp l ≡ₚ l.
Proof.
  induction l as [|x l IH]; simpl; [done|].
  unfold js_sort in *. simpl. by rewrite sort_insert_perm, IH.
Qed.

Lemma sort_insert_sorted x l :
  StronglySorted impactOrder l → StronglySorted impactOrder (sort_insert compareImpact x l).
Proof.
  induction 1 as [|y l Hl IH Hy]; simpl.
  - repeat constructor.
  - destruct (Js.gtb (compareImpact x y) 0) eqn:E.
    + apply compareImpact_swap in E. constructor; [done|].
      rewrite sort_insert_perm. by constructor.
    + apply compareImpact_keep in E. constructor; [by constructor|].
      constructor; [done|].
      eapply Forall_impl; [exact Hy|].
      intros z Hz. by eapply impactOrder_trans.
Qed.

Lemma js_sort_sorted l : StronglySorted impactOrder (js_sort compareImpact l).
Proof.
  induction l as [|x l IH]; simpl; [constructor|].
  by apply sort_insert_sorted.
Qed.

Lemma find_ext {A} (f g : A → bool) (l : list A) :
  (∀ x, f x = g x) → List.find f l = List.find g l.
Proof. intros H. induction l as [|x l IH]; simpl; [done|]. by rewrite H, IH. Qed.

Lemma find_is_Some {A} (f : A → bool) (l : list A) x :
  x ∈ l → f x = true → ∃ y, List.find f l = Some y ∧ y ∈ l ∧ f y = true.
Proof.
  intros Hx Hf. destruct (List.find f l) as [y|] eqn:E.
  - apply find_some in E as [Hy Hfy]. exists y. by rewrite list_elem_of_In.
  - apply list_elem_of_In in Hx. rewrite (find_none _ _ E x Hx) in Hf. done.
Qed.

Lemma filter_none {A} (P : A → Prop) `{!∀ x, Decision (P x)} (l : list A) :
  (∀ x, x ∈ l → ¬ P x) → filter P l = [].
Proof.
  induction l as [|x l IH]; intros Hl; [done|].
  rewrite filter_cons_False by (apply Hl; by left).
  apply IH. intros y Hy. apply Hl. by right.
Qed.

Lemma filter_Forall_id {A} (P : A → Prop) `{!∀ x, Decision (P x)} (l : list A) :
  Forall P l → filter P l = l.
Proof.
  induction 1 as [|x l Hx Hl IH]; [done|]. by rewrite filter_cons_True, IH.
Qed.

(** ** Cascades on the built graph *)

Section BuiltCascade.

Variable UNDERSEA_CABLES : list UnderseaCable.
Variable PIPELINES : list Pipeline.
Variable PORTS : list Port.
Variable STRATEGIC_WATERWAYS : list Waterway.

Abbreviation built := (constructGraph UNDERSEA_CABLES PIPELINES PORTS STRATEGIC_WATERWAYS).
Abbreviation simulateCascade :=
  (calculateCascade UNDERSEA_CABLES PIPELINES PORTS STRATEGIC_WATERWAYS).
Abbreviation inv := (stateInv UNDERSEA_CABLES PIPELINES PORTS STRATEGIC_WATERWAYS).
Abbreviation current := (currentGraph UNDERSEA_CABLES PIPELINES PORTS STRATEGIC_WATERWAYS).
Abbreviation emittedBy := (emitted UNDERSEA_CABLES PIPELINES).

(** C9: when [buildPipelineCountryEdges] runs, the country node of every
    pipeline country entry is registered, so the guard never fails: the
    loop appends one serves edge (strength 0.2, redundancy 0.3) per entry,
    in order, and nothing else. *)
Theorem pipeline_guard_always_holds :
  let graph :=
    buildCableCountryEdges UNDERSEA_CABLES
      (nodeStage UNDERSEA_CABLES PIPELINES PORTS STRATEGIC_WATERWAYS) in
  built = buildPipelineCountryEdges PIPELINES graph
  ∧ (∀ p c, p ∈ PIPELINES → c ∈ Js.opt_list (pipeline_countries p) →
            nodes graph !! ("country:" +:+ normalizeCountry c)
            = Some (countryNode (normalizeCountry c)))
  ∧ edges (buildPipelineCountryEdges PIPELINES graph)
    = edges graph ++ (PIPELINES ≫= pipelineEdgeList)
  ∧ (∀ p, length (pipelineEdgeList p) = length (Js.opt_list (pipeline_countries p)))
  ∧ (∀ p e, e ∈ pipelineEdgeList p →
            edge_type e = Serves ∧ strength e = 0.2%Q ∧ redundancy e = 0.3%Q).
Proof.
  intros graph.
  destruct (foldl_steps_spec cableEdges cableEdgeList
              (nodes (nodeStage UNDERSEA_CABLES PIPELINES PORTS STRATEGIC_WATERWAYS))
              UNDERSEA_CABLES)
    with (g := nodeStage UNDERSEA_CABLES PIPELINES PORTS STRATEGIC_WATERWAYS)
    as (Hn & He & _); [|done|].
  { intros g c _ Hg. rewrite <- Hg. apply cableEdges_spec. }
  fold (buildCableCountryEdges UNDERSEA_CABLES
          (nodeStage UNDERSEA_CABLES PIPELINES PORTS STRATEGIC_WATERWAYS)) in Hn, He.
  fold graph in Hn, He.
  assert (∀ p c, p ∈ PIPELINES → c ∈ Js.opt_list (pipeline_countries p) →
                 nodes graph !! ("country:" +:+ normalizeCountry c)
                 = Some (countryNode (normalizeCountry c))) as Hguard.
  { intros p c Hp Hc. rewrite Hn. apply nodeStage_country.
    by eapply pipeline_country_referenced. }
  split; [done|]. split; [done|]. split; [|split].
  - destruct (foldl_steps_spec pipelineEdges pipelineEdgeList (nodes graph) PIPELINES)
      with (g := graph) as (_ & He2 & _); [|done|done].
    intros g p Hp Hg. rewrite <- Hg. apply pipelineEdges_spec.
    intros c Hc. rewrite Hg. by erewrite Hguard.
  - intros p. unfold pipelineEdgeList. by rewrite length_fmap.
  - intros p e He'. unfold pipelineEdgeList in He'.
    apply list_elem_of_fmap in He' as (c & -> & _). done.
Qed.

(** *** One hop only *)

Definition builtInv (sourceId : string) (st : LoopState) : Prop :=
  Forall (fun item =>
            (nodeId item = sourceId ∧ depth item = 0 ∧ path item = [sourceId])
            ∨ ∃ code, nodeId item = "country:" +:+ code) (queue st)
  ∧ Forall (fun kv =>
              ∃ code, kv.1 = "country:" +:+ code
                      ∧ node kv.2 = countryNode code
                      ∧ pathLength kv.2 = 1
                      ∧ dependencyChain kv.2 = [sourceId; kv.1]) (affected st).

Lemma visitEdge_builtInv sourceId level st e :
  emittedBy e →
  builtInv sourceId st →
  builtInv sourceId (visitEdge built level 0 [sourceId] st e).
Proof.
  intros He [Hq Ha]. unfold visitEdge.
  destruct (decide (edge_to e ∈ visited st)); [done|].
  destruct (emitted_endpoints _ _ PORTS STRATEGIC_WATERWAYS e He)
    as (_ & code & _ & Hto & Hnode).
  rewrite Hnode. destruct (Js.ltb _ _); [done|].
  split; simpl.
  - apply Forall_app. split; [done|]. constructor; [|done].
    right. by exists code.
  - apply OrderedMap_set_Forall; [|done]. by exists code.
Qed.

Lemma expand_builtInv sourceId level a v item rest :
  builtInv sourceId {| affected := a; visited := v; queue := item :: rest |} →
  builtInv sourceId
    (expand built level item {| affected := a; visited := v; queue := rest |}).
Proof.
  intros [Hq Ha]. simpl in *. apply Forall_cons in Hq as [Hitem Hq].
  unfold expand. destruct (Nat.leb 3 (depth item)); [done|].
  destruct Hitem as [(Hid & Hd & Hp)|(code & Hid)].
  - rewrite Hid, Hd, Hp. apply expand_foldl_invariant; [|done].
    intros st e He Hst. apply visitEdge_builtInv; [|done].
    by apply built_outgoing_emitted in He as [He _].
  - rewrite Hid, built_outgoing_country. done.
Qed.

Lemma cascadeLoop_builtInv sourceId level :
  builtInv sourceId (cascadeLoop built level (startState sourceId)).
Proof.
  apply (cascadeLoop_invariant built level (builtInv sourceId)).
  - apply expand_builtInv.
  - split; simpl; [|done]. constructor; [|done]. by left.
Qed.

(** Queue items that name country nodes are shifted off without effect. *)
Lemma cascadeLoop_drain level a v q :
  Forall (fun item => ∃ code, nodeId item = "country:" +:+ code) q →
  cascadeLoop built level {| affected := a; visited := v; queue := q |}
  = {| affected := a; visited := v; queue := [] |}.
Proof.
  induction 1 as [|item q (code & Hid) _ IH].
  - apply cascadeLoop_equation_1.
  - rewrite cascadeLoop_equation_2. unfold expand.
    destruct (Nat.leb 3 (depth item)); [exact IH|].
    by rewrite Hid, built_outgoing_country.
Qed.

(** On the built graph the loop amounts to one pass over the outgoing edges
    of the source. *)
Lemma cascadeLoop_built level sourceId :
  let st :=
    foldl (visitEdge built level 0 [sourceId])
          {| affected := []; visited := {[sourceId]}; queue := [] |}
          (default [] (outgoing built !! sourceId)) in
  cascadeLoop built level (startState sourceId)
  = {| affected := affected st; visited := visited st; queue := [] |}.
Proof.
  intros st. unfold startState. rewrite cascadeLoop_equation_2.
  unfold expand. cbn [depth nodeId path Nat.leb]. fold st.
  assert (Forall (fun item => ∃ code, nodeId item = "country:" +:+ code) (queue st)) as Hq.
  { unfold st. apply expand_foldl_invariant; [|done].
    intros st' e He Hst'. apply built_outgoing_emitted in He as [He _].
    unfold visitEdge. destruct (decide (edge_to e ∈ visited st')); [done|].
    destruct (emitted_endpoints _ _ PORTS STRATEGIC_WATERWAYS e He)
      as (_ & code & _ & Hto & Hnode).
    rewrite Hnode. destruct (Js.ltb _ _); [done|]. simpl.
    apply Forall_app. split; [done|]. constructor; [|done]. by exists code. }
  destruct st as [a v q]. by apply cascadeLoop_drain.
Qed.

(** C10: every edge of the built graph runs from a cable or pipeline node
    to a country node, country nodes have no outgoing edges, and every
    affected node of a cascade is a country node at path length 1 with a
    dependency chain of two entries. *)
Theorem single_hop st sourceId disruptionLevel r :
  stateInv UNDERSEA_CABLES PIPELINES PORTS STRATEGIC_WATERWAYS st →
  (calculateCascade UNDERSEA_CABLES PIPELINES PORTS STRATEGIC_WATERWAYS
     sourceId disruptionLevel st).1 = Some r →
  let graph := currentGraph UNDERSEA_CABLES PIPELINES PORTS STRATEGIC_WATERWAYS st in
  (∀ e, e ∈ edges graph →
        ∃ src dst, nodes graph !! edge_from e = Some src
                   ∧ (node_type src = NCable ∨ node_type src = NPipeline)
                   ∧ nodes graph !! edge_to e = Some dst
                   ∧ node_type dst = NCountry)
  ∧ (∀ k n, nodes graph !! k = Some n → node_type n = NCountry →
            default [] (outgoing graph !! k) = [])
  ∧ Forall (fun an => node_type (node an) = NCountry
                      ∧ pathLength an = 1
                      ∧ length (dependencyChain an) = 2)
           (affectedNodes r).
Proof.
  intros Hinv Hr graph. unfold graph. rewrite currentGraph_built by done.
  split; [|split].
  - intros e He.
    destruct (constructGraph_spec UNDERSEA_CABLES PIPELINES PORTS STRATEGIC_WATERWAYS)
      as (_ & Hedges & _).
    rewrite Hedges in He. apply emittedEdges_emitted in He.
    destruct (emitted_endpoints _ _ PORTS STRATEGIC_WATERWAYS e He)
      as ((src & Hsrc & Hty) & code & _ & _ & Hdst).
    by exists src, (countryNode code).
  - intros k n Hn Hty. apply built_nodes in Hn.
    destruct Hn; try discriminate. apply built_outgoing_country.
  - rewrite calculateCascade_on, currentGraph_built in Hr by done.
    unfold cascadeOn in Hr. simpl in Hr.
    destruct (nodes built !! sourceId) as [src|]; [|done].
    simpl in Hr. injection Hr as <-. simpl.
    unfold OrderedMap.values. apply Forall_fmap.
    eapply Forall_impl; [apply (cascadeLoop_builtInv sourceId disruptionLevel)|].
    intros [k an] (code & _ & Hnode & Hlen & Hchain). simpl in *.
    by rewrite Hnode, Hchain.
Qed.

(** *** Country aggregation *)

(** The country-impact entry pushed for one entry of [affected]. *)
Definition countryImpactOf (sourceId : string) (kv : string * CascadeAffectedNode)
    : CascadeCountryImpact :=
  let code :=
    Js.or_string (meta_code (node_metadata (node kv.2)))
                 (Js.replace kv.1 "country:" "") in
  {| ci_country := code;
     countryName := node_name (node kv.2);
     ci_impactLevel := impactLevel kv.2;
     affectedCapacity := getCapacityForCountry UNDERSEA_CABLES sourceId code |}.

Lemma collectCountries_filter sourceId (m : OrderedMap.t CascadeAffectedNode) :
  collectCountries UNDERSEA_CABLES sourceId m
  = countryImpactOf sourceId <$> filter (fun kv => node_type (node kv.2) = NCountry) m.
Proof.
  induction m as [|[k an] m IH] using rev_ind; [done|].
  unfold collectCountries in *. rewrite foldl_app, IH, filter_app, fmap_app. simpl.
  destruct (decide (node_type (node an) = NCountry)) as [Hc|Hc].
  - by rewrite filter_cons_True.
  - rewrite filter_cons_False by done. by rewrite app_nil_r.
Qed.

(** The reading of the claim: the code of a country node, the cable record
    behind a source id, and the share that cable gives a country (zero when
    the cable has no served-country entry for it). *)
Definition countryCode (n : InfrastructureNode) : string :=
  default "" (meta_code (node_metadata n)).

Definition sourceCable (sourceId : string) : option UnderseaCable :=
  List.find (fun c => bool_decide ("cable:" +:+ cable_id c = sourceId)) UNDERSEA_CABLES.

Definition cableShare (c : UnderseaCable) (code : string) : Q :=
  match List.find (fun cs => bool_decide (cs_country cs = code))
                  (Js.opt_list (countriesServed c)) with
  | Some cs => capacityShare cs
  | None => 0
  end.

Lemma or_string_code code :
  Js.or_string (Some code) (Js.replace ("country:" +:+ code) "country:" "") = code.
Proof. rewrite replace_prefix. by destruct code. Qed.

Lemma countryImpactOf_country sourceId code an :
  node an = countryNode code →
  countryImpactOf sourceId ("country:" +:+ code, an)
  = {| ci_country := code;
       countryName := node_name (node an);
       ci_impactLevel := impactLevel an;
       affectedCapacity := getCapacityForCountry UNDERSEA_CABLES sourceId code |}.
Proof.
  intros Hn. unfold countryImpactOf. cbn [fst snd]. rewrite Hn.
  cbn [node_metadata countryNode meta_code]. by rewrite or_string_code.
Qed.

Lemma getCapacity_cable c0 :
  c0 ∈ UNDERSEA_CABLES →
  ∃ c, sourceCable ("cable:" +:+ cable_id c0) = Some c
       ∧ ∀ code, (getCapacityForCountry UNDERSEA_CABLES ("cable:" +:+ cable_id c0) code
                  == cableShare c code)%Q.
Proof.
  intros Hc0. unfold sourceCable, getCapacityForCountry, Js.find.
  rewrite startsWith_app, replace_prefix.
  rewrite (find_ext (fun c => bool_decide ("cable:" +:+ cable_id c = "cable:" +:+ cable_id c0))
                    (fun c => String.eqb (cable_id c) (cable_id c0))).
  2:{ intros c. rewrite string_eqb_decide. apply bool_decide_ext.
      split; [apply app_inj_prefix|by intros ->]. }
  destruct (find_is_Some (fun c => String.eqb (cable_id c) (cable_id c0))
              UNDERSEA_CABLES c0 Hc0) as (c & -> & _ & _).
  { apply String.eqb_refl. }
  exists c. split; [done|]. intros code. simpl. unfold cableShare.
  rewrite (find_ext (fun cs => bool_decide (cs_country cs = code))
                    (fun cs => String.eqb (cs_country cs) code))
    by (intros cs; by rewrite string_eqb_decide).
  destruct (List.find _ _); [apply or_zero_eq|done].
Qed.

Lemma getCapacity_other sourceId code :
  Js.startsWith sourceId "cable:" = false →
  getCapacityForCountry UNDERSEA_CABLES sourceId code = 0.1%Q.
Proof. intros H. unfold getCapacityForCountry. by rewrite H. Qed.

Lemma id_kind_not_cable k t :
  id_kind k = Some t → t ≠ NCable → Js.startsWith k "cable:" = false.
Proof.
  unfold id_kind. destruct (Js.startsWith k "cable:"); [|done]. congruence.
Qed.

(** C6: the country impacts are the affected country nodes, each with the
    source cable's capacity share for that country (0.1 when the source is
    not a cable), ordered by severity and then by decreasing capacity. *)
Theorem country_aggregation st sourceId disruptionLevel r :
  stateInv UNDERSEA_CABLES PIPELINES PORTS STRATEGIC_WATERWAYS st →
  (calculateCascade UNDERSEA_CABLES PIPELINES PORTS STRATEGIC_WATERWAYS
     sourceId disruptionLevel st).1 = Some r →
  (fun ci => (ci_country ci, countryName ci, ci_impactLevel ci)) <$> countriesAffected r
    ≡ₚ (fun an => (countryCode (node an), node_name (node an), impactLevel an))
         <$> filter (fun an => node_type (node an) = NCountry) (affectedNodes r)
  ∧ (node_type (source r) = NCable →
     ∃ c, sourceCable sourceId = Some c
          ∧ Forall (fun ci => (affectedCapacity ci == cableShare c (ci_country ci))%Q)
                   (countriesAffected r))
  ∧ (node_type (source r) ≠ NCable →
     Forall (fun ci => affectedCapacity ci = 0.1%Q) (countriesAffected r))
  ∧ StronglySorted impactOrder (countriesAffected r).
Proof.
  intros Hinv Hr.
  rewrite calculateCascade_on, currentGraph_built in Hr by done.
  unfold cascadeOn in Hr.
  destruct (nodes built !! sourceId) as [src|] eqn:Hsrc; [|done].
  simpl in Hr. injection Hr as <-. simpl.
  pose proof (cascadeLoop_builtInv sourceId disruptionLevel) as [_ Haff].
  set (m := affected (cascadeLoop built disruptionLevel (startState sourceId))) in *.
  assert (Forall (fun kv : string * CascadeAffectedNode =>
                    node_type (node kv.2) = NCountry) m) as Hall.
  { eapply Forall_impl; [exact Haff|].
    intros [k an] (code & _ & Hn & _). simpl in *. by rewrite Hn. }
  rewrite collectCountries_filter, (filter_Forall_id _ m Hall).
  apply built_nodes in Hsrc.
  split; [|split; [|split]].
  - rewrite js_sort_perm. unfold OrderedMap.values.
    rewrite filter_Forall_id by by apply Forall_fmap.
    rewrite <- !list_fmap_compose. apply reflexive_eq, Forall_fmap_ext_1.
    eapply Forall_impl; [exact Haff|].
    intros [k an] (code & Hk & Hn & _). cbn [fst snd] in *. subst k.
    unfold compose. rewrite (countryImpactOf_country sourceId code an Hn).
    unfold countryCode. cbn [fst snd]. by rewrite Hn.
  - intros Hty. destruct Hsrc as [c0 Hc0| | | |]; try discriminate.
    destruct (getCapacity_cable c0 Hc0) as (c & Hc & Hcap).
    exists c. split; [done|].
    rewrite js_sort_perm. apply Forall_fmap, Forall_true.
    intros kv. apply Hcap.
  - intros Hty. rewrite js_sort_perm. apply Forall_fmap, Forall_true.
    intros kv. apply getCapacity_other.
    eapply id_kind_not_cable; [exact (built_node_kind _ _ _ _ _ _ Hsrc)|done].
  - apply js_sort_sorted.
Qed.

End BuiltCascade.

(** ** Redundancy analysis *)

Lemma List_filter_bool_decide {A} (P : A → Prop) `{!∀ x, Decision (P x)} (l : list A) :
  List.filter (fun x => bool_decide (P x)) l = filter P l.
Proof.
  induction l as [|x l IH]; simpl; [done|].
  destruct (decide (P x)) as [HP|HP].
  - by rewrite bool_decide_eq_true_2, filter_cons_True, IH.
  - by rewrite bool_decide_eq_false_2, filter_cons_False, IH.
Qed.

Section Redundancy.

Variable UNDERSEA_CABLES : list UnderseaCable.

(** The served-country entries of [cable] whose country the source cable
    serves as well. *)
Definition overlap (sourceCable cable : UnderseaCable) : list CountryServed :=
  filter (fun c => cs_country c ∈ cs_country <$> Js.opt_list (countriesServed sourceCable))
         (Js.opt_list (countriesServed cable)).

(** The arithmetic mean of the capacity shares of a list of entries. *)
Definition meanShare (l : list CountryServed) : Q :=
  (foldr Qplus 0 (capacityShare <$> l) / inject_Z (Z.of_nat (length l)))%Q.

(** The candidate the analysis emits for [cable], if any. *)
Definition candidateFor (sourceCable cable : UnderseaCable) : option RedundancyCandidate :=
  if decide (cable_id cable = cable_id sourceCable) then None
  else
    match overlap sourceCable cable with
    | [] => None
    | shared =>
        Some {| alt_id := cable_id cable;
                alt_name := cable_name cable;
                alt_capacityShare :=
                  (sumCapacity shared / inject_Z (Z.of_nat (length shared)))%Q |}
    end.

Lemma sumCapacity_foldr l : (sumCapacity l == foldr Qplus 0 (capacityShare <$> l))%Q.
Proof.
  unfold sumCapacity.
  assert (∀ acc, (foldl (fun sum c => sum + capacityShare c) acc l
                  == acc + foldr Qplus 0 (capacityShare <$> l))%Q) as H.
  { induction l as [|c l IH]; intros acc; cbn [foldl foldr fmap list_fmap].
    - ring.
    - rewrite IH. ring. }
  rewrite H. ring.
Qed.

Lemma resolve_none sourceId :
  Js.startsWith sourceId "cable:" = false →
  findRedundancies UNDERSEA_CABLES sourceId = [].
Proof. intros H. unfold findRedundancies. by rewrite H. Qed.

Lemma resolve_unknown id :
  (∀ c, c ∈ UNDERSEA_CABLES → cable_id c ≠ id) →
  findRedundancies UNDERSEA_CABLES ("cable:" +:+ id) = [].
Proof.
  intros H. unfold findRedundancies, Js.find.
  rewrite startsWith_app, replace_prefix. simpl.
  destruct (List.find _ _) as [c|] eqn:E; [|done].
  apply find_some in E as [Hc Heq]. apply String.eqb_eq in Heq.
  apply list_elem_of_In in Hc. by destruct (H c Hc).
Qed.

Lemma candidates_fold sc (l : list UnderseaCable) :
  foldl (fun alternatives cable =>
           if String.eqb (cable_id cable) (cable_id sc) then alternatives
           else
             let sharedCountries :=
               List.filter
                 (fun c => bool_decide
                             (cs_country c ∈@{gset string}
                                list_to_set (cs_country <$> Js.opt_list (countriesServed sc))))
                 (Js.opt_list (countriesServed cable)) in
             if Nat.ltb 0 (length sharedCountries) then
               alternatives ++ [{| alt_id := cable_id cable;
                                   alt_name := cable_name cable;
                                   alt_capacityShare :=
                                     (sumCapacity sharedCountries
                                      / inject_Z (Z.of_nat (length sharedCountries)))%Q |}]
             else alternatives)
        [] l
  = omap (candidateFor sc) l.
Proof.
  induction l as [|cable l IH] using rev_ind; [done|].
  rewrite foldl_app, IH, omap_app. simpl. unfold candidateFor.
  rewrite string_eqb_decide.
  destruct (decide (cable_id cable = cable_id sc)) as [Heq|Hne].
  - rewrite bool_decide_eq_true_2 by done. by rewrite app_nil_r.
  - rewrite bool_decide_eq_false_2 by done.
    rewrite (List_filter_bool_decide
               (fun c => cs_country c ∈@{gset string}
                           list_to_set (cs_country <$> Js.opt_list (countriesServed sc)))).
    rewrite (list_filter_iff _
               (fun c => cs_country c ∈ cs_country <$> Js.opt_list (countriesServed sc)))
      by (intros c; apply elem_of_list_to_set).
    fold (overlap sc cable).
    destruct (overlap sc cable) as [|c shared]; simpl; [by rewrite app_nil_r|done].
Qed.

Lemma omap_candidate_ne sc cand :
  cand ∈ omap (candidateFor sc) UNDERSEA_CABLES → alt_id cand ≠ cable_id sc.
Proof.
  rewrite list_elem_of_omap. intros (cable & _ & H). unfold candidateFor in H.
  destruct (decide (cable_id cable = cable_id sc)); [done|].
  destruct (overlap sc cable); [done|]. by injection H as <-.
Qed.

(** C7: no candidates for a source id that is not a cable id or names no
    cable of the dataset; for the cable [sc] behind a cable id, the first
    five, in dataset order, of the candidates of the other cables that
    share a served country with [sc], each with the mean share of the
    shared entries. *)
Theorem findRedundancies_spec :
  (∀ sourceId, Js.startsWith sourceId "cable:" = false →
               findRedundancies UNDERSEA_CABLES sourceId = [])
  ∧ (∀ id, (∀ c, c ∈ UNDERSEA_CABLES → cable_id c ≠ id) →
           findRedundancies UNDERSEA_CABLES ("cable:" +:+ id) = [])
  ∧ (∀ id sc,
        List.find (fun c => bool_decide (cable_id c = id)) UNDERSEA_CABLES = Some sc →
        findRedundancies UNDERSEA_CABLES ("cable:" +:+ id)
        = take 5 (omap (candidateFor sc) UNDERSEA_CABLES)
        ∧ length (findRedundancies UNDERSEA_CABLES ("cable:" +:+ id)) ≤ 5
        ∧ ∀ cand, cand ∈ findRedundancies UNDERSEA_CABLES ("cable:" +:+ id) →
                  alt_id cand ≠ id)
  ∧ (∀ sc cable cand,
        candidateFor sc cable = Some cand →
        cable_id cable ≠ cable_id sc ∧ overlap sc cable ≠ []
        ∧ alt_id cand = cable_id cable ∧ alt_name cand = cable_name cable
        ∧ (alt_capacityShare cand == meanShare (overlap sc cable))%Q).
Proof.
  split; [exact resolve_none|]. split; [exact resolve_unknown|]. split.
  - intros id sc Hfind.
    assert (findRedundancies UNDERSEA_CABLES ("cable:" +:+ id)
            = take 5 (omap (candidateFor sc) UNDERSEA_CABLES)) as Heq.
    { unfold findRedundancies, Js.find.
      rewrite startsWith_app, replace_prefix. simpl.
      rewrite (find_ext (fun c => String.eqb (cable_id c) id)
                        (fun c => bool_decide (cable_id c = id)))
        by (intros c; apply string_eqb_decide).
      rewrite Hfind. apply find_some in Hfind as [_ Hid].
      apply bool_decide_eq_true in Hid. subst id.
      by rewrite candidates_fold. }
    rewrite Heq. split; [done|]. split.
    + rewrite length_take. lia.
    + intros cand Hc. apply find_some in Hfind as [_ Hid].
      apply bool_decide_eq_true in Hid. subst id.
      apply omap_candidate_ne. by eapply subseteq_take.
  - intros sc cable cand H. unfold candidateFor in H.
    destruct (decide (cable_id cable = cable_id sc)); [done|].
    destruct (overlap sc cable) as [|c shared] eqn:E; [done|].
    injection H as <-. simpl. repeat split; try done.
    unfold meanShare. by rewrite sumCapacity_foldr.
Qed.

End Redundancy.

(** ** A single cable serving two countries *)

Section SingleCable.

Variable c : UnderseaCable.
Variables a b : string.
Variable PIPELINES : list Pipeline.
Variable PORTS : list Port.
Variable STRATEGIC_WATERWAYS : list Waterway.

Definition servedA : CountryServed :=
  {| cs_country := a; capacityShare := 0.6; isRedundant := false |}.

Definition servedB : CountryServed :=
  {| cs_country := b; capacityShare := 0.4; isRedundant := true |}.

Hypothesis distinct : a ≠ b.
Hypothesis served : countriesServed c = Some [servedA; servedB].
Hypothesis no_landing : Js.opt_list (landingPoints c) = [].

Abbreviation cableId := ("cable:" +:+ cable_id c).
Abbreviation built := (constructGraph [c] PIPELINES PORTS STRATEGIC_WATERWAYS).

Lemma scenario_outgoing :
  default [] (outgoing built !! cableId)
  = [servesEdge cableId servedA; servesEdge cableId servedB].
Proof.
  rewrite built_outgoing. unfold emittedEdges. rewrite filter_app.
  rewrite (filter_none _ (PIPELINES ≫= pipelineEdgeList)).
  2:{ intros e He. apply list_elem_of_bind in He as (p & He & _).
      unfold pipelineEdgeList in He. apply list_elem_of_fmap in He as (x & -> & _).
      simpl. eapply kind_mismatch; [apply id_kind_pipeline|apply id_kind_cable|done]. }
  cbn [mbind list_bind]. unfold cableEdgeList. rewrite served, no_landing.
  cbn [Js.opt_list fmap list_fmap app].
  by rewrite !filter_cons_True.
Qed.

Lemma scenario_country x :
  x = a ∨ x = b → nodes built !! ("country:" +:+ x) = Some (countryNode x).
Proof.
  intros Hx.
  destruct (constructGraph_spec [c] PIPELINES PORTS STRATEGIC_WATERWAYS) as (-> & _).
  apply nodeStage_country.
  destruct Hx as [->| ->].
  - apply (served_country_referenced [c] PIPELINES c servedA); [by left|].
    rewrite served. by left.
  - apply (served_country_referenced [c] PIPELINES c servedB); [by left|].
    rewrite served. right. by left.
Qed.

Lemma scenario_source : nodes built !! cableId = Some (cableNode c).
Proof.
  destruct (constructGraph_spec [c] PIPELINES PORTS STRATEGIC_WATERWAYS) as (-> & _).
  destruct (nodeStage_cable [c] PIPELINES PORTS STRATEGIC_WATERWAYS c)
    as (c' & Hc' & _ & ->); [by left|].
  apply list_elem_of_singleton in Hc'. by subst.
Qed.

Definition entryA : CascadeAffectedNode :=
  {| node := countryNode a;
     impactLevel := High;
     pathLength := 1;
     dependencyChain := [cableId; "country:" +:+ a];
     redundancyAvailable := false;
     estimatedRecovery := Some "High - limited redundancy" |}.

Definition entryB : CascadeAffectedNode :=
  {| node := countryNode b;
     impactLevel := Low;
     pathLength := 1;
     dependencyChain := [cableId; "country:" +:+ b];
     redundancyAvailable := true;
     estimatedRecovery := Some "Medium - redundancy available" |}.

Lemma scenario_loop :
  affected (cascadeLoop built 1 (startState cableId))
  = [("country:" +:+ a, entryA); ("country:" +:+ b, entryB)].
Proof.
  rewrite cascadeLoop_built, scenario_outgoing. cbn [foldl affected].
  rewrite (visitEdge_record _ _ _ _ _ (servesEdge cableId servedA) (countryNode a)).
  - rewrite (visitEdge_record _ _ _ _ _ (servesEdge cableId servedB) (countryNode b)).
    + cbn [affected OrderedMap.set edge_to servesEdge cs_country servedA servedB].
      by rewrite decide_False by (intros H; by apply app_inj_prefix in H).
    + cbn [visited edge_to servesEdge cs_country servedA servedB].
      rewrite elem_of_union, !elem_of_singleton. intros [H|H].
      * by apply app_inj_prefix in H.
      * revert H. eapply kind_mismatch; [apply id_kind_country|apply id_kind_cable|done].
    + apply scenario_country. by right.
    + by vm_compute.
  - cbn [visited edge_to servesEdge cs_country servedA].
    rewrite elem_of_singleton.
    eapply kind_mismatch; [apply id_kind_country|apply id_kind_cable|done].
  - apply scenario_country. by left.
  - by vm_compute.
Qed.

Lemma scenario_capacity :
  getCapacityForCountry [c] cableId a = 0.6%Q
  ∧ getCapacityForCountry [c] cableId b = 0.4%Q.
Proof.
  unfold getCapacityForCountry, Js.find.
  rewrite startsWith_app, replace_prefix.
  cbn [List.find]. rewrite String.eqb_refl. cbn [mbind option_bind].
  rewrite served. cbn [Js.opt_list List.find cs_country servedA servedB].
  rewrite !String.eqb_refl.
  rewrite (proj2 (String.eqb_neq a b)) by done.
  by vm_compute.
Qed.

Definition impactA : CascadeCountryImpact :=
  {| ci_country := a;
     countryName := Js.or_string (country_name_lookup a) a;
     ci_impactLevel := High;
     affectedCapacity := 0.6 |}.

Definition impactB : CascadeCountryImpact :=
  {| ci_country := b;
     countryName := Js.or_string (country_name_lookup b) b;
     ci_impactLevel := Low;
     affectedCapacity := 0.4 |}.

(** C1: in a dataset whose only cable [c] serves country [a] with share 0.6,
    not redundant, and country [b] with share 0.4, redundant, a full
    disruption of [c] reaches [a] along an edge of impactStrength 0.6 (high)
    and [b] along an edge of impactStrength 0.4 * (1 - 0.5) = 0.2, which is
    not above 0.2 and so is low; these are the two country impacts. *)
Theorem single_cable_scenario (st : ModuleState) :
  stateInv [c] PIPELINES PORTS STRATEGIC_WATERWAYS st →
  (impactStrength (servesEdge cableId servedA) 1 == 0.6)%Q
  ∧ categorizeImpact (impactStrength (servesEdge cableId servedA) 1) = High
  ∧ (impactStrength (servesEdge cableId servedB) 1 == 0.4 * (1 - 0.5))%Q
  ∧ (impactStrength (servesEdge cableId servedB) 1 == 0.2)%Q
  ∧ Js.gtb (impactStrength (servesEdge cableId servedB) 1) 0.2 = false
  ∧ categorizeImpact (impactStrength (servesEdge cableId servedB) 1) = Low
  ∧ ∃ r, (calculateCascade [c] PIPELINES PORTS STRATEGIC_WATERWAYS cableId 1 st).1 = Some r
         ∧ affectedNodes r = [entryA; entryB]
         ∧ countriesAffected r = [impactA; impactB].
Proof.
  intros Hinv. repeat (split; [by vm_compute|]).
  rewrite calculateCascade_on, currentGraph_built by done.
  unfold cascadeOn. rewrite scenario_source. cbn [mbind option_bind].
  eexists. split; [done|]. cbn [affectedNodes countriesAffected].
  rewrite scenario_loop. split; [done|].
  rewrite collectCountries_filter, !filter_cons_True, filter_nil by done.
  cbn [fmap list_fmap].
  rewrite !countryImpactOf_country by done.
  destruct scenario_capacity as [-> ->].
  unfold js_sort. cbn [foldr sort_insert].
  by replace (Js.gtb _ 0) with false by by vm_compute.
Qed.

End SingleCable.

(** * Scenarios *)

Module Scenario.

(** ** One cable, two served countries *)

Definition cableAB : UnderseaCable :=
  {| cable_id := "ab-link";
     cable_name := "AB Link";
     cable_points := None;
     capacityTbps := None;
     rfsYear := None;
     owners := None;
     landingPoints := None;
     countriesServed :=
       Some [ {| cs_country := "A"; capacityShare := 0.6; isRedundant := false |};
              {| cs_country := "B"; capacityShare := 0.4; isRedundant := true |} ] |}.


Lemma single_cable_scenario_witness :
  "A" ≠ "B"
  ∧ countriesServed cableAB = Some [servedA "A"; servedB "B"]
  ∧ Js.opt_list (landingPoints cableAB) = []
  ∧ stateInv [cableAB] [] [] [] initialState
  ∧ ∃ r, (calculateCascade [cableAB] [] [] [] "cable:ab-link" 1 initialState).1 = Some r
         ∧ countriesAffected r
           = [ {| ci_country := "A"; countryName := "A";
                  ci_impactLevel := High; affectedCapacity := 0.6 |};
               {| ci_country := "B"; countryName := "B";
                  ci_impactLevel := Low; affectedCapacity := 0.4 |} ].
Proof.
  assert ("A" ≠ "B") as Hne by discriminate.
  assert (stateInv [cableAB] [] [] [] initialState) as Hinv.
  { intros g Hg. vm_compute in Hg. discriminate. }
  split; [exact Hne|]. split; [reflexivity|]. split; [reflexivity|].
  split; [exact Hinv|].
  destruct (single_cable_scenario cableAB "A" "B" [] [] [] Hne eq_refl eq_refl
              initialState Hinv)
    as (_ & _ & _ & _ & _ & _ & r & Hr & _ & Hc).
  exists r. split; [exact Hr|]. rewrite Hc. reflexivity.
Defined.

(** ** The scenario thresholds in binary64

    The engine runs on IEEE doubles.  At the one place of the scenario where
    rounding could matter, the boundary 0.2, the product computed in binary64
    is the double nearest to 0.2 itself, so the exact and the rounded
    computation choose the same level. *)

Definition impactStrength64 (strength level redundancy : PrimFloat.float) : PrimFloat.float :=
  PrimFloat.mul (PrimFloat.mul strength level) (PrimFloat.sub 1%float redundancy).

#[warnings="-inexact-float"]
Example boundary_binary64 :
  PrimFloat.eqb (impactStrength64 0.4 1 0.5) 0.2 = true
  ∧ PrimFloat.ltb 0.2 (impactStrength64 0.4 1 0.5) = false
  ∧ PrimFloat.ltb 0.5 (impactStrength64 0.6 1 0) = true
  ∧ PrimFloat.ltb 0.8 (impactStrength64 0.6 1 0) = false.
Proof. by vm_compute. Qed.

(** ** A small dataset with two cables, a pipeline, a port and a chokepoint *)

Definition cableNorth : UnderseaCable :=
  {| cable_id := "north";
     cable_name := "North Link";
     cable_points := Some [(1, 2); (3, 4)]%Q;
     capacityTbps := Some 160%Q;
     rfsYear := Some 2020%Z;
     owners := Some ["Carrier"];
     landingPoints := Some [ {| lp_country := "GB"; lp_name := "Bude" |} ];
     countriesServed :=
       Some [ {| cs_country := "US"; capacityShare := 0.9; isRedundant := false |};
              {| cs_country := "B"; capacityShare := 0.5; isRedundant := false |} ] |}.

Definition pipelineWest : Pipeline :=
  {| pipeline_id := "west";
     pipeline_name := "West Line";
     pipeline_type := "oil";
     pipeline_status := "operating";
     pipeline_capacity := None;
     pipeline_operator := None;
     pipeline_countries := Some ["USA"; "Canada"; "MX"];
     pipeline_points := None |}.

Definition portRotterdam : Port :=
  {| port_id := "rotterdam"; port_name := "Rotterdam"; port_country := "NL";
     port_type := "container"; port_rank := Some 1%Z; port_lon := 4; port_lat := 52 |}.

Definition hormuz : Waterway :=
  {| waterway_id := "hormuz"; waterway_name := "Strait of Hormuz";
     waterway_lon := 56; waterway_lat := 26; waterway_description := "chokepoint" |}.

Definition cables := [cableAB; cableNorth].
Definition pipelines := [pipelineWest].
Definition ports := [portRotterdam].
Definition waterways := [hormuz].

Example graph_stats :
  (getGraphStats cables pipelines ports waterways initialState).1
  = {| stat_nodes := 11; stat_edges := 8; stat_cables := 2;
       stat_pipelines := 1; stat_countries := 6 |}.
Proof. by vm_compute. Qed.

Example north_cascade :
  option_map countriesAffected
    (calculateCascade cables pipelines ports waterways "cable:north" 1 initialState).1
  = Some [ {| ci_country := "US"; countryName := "United States";
              ci_impactLevel := Critical; affectedCapacity := 0.9 |};
           {| ci_country := "B"; countryName := "B";
              ci_impactLevel := Medium; affectedCapacity := 0.5 |};
           {| ci_country := "GB"; countryName := "United Kingdom";
              ci_impactLevel := Low; affectedCapacity := 0 |} ].
Proof. by vm_compute. Qed.

Example north_redundancies :
  findRedundancies cables "cable:north"
  = [ {| alt_id := "ab-link"; alt_name := "AB Link"; alt_capacityShare := (0 + 0.4) / 1 |} ].
Proof. by vm_compute. Qed.

Example port_redundancies : findRedundancies cables "port:rotterdam" = [].
Proof. reflexivity. Qed.

Example unknown_cable :
  (calculateCascade cables pipelines ports waterways
     "cable:does-not-exist" 1 initialState).1 = None.
Proof. by vm_compute. Qed.

Example zero_disruption :
  option_map affectedNodes
    (calculateCascade cables pipelines ports waterways "cable:north" 0 initialState).1
  = Some [].
Proof. by vm_compute. Qed.

Example half_disruption :
  option_map (fmap impactLevel ∘ affectedNodes)
    (calculateCascade cables pipelines ports waterways "cable:north" 0.5 initialState).1
  = Some [Medium; Medium; Low].
Proof. by vm_compute. Qed.

Example pipeline_cascade :
  option_map countriesAffected
    (calculateCascade cables pipelines ports waterways "pipeline:west" 1 initialState).1
  = Some [ {| ci_country := "US"; countryName := "United States";
              ci_impactLevel := Low; affectedCapacity := 0.1 |};
           {| ci_country := "CA"; countryName := "Canada";
              ci_impactLevel := Low; affectedCapacity := 0.1 |};
           {| ci_country := "MX"; countryName := "Mexico";
              ci_impactLevel := Low; affectedCapacity := 0.1 |} ].
Proof. by vm_compute. Qed.

(** ** The propagation loop on a chain of six nodes

    The builder never produces such a graph; the loop itself goes three
    hops deep and no further. *)

Definition chainNode (k : string) : InfrastructureNode :=
  {| node_id := k; node_type := NPort; node_name := k;
     node_coordinates := None; node_metadata := ChokepointMeta "" |}.

Definition chainEdge (a b : string) : DependencyEdge :=
  {| edge_from := a; edge_to := b; edge_type := Serves;
     strength := 1; redundancy := 0; edge_metadata := None |}.

Definition chainGraph : DependencyGraph :=
  foldl addEdge
    (foldl (fun g k => nodes_set k (chainNode k) g) empty_graph
           ["n0"; "n1"; "n2"; "n3"; "n4"; "n5"])
    [chainEdge "n0" "n1"; chainEdge "n1" "n2"; chainEdge "n2" "n3";
     chainEdge "n3" "n4"; chainEdge "n4" "n5"; chainEdge "n0" "n3"].

Example chain_cascade :
  (fun an => (node_id (node an), pathLength an, dependencyChain an))
    <$> OrderedMap.values (affected (cascadeLoop chainGraph 1 (startState "n0")))
  = [ ("n1", 1, ["n0"; "n1"]);
      ("n3", 1, ["n0"; "n3"]);
      ("n2", 2, ["n0"; "n1"; "n2"]);
      ("n4", 2, ["n0"; "n3"; "n4"]);
      ("n5", 3, ["n0"; "n3"; "n4"; "n5"]) ].
Proof. by vm_compute. Qed.

Example chain_cascade_from_n1 :
  (fun an => (node_id (node an), pathLength an))
    <$> OrderedMap.values (affected (cascadeLoop chainGraph 1 (startState "n1")))
  = [ ("n2", 1); ("n3", 2); ("n4", 3) ].
Proof. by vm_compute. Qed.

(** ** Instances of the general statements on this dataset *)

Lemma initial_inv : stateInv cables pipelines ports waterways initialState.
Proof. intros g Hg. vm_compute in Hg. discriminate. Defined.

Lemma depth_bound_witness :
  nodes (currentGraph cables pipelines ports waterways initialState) !! "pipeline:west"
  = Some (pipelineNode pipelineWest)
  ∧ ∃ r, (calculateCascade cables pipelines ports waterways
            "pipeline:west" 1 initialState).1 = Some r
         ∧ Forall (fun an => pathLength an ≤ 3) (affectedNodes r).
Proof.
  assert (nodes (currentGraph cables pipelines ports waterways initialState)
            !! "pipeline:west" = Some (pipelineNode pipelineWest)) as Hsrc
    by (vm_compute; reflexivity).
  split; [exact Hsrc|].
  exact (proj2 (depth_bound cables pipelines ports waterways initialState
                  "pipeline:west" 1 (pipelineNode pipelineWest) Hsrc)).
Defined.

Lemma build_cached_witness :
  stateInv cables pipelines ports waterways initialState
  ∧ let '(g1, s1) := buildDependencyGraph cables pipelines ports waterways initialState in
    let '(g2, s2) := buildDependencyGraph cables pipelines ports waterways s1 in
    let '(g3, s3) :=
      buildDependencyGraph cables pipelines ports waterways (clearGraphCache s2) in
    g2 = g1 ∧ s2 = s1
    ∧ object_id g3 ≠ object_id g1
    ∧ graph_of g3 = constructGraph cables pipelines ports waterways
    ∧ size (nodes (graph_of g3)) = size (nodes (graph_of g1))
    ∧ length (edges (graph_of g3)) = length (edges (graph_of g1)).
Proof.
  split; [exact initial_inv|].
  exact (build_cached cables pipelines ports waterways initialState initial_inv).
Defined.



Lemma single_hop_witness :
  ∃ r, (calculateCascade cables pipelines ports waterways
          "cable:north" 1 initialState).1 = Some r
       ∧ Forall (fun an => node_type (node an) = NCountry
                           ∧ pathLength an = 1
                           ∧ length (dependencyChain an) = 2)
                (affectedNodes r).
Proof.
  destruct (calculateCascade cables pipelines ports waterways
              "cable:north" 1 initialState).1 as [r|] eqn:Hr.
  - exists r. split; [reflexivity|].
    exact (proj2 (proj2 (single_hop cables pipelines ports waterways initialState
                           "cable:north" 1 r initial_inv Hr))).
  - vm_compute in Hr. discriminate.
Defined.

Lemma country_aggregation_witness :
  ∃ r, (calculateCascade cables pipelines ports waterways
          "cable:north" 1 initialState).1 = Some r
       ∧ StronglySorted impactOrder (countriesAffected r).
Proof.
  destruct (calculateCascade cables pipelines ports waterways
              "cable:north" 1 initialState).1 as [r|] eqn:Hr.
  - exists r. split; [reflexivity|].
    exact (proj2 (proj2 (proj2
             (country_aggregation cables pipelines ports waterways initialState
                "cable:north" 1 r initial_inv Hr)))).
  - vm_compute in Hr. discriminate.
Defined.

End Scenario.

(** * Further properties of the graph builder *)

(** Any property of graphs that holds of the empty graph and is kept by
    [graph.nodes.set] and by [addEdge] holds of the built graph. *)
Section BuilderInduction.

Variable UNDERSEA_CABLES : list UnderseaCable.
Variable PIPELINES : list Pipeline.
Variable PORTS : list Port.
Variable STRATEGIC_WATERWAYS : list Waterway.

Variable I : DependencyGraph → Prop.
Hypothesis I_empty : I empty_graph.
Hypothesis I_nodes_set : ∀ key n graph, I graph → I (nodes_set key n graph).
Hypothesis I_addEdge : ∀ graph e, I graph → I (addEdge graph e).

Lemma foldl_invariant {A} (step : DependencyGraph → A → DependencyGraph) (l : list A) :
  (∀ g x, I g → I (step g x)) → ∀ g, I g → I (foldl step g l).
Proof.
  intros Hstep. induction l as [|x l IH]; intros g Hg; simpl; [done|].
  by apply IH, Hstep.
Qed.

Lemma constructGraph_invariant :
  I (constructGraph UNDERSEA_CABLES PIPELINES PORTS STRATEGIC_WATERWAYS).
Proof.
  unfold constructGraph, buildPipelineCountryEdges, buildCableCountryEdges,
    addCountriesAsNodes, addChokepointsAsNodes, addPortsAsNodes,
    addPipelinesAsNodes, addCablesAsNodes.
  apply foldl_invariant.
  { intros g p Hg. unfold pipelineEdges. apply foldl_invariant; [|done].
    intros g' c Hg'. destruct (nodes g' !! _); auto. }
  apply foldl_invariant.
  { intros g c Hg. unfold cableEdges. repeat (apply foldl_invariant; auto). }
  repeat (apply foldl_invariant; auto).
Qed.

End BuilderInduction.

(** No bucket of an index is empty: a key is present exactly when an edge
    carries it. *)
Definition buckets_nonempty (graph : DependencyGraph) : Prop :=
  (∀ k l, outgoing graph !! k = Some l → l ≠ [])
  ∧ (∀ k l, incoming graph !! k = Some l → l ≠ []).

Lemma index_push_nonempty key e index k l :
  (∀ k l, index !! k = Some l → l ≠ []) →
  index_push (key e) e index !! k = Some l → l ≠ [].
Proof.
  intros Hi. unfold index_push. destruct (decide (key e = k)) as [<-|Hne].
  - rewrite lookup_insert_eq. intros [= <-]. by destruct (default [] _).
  - rewrite lookup_insert_ne by done. apply Hi.
Qed.

Lemma buckets_nonempty_addEdge graph e :
  buckets_nonempty graph → buckets_nonempty (addEdge graph e).
Proof.
  intros [Ho Hi]. split; intros k l; simpl.
  - by apply (index_push_nonempty edge_from).
  - by apply (index_push_nonempty edge_to).
Qed.

Section BuilderProperties.

Variable UNDERSEA_CABLES : list UnderseaCable.
Variable PIPELINES : list Pipeline.
Variable PORTS : list Port.
Variable STRATEGIC_WATERWAYS : list Waterway.

Abbreviation built := (constructGraph UNDERSEA_CABLES PIPELINES PORTS STRATEGIC_WATERWAYS).

(** X1: in the built graph the [outgoing] and [incoming] indexes hold, for
    every key, exactly the edges leaving and entering it, in the order of
    [edges]; a key is present in an index exactly when such an edge exists. *)
Theorem built_indexes_consistent (k : string) :
  let graph := constructGraph UNDERSEA_CABLES PIPELINES PORTS STRATEGIC_WATERWAYS in
  default [] (outgoing graph !! k) = filter (fun e => edge_from e = k) (edges graph)
  ∧ default [] (incoming graph !! k) = filter (fun e => edge_to e = k) (edges graph)
  ∧ (is_Some (outgoing graph !! k) ↔ ∃ e, e ∈ edges graph ∧ edge_from e = k)
  ∧ (is_Some (incoming graph !! k) ↔ ∃ e, e ∈ edges graph ∧ edge_to e = k).
Proof.
  intros graph.
  assert (indexed graph) as Hidx.
  { apply constructGraph_invariant;
      auto using indexed_empty, indexed_nodes_set, indexed_addEdge. }
  assert (buckets_nonempty graph) as [Hout Hin].
  { apply constructGraph_invariant; auto using buckets_nonempty_addEdge.
    split; intros k' l; simpl; by rewrite lookup_empty. }
  destruct (Hidx k) as [Ho Hi]. split; [done|]. split; [done|].
  split; split.
  - intros [l Hl]. specialize (Hout k l Hl). rewrite Hl in Ho. simpl in Ho.
    destruct l as [|e l]; [done|]. exists e.
    assert (e ∈ filter (fun e => edge_from e = k) (edges graph)) as He
      by (rewrite <- Ho; by left).
    apply list_elem_of_filter in He as [? ?]. done.
  - intros (e & He & Hk).
    destruct (outgoing graph !! k) as [l|] eqn:Hl; [done|]. simpl in Ho.
    assert (e ∈ filter (fun e => edge_from e = k) (edges graph)) as Hf
      by by apply list_elem_of_filter.
    rewrite <- Ho in Hf. by apply elem_of_nil in Hf.
  - intros [l Hl]. specialize (Hin k l Hl). rewrite Hl in Hi. simpl in Hi.
    destruct l as [|e l]; [done|]. exists e.
    assert (e ∈ filter (fun e => edge_to e = k) (edges graph)) as He
      by (rewrite <- Hi; by left).
    apply list_elem_of_filter in He as [? ?]. done.
  - intros (e & He & Hk).
    destruct (incoming graph !! k) as [l|] eqn:Hl; [done|]. simpl in Hi.
    assert (e ∈ filter (fun e => edge_to e = k) (edges graph)) as Hf
      by by apply list_elem_of_filter.
    rewrite <- Hi in Hf. by apply elem_of_nil in Hf.
Qed.

Lemma built_nodes_key_kind (k : string) (n : InfrastructureNode) :
  nodes (constructGraph UNDERSEA_CABLES PIPELINES PORTS STRATEGIC_WATERWAYS) !! k = Some n →
  node_id n = k ∧ id_kind k = Some (node_type n).
Proof.
  intros H. apply built_nodes in H.
  split; [by eapply built_node_id|by eapply built_node_kind].
Qed.

(** X2: the node map is keyed by node id, and the prefix of the id tells
    the type of the node stored under it. *)
Theorem built_nodes_keyed (k : string) (n : InfrastructureNode) :
  nodes (constructGraph UNDERSEA_CABLES PIPELINES PORTS STRATEGIC_WATERWAYS) !! k = Some n →
  node_id n = k ∧ id_kind k = Some (node_type n).
Proof. exact (built_nodes_key_kind k n). Qed.

(** *** Raw-id lookup accessors *)

Definition getCableById (id : string) : option UnderseaCable :=
  Js.find (fun c => String.eqb (cable_id c) id) UNDERSEA_CABLES.

Definition getPipelineById (id : string) : option Pipeline :=
  Js.find (fun p => String.eqb (pipeline_id p) id) PIPELINES.

Definition getPortById (id : string) : option Port :=
  Js.find (fun p => String.eqb (port_id p) id) PORTS.

Lemma nodeStage_port p :
  p ∈ PORTS →
  ∃ p', p' ∈ PORTS ∧ port_id p' = port_id p
        ∧ nodes (nodeStage UNDERSEA_CABLES PIPELINES PORTS STRATEGIC_WATERWAYS)
            !! ("port:" +:+ port_id p) = Some (portNode p').
Proof.
  intros Hp. unfold nodeStage, addCountriesAsNodes, addChokepointsAsNodes.
  rewrite !addAll_lookup_ne.
  - unfold addPortsAsNodes.
    destruct (addAll_lookup_in (fun p => "port:" +:+ port_id p) portNode
                (addPipelinesAsNodes PIPELINES (addCablesAsNodes UNDERSEA_CABLES empty_graph))
                _ p Hp) as (p' & Hp' & Heq & Hl).
    apply app_inj_prefix in Heq. by exists p'.
  - intros x _. eapply kind_mismatch;
      [apply id_kind_chokepoint|apply id_kind_port|done].
  - intros x _. eapply kind_mismatch;
      [apply id_kind_country|apply id_kind_port|done].
Qed.

Lemma find_eqb_is_Some {A} (key : A → string) (l : list A) id :
  is_Some (List.find (fun x => String.eqb (key x) id) l) ↔ ∃ x, x ∈ l ∧ key x = id.
Proof.
  split.
  - intros [x Hx]. apply find_some in Hx as [Hin Heq].
    exists x. split; [by apply list_elem_of_In|by apply String.eqb_eq].
  - intros (x & Hin & Heq).
    destruct (find_is_Some (fun x => String.eqb (key x) id) l x Hin) as (y & -> & _);
      [by apply String.eqb_eq|done].
Qed.

Lemma find_eqb_NoDup {A} (key : A → string) (l : list A) x :
  NoDup (key <$> l) → x ∈ l →
  List.find (fun y => String.eqb (key y) (key x)) l = Some x.
Proof.
  induction l as [|y l IH]; intros Hnd Hx; [by apply elem_of_nil in Hx|].
  rewrite fmap_cons in Hnd. apply NoDup_cons in Hnd as [Hy Hnd]. simpl.
  destruct (String.eqb_spec (key y) (key x)) as [Heq|Hne].
  - apply elem_of_cons in Hx as [->|Hx]; [done|].
    destruct Hy. rewrite Heq. apply list_elem_of_fmap. by exists x.
  - apply elem_of_cons in Hx as [->|Hx]; [done|]. by apply IH.
Qed.

Lemma built_node_cable_inv id n :
  built_node UNDERSEA_CABLES PIPELINES PORTS STRATEGIC_WATERWAYS ("cable:" +:+ id) n →
  ∃ c, c ∈ UNDERSEA_CABLES ∧ cable_id c = id ∧ n = cableNode c.
Proof.
  intros H. remember ("cable:" +:+ id) as k eqn:Hk.
  destruct H as [c Hc|p Hp|p Hp|w Hw|code Hcode].
  - apply app_inj_prefix in Hk. by exists c.
  - exfalso. revert Hk. eapply kind_mismatch;
      [apply id_kind_pipeline|apply id_kind_cable|done].
  - exfalso. revert Hk. eapply kind_mismatch;
      [apply id_kind_port|apply id_kind_cable|done].
  - exfalso. revert Hk. eapply kind_mismatch;
      [apply id_kind_chokepoint|apply id_kind_cable|done].
  - exfalso. revert Hk. eapply kind_mismatch;
      [apply id_kind_country|apply id_kind_cable|done].
Qed.

Lemma built_node_pipeline_inv id n :
  built_node UNDERSEA_CABLES PIPELINES PORTS STRATEGIC_WATERWAYS ("pipeline:" +:+ id) n →
  ∃ p, p ∈ PIPELINES ∧ pipeline_id p = id ∧ n = pipelineNode p.
Proof.
  intros H. remember ("pipeline:" +:+ id) as k eqn:Hk.
  destruct H as [c Hc|p Hp|p Hp|w Hw|code Hcode].
  - exfalso. revert Hk. eapply kind_mismatch;
      [apply id_kind_cable|apply id_kind_pipeline|done].
  - apply app_inj_prefix in Hk. by exists p.
  - exfalso. revert Hk. eapply kind_mismatch;
      [apply id_kind_port|apply id_kind_pipeline|done].
  - exfalso. revert Hk. eapply kind_mismatch;
      [apply id_kind_chokepoint|apply id_kind_pipeline|done].
  - exfalso. revert Hk. eapply kind_mismatch;
      [apply id_kind_country|apply id_kind_pipeline|done].
Qed.

Lemma built_node_port_inv id n :
  built_node UNDERSEA_CABLES PIPELINES PORTS STRATEGIC_WATERWAYS ("port:" +:+ id) n →
  ∃ p, p ∈ PORTS ∧ port_id p = id ∧ n = portNode p.
Proof.
  intros H. remember ("port:" +:+ id) as k eqn:Hk.
  destruct H as [c Hc|p Hp|p Hp|w Hw|code Hcode].
  - exfalso. revert Hk. eapply kind_mismatch;
      [apply id_kind_cable|apply id_kind_port|done].
  - exfalso. revert Hk. eapply kind_mismatch;
      [apply id_kind_pipeline|apply id_kind_port|done].
  - apply app_inj_prefix in Hk. by exists p.
  - exfalso. revert Hk. eapply kind_mismatch;
      [apply id_kind_chokepoint|apply id_kind_port|done].
  - exfalso. revert Hk. eapply kind_mismatch;
      [apply id_kind_country|apply id_kind_port|done].
Qed.

(** X3: a raw id resolves through [getCableById], [getPipelineById] or
    [getPortById] exactly when the graph has the node with the prefixed id;
    the node then carries the name of a record with that id. *)
Theorem accessors_agree_with_graph (id : string) :
  let graph := constructGraph UNDERSEA_CABLES PIPELINES PORTS STRATEGIC_WATERWAYS in
  (is_Some (getCableById id) ↔ is_Some (nodes graph !! ("cable:" +:+ id)))
  ∧ (is_Some (getPipelineById id) ↔ is_Some (nodes graph !! ("pipeline:" +:+ id)))
  ∧ (is_Some (getPortById id) ↔ is_Some (nodes graph !! ("port:" +:+ id)))
  ∧ (∀ n, nodes graph !! ("cable:" +:+ id) = Some n →
          ∃ c, c ∈ UNDERSEA_CABLES ∧ cable_id c = id ∧ n = cableNode c)
  ∧ (∀ n, nodes graph !! ("pipeline:" +:+ id) = Some n →
          ∃ p, p ∈ PIPELINES ∧ pipeline_id p = id ∧ n = pipelineNode p)
  ∧ (∀ n, nodes graph !! ("port:" +:+ id) = Some n →
          ∃ p, p ∈ PORTS ∧ port_id p = id ∧ n = portNode p).
Proof.
  intros graph. unfold graph, getCableById, getPipelineById, getPortById, Js.find.
  destruct (constructGraph_spec UNDERSEA_CABLES PIPELINES PORTS STRATEGIC_WATERWAYS)
    as (Hn & _).
  rewrite !find_eqb_is_Some.
  split; [|split; [|split; [|split; [|split]]]].
  - split.
    + intros (c & Hc & <-). rewrite Hn.
      destruct (nodeStage_cable _ PIPELINES PORTS STRATEGIC_WATERWAYS c Hc)
        as (c' & _ & _ & ->). done.
    + intros [n H]. apply built_nodes, built_node_cable_inv in H as (c & ? & ? & _).
      by exists c.
  - split.
    + intros (p & Hp & <-). rewrite Hn.
      destruct (nodeStage_pipeline UNDERSEA_CABLES _ PORTS STRATEGIC_WATERWAYS p Hp)
        as (p' & _ & _ & ->). done.
    + intros [n H]. apply built_nodes, built_node_pipeline_inv in H as (p & ? & ? & _).
      by exists p.
  - split.
    + intros (p & Hp & <-). rewrite Hn.
      destruct (nodeStage_port p Hp) as (p' & _ & _ & ->). done.
    + intros [n H]. apply built_nodes, built_node_port_inv in H as (p & ? & ? & _).
      by exists p.
  - intros n H. by apply built_nodes, built_node_cable_inv in H.
  - intros n H. by apply built_nodes, built_node_pipeline_inv in H.
  - intros n H. by apply built_nodes, built_node_port_inv in H.
Qed.

(** X4: when cable ids are unique, the cable node of the graph is built from
    the very record [getCableById] returns. *)
Theorem cable_node_of_accessor (id : string) (c : UnderseaCable) :
  NoDup (cable_id <$> UNDERSEA_CABLES) →
  getCableById id = Some c →
  nodes (constructGraph UNDERSEA_CABLES PIPELINES PORTS STRATEGIC_WATERWAYS)
    !! ("cable:" +:+ id) = Some (cableNode c).
Proof.
  intros Hnd Hc. unfold getCableById, Js.find in Hc.
  pose proof Hc as Hfind.
  apply find_some in Hc as [Hin Heq]. apply String.eqb_eq in Heq. subst id.
  apply list_elem_of_In in Hin.
  destruct (constructGraph_spec UNDERSEA_CABLES PIPELINES PORTS STRATEGIC_WATERWAYS)
    as (-> & _).
  destruct (nodeStage_cable _ PIPELINES PORTS STRATEGIC_WATERWAYS c Hin)
    as (c' & Hc' & Hid & ->).
  pose proof (find_eqb_NoDup cable_id UNDERSEA_CABLES c' Hnd Hc') as H'.
  rewrite Hid, Hfind in H'. by injection H' as ->.
Qed.

End BuilderProperties.

(** *** What [getGraphStats] counts *)

Lemma size_set_map_inj (f : string → string) `{!Inj (=) (=) f} (X : gset string) :
  size (set_map f X : gset string) = size X.
Proof.
  unfold set_map. rewrite size_list_to_set.
  - by rewrite length_fmap.
  - apply NoDup_fmap_2; [done|apply NoDup_elements].
Qed.

#[global] Instance prefix_inj p : Inj (=) (=) (String.append p).
Proof. intros s1 s2. apply app_inj_prefix. Qed.

(** The node ids [prefix ++ id] of a list of raw ids. *)
Definition keysOf (prefix : string) (ids : list string) : gset string :=
  set_map (String.append prefix) (list_to_set ids : gset string).

Lemma elem_of_keysOf prefix ids i :
  i ∈ keysOf prefix ids ↔ ∃ id, i = prefix +:+ id ∧ id ∈ ids.
Proof.
  unfold keysOf. rewrite elem_of_map. by setoid_rewrite elem_of_list_to_set.
Qed.

Lemma size_keysOf prefix ids :
  size (keysOf prefix ids) = size (list_to_set ids : gset string).
Proof. apply size_set_map_inj, _. Qed.

Lemma keys_disjoint (X Y : gset string) t1 t2 :
  (∀ i, i ∈ X → id_kind i = Some t1) → (∀ i, i ∈ Y → id_kind i = Some t2) →
  t1 ≠ t2 → X ## Y.
Proof.
  intros HX HY Hne i Hi1 Hi2. apply HX in Hi1. apply HY in Hi2. congruence.
Qed.

Lemma length_bind {A B} (f : A → list B) (l : list A) :
  length (l ≫= f) = sum_list_with (fun x => length (f x)) l.
Proof.
  induction l as [|x l IH]; [done|].
  cbn [mbind list_bind sum_list_with]. rewrite length_app. f_equal. exact IH.
Qed.

Lemma sum_list_with_ext {A} (f g : A → nat) (l : list A) :
  (∀ x, f x = g x) → sum_list_with f l = sum_list_with g l.
Proof. intros H. induction l as [|x l IH]; simpl; [done|]. by rewrite H, IH. Qed.

Section GraphStats.

Variable UNDERSEA_CABLES : list UnderseaCable.
Variable PIPELINES : list Pipeline.
Variable PORTS : list Port.
Variable STRATEGIC_WATERWAYS : list Waterway.

Abbreviation built := (constructGraph UNDERSEA_CABLES PIPELINES PORTS STRATEGIC_WATERWAYS).
Abbreviation stage := (nodeStage UNDERSEA_CABLES PIPELINES PORTS STRATEGIC_WATERWAYS).
Abbreviation isBuilt := (built_node UNDERSEA_CABLES PIPELINES PORTS STRATEGIC_WATERWAYS).

Definition cableKeys : gset string := keysOf "cable:" (cable_id <$> UNDERSEA_CABLES).
Definition pipelineKeys : gset string := keysOf "pipeline:" (pipeline_id <$> PIPELINES).
Definition portKeys : gset string := keysOf "port:" (port_id <$> PORTS).
Definition chokepointKeys : gset string :=
  keysOf "chokepoint:" (waterway_id <$> STRATEGIC_WATERWAYS).
Definition countryKeys : gset string :=
  set_map (String.append "country:") (referencedCountries UNDERSEA_CABLES PIPELINES).

Lemma nodeStage_chokepoint w :
  w ∈ STRATEGIC_WATERWAYS →
  ∃ w', w' ∈ STRATEGIC_WATERWAYS ∧ waterway_id w' = waterway_id w
        ∧ nodes stage !! ("chokepoint:" +:+ waterway_id w) = Some (chokepointNode w').
Proof.
  intros Hw. unfold nodeStage, addCountriesAsNodes.
  rewrite !addAll_lookup_ne.
  - unfold addChokepointsAsNodes.
    destruct (addAll_lookup_in (fun w => "chokepoint:" +:+ waterway_id w) chokepointNode
                (addPortsAsNodes PORTS
                   (addPipelinesAsNodes PIPELINES
                      (addCablesAsNodes UNDERSEA_CABLES empty_graph)))
                _ w Hw) as (w' & Hw' & Heq & Hl).
    apply app_inj_prefix in Heq. by exists w'.
  - intros x _. eapply kind_mismatch;
      [apply id_kind_country|apply id_kind_chokepoint|done].
Qed.

(** The keys of each kind are the keys of the nodes of that type. *)
Lemma keys_by_type i :
  (i ∈ cableKeys ↔ ∃ n, nodes stage !! i = Some n ∧ node_type n = NCable)
  ∧ (i ∈ pipelineKeys ↔ ∃ n, nodes stage !! i = Some n ∧ node_type n = NPipeline)
  ∧ (i ∈ portKeys ↔ ∃ n, nodes stage !! i = Some n ∧ node_type n = NPort)
  ∧ (i ∈ chokepointKeys ↔ ∃ n, nodes stage !! i = Some n ∧ node_type n = NChokepoint)
  ∧ (i ∈ countryKeys ↔ ∃ n, nodes stage !! i = Some n ∧ node_type n = NCountry).
Proof.
  unfold cableKeys, pipelineKeys, portKeys, chokepointKeys, countryKeys.
  rewrite !elem_of_keysOf, elem_of_map.
  split; [|split; [|split; [|split]]]; split.
  - intros (id & -> & Hid). apply list_elem_of_fmap in Hid as (c & -> & Hc).
    destruct (nodeStage_cable _ PIPELINES PORTS STRATEGIC_WATERWAYS c Hc)
      as (c' & _ & _ & ->). by eexists.
  - intros (n & Hn & Hty). apply nodeStage_built in Hn.
    destruct Hn as [c Hc| | | |]; try discriminate.
    exists (cable_id c). split; [done|]. apply list_elem_of_fmap. by exists c.
  - intros (id & -> & Hid). apply list_elem_of_fmap in Hid as (p & -> & Hp).
    destruct (nodeStage_pipeline UNDERSEA_CABLES _ PORTS STRATEGIC_WATERWAYS p Hp)
      as (p' & _ & _ & ->). by eexists.
  - intros (n & Hn & Hty). apply nodeStage_built in Hn.
    destruct Hn as [|p Hp| | |]; try discriminate.
    exists (pipeline_id p). split; [done|]. apply list_elem_of_fmap. by exists p.
  - intros (id & -> & Hid). apply list_elem_of_fmap in Hid as (p & -> & Hp).
    destruct (nodeStage_port UNDERSEA_CABLES PIPELINES _ STRATEGIC_WATERWAYS p Hp)
      as (p' & _ & _ & ->). by eexists.
  - intros (n & Hn & Hty). apply nodeStage_built in Hn.
    destruct Hn as [| |p Hp| |]; try discriminate.
    exists (port_id p). split; [done|]. apply list_elem_of_fmap. by exists p.
  - intros (id & -> & Hid). apply list_elem_of_fmap in Hid as (w & -> & Hw).
    destruct (nodeStage_chokepoint w Hw) as (w' & _ & _ & ->). by eexists.
  - intros (n & Hn & Hty). apply nodeStage_built in Hn.
    destruct Hn as [| | |w Hw|]; try discriminate.
    exists (waterway_id w). split; [done|]. apply list_elem_of_fmap. by exists w.
  - intros (code & -> & Hcode). rewrite nodeStage_country by done. by eexists.
  - intros (n & Hn & Hty). apply nodeStage_built in Hn.
    destruct Hn as [| | | |code Hcode]; try discriminate.
    by exists code.
Qed.

Lemma count_type_size t (X : gset string) :
  (∀ i, i ∈ X ↔ ∃ n, nodes stage !! i = Some n ∧ node_type n = t) →
  count_type t stage = size X.
Proof.
  intros HX. unfold count_type. rewrite <- size_dom.
  f_equal. apply dom_filter_L. intros i. by rewrite HX.
Qed.

Lemma stage_dom :
  dom (nodes stage)
  = cableKeys ∪ pipelineKeys ∪ portKeys ∪ chokepointKeys ∪ countryKeys.
Proof.
  apply set_eq. intros i. rewrite !elem_of_union, elem_of_dom.
  destruct (keys_by_type i) as (Hc & Hp & Hport & Hw & Hcountry).
  rewrite Hc, Hp, Hport, Hw, Hcountry. split.
  - intros [n Hn]. destruct (node_type n) eqn:Hty; eauto 10.
  - intros [[[[(n & Hn & _)|(n & Hn & _)]|(n & Hn & _)]|(n & Hn & _)]|(n & Hn & _)];
      by exists n.
Qed.

Lemma keys_kind i :
  (i ∈ cableKeys → id_kind i = Some NCable)
  ∧ (i ∈ pipelineKeys → id_kind i = Some NPipeline)
  ∧ (i ∈ portKeys → id_kind i = Some NPort)
  ∧ (i ∈ chokepointKeys → id_kind i = Some NChokepoint)
  ∧ (i ∈ countryKeys → id_kind i = Some NCountry).
Proof.
  destruct (keys_by_type i) as (Hc & Hp & Hport & Hw & Hcountry).
  rewrite Hc, Hp, Hport, Hw, Hcountry.
  repeat split; intros (n & Hn & <-); by apply nodeStage_built, built_node_kind in Hn.
Qed.

(** The number of distinct raw ids of a dataset. *)
Definition distinct (ids : list string) : nat := size (list_to_set ids : gset string).

(** X5: [getGraphStats] reports one cable or pipeline node per distinct id,
    one country node per distinct referenced (normalized) country code, one
    edge per served-country entry, landing point and pipeline country entry,
    and as node total the sum over the five kinds. *)
Theorem graph_stats_meaning (st : ModuleState) :
  stateInv UNDERSEA_CABLES PIPELINES PORTS STRATEGIC_WATERWAYS st →
  let stats := (getGraphStats UNDERSEA_CABLES PIPELINES PORTS STRATEGIC_WATERWAYS st).1 in
  stat_cables stats = distinct (cable_id <$> UNDERSEA_CABLES)
  ∧ stat_pipelines stats = distinct (pipeline_id <$> PIPELINES)
  ∧ stat_countries stats = size (referencedCountries UNDERSEA_CABLES PIPELINES)
  ∧ stat_nodes stats
    = distinct (cable_id <$> UNDERSEA_CABLES) + distinct (pipeline_id <$> PIPELINES)
      + distinct (port_id <$> PORTS) + distinct (waterway_id <$> STRATEGIC_WATERWAYS)
      + size (referencedCountries UNDERSEA_CABLES PIPELINES)
  ∧ stat_edges stats
    = sum_list_with (fun c => length (Js.opt_list (countriesServed c))
                              + length (Js.opt_list (landingPoints c))) UNDERSEA_CABLES
      + sum_list_with (fun p => length (Js.opt_list (pipeline_countries p))) PIPELINES.
Proof.
  intros Hinv stats.
  assert (stats = statsOf built) as ->.
  { unfold stats, getGraphStats.
    pose proof (currentGraph_built _ _ _ _ st Hinv) as Hg. unfold currentGraph in Hg.
    destruct (buildDependencyGraph _ _ _ _ st) as [g st']. simpl in *. by rewrite Hg. }
  destruct (constructGraph_spec UNDERSEA_CABLES PIPELINES PORTS STRATEGIC_WATERWAYS)
    as (Hn & He & _).
  assert (∀ t, count_type t built = count_type t stage) as Hcount
    by (intros t; unfold count_type; by rewrite Hn).
  unfold statsOf. cbn [stat_cables stat_pipelines stat_countries stat_nodes stat_edges].
  rewrite !Hcount, Hn, He.
  assert (size cableKeys = distinct (cable_id <$> UNDERSEA_CABLES)) as Hc
    by apply size_keysOf.
  assert (size pipelineKeys = distinct (pipeline_id <$> PIPELINES)) as Hp
    by apply size_keysOf.
  assert (size portKeys = distinct (port_id <$> PORTS)) as Hport
    by apply size_keysOf.
  assert (size chokepointKeys = distinct (waterway_id <$> STRATEGIC_WATERWAYS)) as Hw
    by apply size_keysOf.
  assert (size countryKeys = size (referencedCountries UNDERSEA_CABLES PIPELINES)) as Hcountry
    by apply size_set_map_inj, _.
  split; [|split; [|split; [|split]]].
  - rewrite <- Hc. apply count_type_size. intros i. apply keys_by_type.
  - rewrite <- Hp. apply count_type_size. intros i. apply keys_by_type.
  - rewrite <- Hcountry. apply count_type_size. intros i. apply keys_by_type.
  - rewrite <- size_dom, stage_dom, <- Hc, <- Hp, <- Hport, <- Hw, <- Hcountry.
    rewrite !size_union; [done|..].
    + eapply keys_disjoint; [apply keys_kind|apply keys_kind|done].
    + apply disjoint_union_l; split;
        (eapply keys_disjoint; [apply keys_kind|apply keys_kind|done]).
    + apply disjoint_union_l; split; [apply disjoint_union_l; split|];
        (eapply keys_disjoint; [apply keys_kind|apply keys_kind|done]).
    + apply disjoint_union_l; split;
        [apply disjoint_union_l; split; [apply disjoint_union_l; split|]|];
        (eapply keys_disjoint; [apply keys_kind|apply keys_kind|done]).
  - unfold emittedEdges. rewrite length_app, !length_bind. f_equal.
    + apply sum_list_with_ext. intros c. unfold cableEdgeList.
      by rewrite length_app, !length_fmap.
    + apply sum_list_with_ext. intros p. unfold pipelineEdgeList.
      by rewrite length_fmap.
Qed.

End GraphStats.

(** * Further properties of the propagation loop *)

(** [b] hangs off [a]: some outgoing edge of [a] leads to [b]. *)
Definition linked (graph : DependencyGraph) (a b : string) : Prop :=
  ∃ e, e ∈ default [] (outgoing graph !! a) ∧ edge_to e = b.

(** Consecutive entries of a chain are linked. *)
Fixpoint is_path (graph : DependencyGraph) (chain : list string) : Prop :=
  match chain with
  | a :: (b :: _) as rest => linked graph a b ∧ is_path graph rest
  | _ => True
  end.

Lemma is_path_snoc graph chain a b :
  last chain = Some a → linked graph a b → is_path graph chain →
  is_path graph (chain ++ [b]).
Proof.
  induction chain as [|x chain IH]; intros Hlast Hl Hp; [done|].
  destruct chain as [|y chain].
  - simpl in *. injection Hlast as ->. done.
  - destruct Hp as [Hxy Hp]. split; [done|]. by apply IH.
Qed.

Section LoopPaths.

Variable graph : DependencyGraph.
Variable disruptionLevel : Q.
Variable sourceId : string.

(** A chain that starts at the source, follows edges and visits no node twice. *)
Definition chain_ok (chain : list string) (final : string) : Prop :=
  head chain = Some sourceId
  ∧ last chain = Some final
  ∧ is_path graph chain
  ∧ NoDup chain.

Definition pathInv (st : LoopState) : Prop :=
  sourceId ∈ visited st
  ∧ Forall (fun item => chain_ok (path item) (nodeId item)
                        ∧ length (path item) = S (depth item)
                        ∧ ∀ x, x ∈ path item → x ∈ visited st) (queue st)
  ∧ Forall (fun kv => chain_ok (dependencyChain kv.2) kv.1
                      ∧ length (dependencyChain kv.2) = S (pathLength kv.2)
                      ∧ kv.1 ∈ visited st
                      ∧ kv.1 ≠ sourceId) (affected st)
  ∧ NoDup (OrderedMap.keys (affected st)).

Lemma chain_ok_snoc chain a b (seen : gset string) :
  chain_ok chain a → linked graph a b →
  (∀ x, x ∈ chain → x ∈ seen) → b ∉ seen →
  chain_ok (chain ++ [b]) b.
Proof.
  intros (Hhead & Hlast & Hpath & Hnd) Hl Hseen Hb. repeat split.
  - destruct chain; [done|]. done.
  - apply last_snoc.
  - by eapply is_path_snoc.
  - apply NoDup_app. split; [done|]. split; [|apply NoDup_singleton].
    intros x Hx Hx'. apply list_elem_of_singleton in Hx'. subst x. by apply Hb, Hseen.
Qed.

Lemma visitEdge_pathInv item st e :
  chain_ok (path item) (nodeId item) →
  length (path item) = S (depth item) →
  e ∈ default [] (outgoing graph !! nodeId item) →
  pathInv st ∧ (∀ x, x ∈ path item → x ∈ visited st) →
  let st' := visitEdge graph disruptionLevel (depth item) (path item) st e in
  pathInv st' ∧ (∀ x, x ∈ path item → x ∈ visited st').
Proof.
  intros Hchain Hlen He [(Hsrc & Hq & Ha & Hnd) Hseen]. unfold visitEdge.
  destruct (decide (edge_to e ∈ visited st)) as [|Hfresh]; [done|].
  assert (∀ x, x ∈ visited st → x ∈ ({[edge_to e]} ∪ visited st : gset string)) as Hmono
    by (intros x Hx; apply elem_of_union; by right).
  assert (Forall (fun item => chain_ok (path item) (nodeId item)
                              ∧ length (path item) = S (depth item)
                              ∧ ∀ x, x ∈ path item →
                                     x ∈ ({[edge_to e]} ∪ visited st : gset string))
                 (queue st)) as Hq'.
  { eapply Forall_impl; [exact Hq|]. intros it (? & ? & Hv). auto. }
  assert (Forall (fun kv : string * CascadeAffectedNode =>
                    chain_ok (dependencyChain kv.2) kv.1
                    ∧ length (dependencyChain kv.2) = S (pathLength kv.2)
                    ∧ kv.1 ∈ ({[edge_to e]} ∪ visited st : gset string)
                    ∧ kv.1 ≠ sourceId) (affected st)) as Ha'.
  { eapply Forall_impl; [exact Ha|]. intros kv (? & ? & ? & ?). auto. }
  assert (pathInv {| affected := affected st;
                     visited := {[edge_to e]} ∪ visited st;
                     queue := queue st |}) as Hskip.
  { split; [by apply Hmono|]. done. }
  assert (chain_ok (path item ++ [edge_to e]) (edge_to e)) as Hnew.
  { eapply chain_ok_snoc; [exact Hchain| |exact Hseen|exact Hfresh]. by exists e. }
  assert (edge_to e ∉ OrderedMap.keys (affected st)) as Hkey.
  { intros Hin. apply list_elem_of_fmap in Hin as ([k an] & Hk & Hin). simpl in Hk.
    rewrite Forall_forall in Ha. destruct (Ha _ Hin) as (_ & _ & Hv & _).
    simpl in Hv. by subst k. }
  destruct (nodes graph !! edge_to e) as [targetNode|]; [|by split; auto].
  destruct (Js.ltb _ _); [by split; auto|].
  split; [|by auto]. split; [by apply Hmono|]. simpl. split; [|split].
  - apply Forall_app. split; [done|]. constructor; [|done]. simpl.
    split; [done|]. split; [rewrite length_app; simpl; lia|].
    intros x Hx. apply elem_of_app in Hx as [Hx|Hx]; [by auto|].
    apply list_elem_of_singleton in Hx. subst x. apply elem_of_union. left.
    by apply elem_of_singleton.
  - apply OrderedMap_set_Forall; [|done]. simpl.
    split; [done|]. split; [rewrite length_app; simpl; lia|].
    split; [apply elem_of_union; left; by apply elem_of_singleton|].
    intros Heq. apply Hfresh. by rewrite Heq.
  - rewrite OrderedMap_set_fresh by done. unfold OrderedMap.keys in *.
    rewrite fmap_app. apply NoDup_app. split; [done|]. split; [|apply NoDup_singleton].
    intros x Hx Hx'. simpl in Hx'. apply list_elem_of_singleton in Hx'. by subst x.
Qed.

Lemma expand_pathInv a v item rest :
  pathInv {| affected := a; visited := v; queue := item :: rest |} →
  pathInv (expand graph disruptionLevel item {| affected := a; visited := v; queue := rest |}).
Proof.
  intros (Hsrc & Hq & Ha & Hnd). simpl in *.
  apply Forall_cons in Hq as [(Hchain & Hlen & Hseen) Hq].
  unfold expand. destruct (Nat.leb 3 (depth item)); [done|].
  apply (expand_foldl_invariant graph disruptionLevel
           (fun st => pathInv st ∧ (∀ x, x ∈ path item → x ∈ visited st))).
  - intros st e He Hst. by apply visitEdge_pathInv.
  - done.
Qed.

Lemma cascadeLoop_pathInv :
  pathInv (cascadeLoop graph disruptionLevel (startState sourceId)).
Proof.
  apply (cascadeLoop_invariant graph disruptionLevel pathInv).
  - apply expand_pathInv.
  - unfold startState, pathInv. cbn [affected visited queue].
    split; [by apply elem_of_singleton|]. split; [|split; [done|constructor]].
    constructor; [|done]. simpl. repeat split; try done.
    + apply NoDup_singleton.
    + intros x Hx. apply list_elem_of_singleton in Hx. subst x.
      by apply elem_of_singleton.
Qed.

End LoopPaths.

Section CascadePaths.

Variable UNDERSEA_CABLES : list UnderseaCable.
Variable PIPELINES : list Pipeline.
Variable PORTS : list Port.
Variable STRATEGIC_WATERWAYS : list Waterway.

Abbreviation current := (currentGraph UNDERSEA_CABLES PIPELINES PORTS STRATEGIC_WATERWAYS).

(** X6: the dependency chain of every affected node starts at the source,
    ends at the key the node is stored under, follows outgoing edges of the
    graph, visits no node twice and has pathLength + 1 entries. *)
Theorem dependency_chains_are_paths st sourceId disruptionLevel r :
  (calculateCascade UNDERSEA_CABLES PIPELINES PORTS STRATEGIC_WATERWAYS
     sourceId disruptionLevel st).1 = Some r →
  Forall (fun an =>
            head (dependencyChain an) = Some sourceId
            ∧ (∃ k, last (dependencyChain an) = Some k
                    ∧ nodes (currentGraph UNDERSEA_CABLES PIPELINES PORTS
                               STRATEGIC_WATERWAYS st) !! k = Some (node an))
            ∧ is_path (currentGraph UNDERSEA_CABLES PIPELINES PORTS
                         STRATEGIC_WATERWAYS st) (dependencyChain an)
            ∧ NoDup (dependencyChain an)
            ∧ length (dependencyChain an) = S (pathLength an))
         (affectedNodes r).
Proof.
  intros Hr. rewrite calculateCascade_on in Hr. unfold cascadeOn in Hr. simpl in Hr.
  destruct (nodes (current st) !! sourceId) as [src|]; [|done].
  simpl in Hr. injection Hr as <-. simpl.
  destruct (cascadeLoop_pathInv (current st) disruptionLevel sourceId)
    as (_ & _ & Hpath & _).
  pose proof (cascadeLoop_justified (current st) disruptionLevel sourceId) as Hjust.
  unfold OrderedMap.values. apply Forall_fmap.
  pose proof (conj Hpath Hjust) as H. apply Forall_and in H.
  eapply Forall_impl; [exact H|].
  intros [k an] [((Hhead & Hlast & Hp & Hnd) & Hlen & _) (from & e & _ & _ & Hn & _)].
  simpl in *. split; [done|]. split; [by exists k|done].
Qed.

(** X7: a cascade result lists no node twice and never lists the source
    itself among the affected nodes. *)
Theorem affected_nodes_distinct st sourceId disruptionLevel r :
  stateInv UNDERSEA_CABLES PIPELINES PORTS STRATEGIC_WATERWAYS st →
  (calculateCascade UNDERSEA_CABLES PIPELINES PORTS STRATEGIC_WATERWAYS
     sourceId disruptionLevel st).1 = Some r →
  node_id (source r) = sourceId
  ∧ NoDup ((fun an => node_id (node an)) <$> affectedNodes r)
  ∧ Forall (fun an => node_id (node an) ≠ sourceId) (affectedNodes r).
Proof.
  intros Hinv Hr. rewrite calculateCascade_on, currentGraph_built in Hr by done.
  unfold cascadeOn in Hr.
  set (graph := constructGraph UNDERSEA_CABLES PIPELINES PORTS STRATEGIC_WATERWAYS) in *.
  destruct (nodes graph !! sourceId) as [src|] eqn:Hsrc; [|done].
  simpl in Hr. injection Hr as <-. simpl.
  destruct (cascadeLoop_pathInv graph disruptionLevel sourceId)
    as (_ & _ & Hpath & Hnd).
  pose proof (cascadeLoop_justified graph disruptionLevel sourceId) as Hjust.
  set (m := affected (cascadeLoop graph disruptionLevel (startState sourceId))) in *.
  assert (Forall (fun kv : string * CascadeAffectedNode =>
                    node_id (node kv.2) = kv.1) m) as Hid.
  { eapply Forall_impl; [exact Hjust|].
    intros [k an] (from & e & _ & _ & Hn & _). simpl in *.
    by apply built_nodes_key_kind in Hn as [? _]. }
  split; [by apply built_nodes_key_kind in Hsrc as [? _]|]. split.
  - unfold OrderedMap.values, OrderedMap.keys in *. rewrite <- list_fmap_compose.
    replace ((fun an => node_id (node an)) ∘ snd <$> m) with (fst <$> m); [done|].
    symmetry. apply Forall_fmap_ext_1.
    eapply Forall_impl; [exact Hid|]. by intros [k an] H.
  - unfold OrderedMap.values. apply Forall_fmap.
    pose proof (conj Hpath Hid) as H. apply Forall_and in H.
    eapply Forall_impl; [exact H|].
    intros [k an] [(_ & _ & _ & Hne) Hk]. simpl in *. by rewrite Hk.
Qed.

End CascadePaths.

(** ** Severity and the disruption level *)

Ltac gtb_cases :=
  repeat match goal with
         | |- context [Js.gtb ?a ?b] =>
             let H := fresh "H" in
             destruct (Js.gtb a b) eqn:H;
             [apply gtb_true_iff in H|apply gtb_false_iff in H]
         end.

Lemma categorizeImpact_rank (s1 s2 : Q) :
  (s1 <= s2)%Q →
  (severityRank (categorizeImpact s2) ≤ severityRank (categorizeImpact s1))%Z.
Proof.
  intros Hle. unfold categorizeImpact.
  gtb_cases; simpl; try lia; exfalso; lra.
Qed.

(** X8: a larger impact strength never gets a less severe category. *)
Theorem categorizeImpact_monotone (s1 s2 : Q) :
  (s1 <= s2)%Q →
  (severityRank (categorizeImpact s2) ≤ severityRank (categorizeImpact s1))%Z.
Proof. exact (categorizeImpact_rank s1 s2). Qed.



Section DisruptionLevel.

Variable UNDERSEA_CABLES : list UnderseaCable.
Variable PIPELINES : list Pipeline.
Variable PORTS : list Port.
Variable STRATEGIC_WATERWAYS : list Waterway.

Abbreviation built := (constructGraph UNDERSEA_CABLES PIPELINES PORTS STRATEGIC_WATERWAYS).


(** *** Pipeline sources *)

Lemma pipeline_outgoing id e :
  e ∈ default [] (outgoing built !! ("pipeline:" +:+ id)) →
  ∃ code, e = pipelineEdge ("pipeline:" +:+ id) code.
Proof.
  intros He. apply built_outgoing_emitted in He as [He Hfrom].
  destruct He as [c cs _ _|c lp _ _|p c _ _]; simpl in Hfrom.
  - exfalso. revert Hfrom. eapply kind_mismatch;
      [apply id_kind_cable|apply id_kind_pipeline|done].
  - exfalso. revert Hfrom. eapply kind_mismatch;
      [apply id_kind_cable|apply id_kind_pipeline|done].
  - exists (normalizeCountry c). by rewrite Hfrom.
Qed.




(** The entries recorded at the lower level are matched at the higher one. *)
Definition matched (st1 st2 : LoopState) : Prop :=
  visited st1 = visited st2
  ∧ Forall (fun kv : string * CascadeAffectedNode =>
              kv.1 ∈ visited st1
              ∧ ∃ an2, (kv.1, an2) ∈ affected st2
                       ∧ node an2 = node kv.2
                       ∧ (severityRank (impactLevel an2)
                          ≤ severityRank (impactLevel kv.2))%Z)
           (affected st1).




End DisruptionLevel.

(** * The noise floor on binary64

    The engine above computes with exact rationals, which decides every
    property that does not hinge on rounding.  The noise-floor test
    [impactStrength < 0.05] does: the product is rounded twice, and a
    [NaN] is never below anything.  This module translates the engine again
    with a JavaScript [number] as an IEEE 754 binary64 value
    ([PrimFloat.float], with [NaN], the infinities and both zeros), so that
    the floor is stated of the numbers the code computes.

    Everything that carries no number (node and edge types, impact levels,
    landing points, the country table, the insertion-ordered map, queue
    items) is shared with the first part.  [Array.prototype.sort] is again
    the stable sort of a consistent comparator; a comparator that returns
    [NaN] counts as returning 0. *)

From Stdlib Require Uint63 FloatOps FloatAxioms SpecFloat.

Set Warnings "-inexact-float".

Module Binary64.

(** ** JavaScript numbers *)

Module Num.

(** [a < b] and [a > b]: false whenever an operand is [NaN]. *)
Definition ltb (a b : float) : bool := PrimFloat.ltb a b.
Definition gtb (a b : float) : bool := PrimFloat.ltb b a.

(** [x || 0]: [0], [-0] and [NaN] are the falsy numbers. *)
Definition or_zero (x : float) : float :=
  if PrimFloat.eqb x 0 || PrimFloat.is_nan x then 0%float else x.

(** An array length as a number. *)
Definition ofNat (n : nat) : float := PrimFloat.of_uint63 (Uint63.of_Z (Z.of_nat n)).

(** A small integer as a number. *)
Definition ofZ (z : Z) : float :=
  match z with
  | Z0 => 0%float
  | Zpos p => PrimFloat.of_uint63 (Uint63.of_Z (Zpos p))
  | Zneg p => PrimFloat.opp (PrimFloat.of_uint63 (Uint63.of_Z (Zpos p)))
  end.

End Num.

(** ** Reference data *)

Record CountryServed := {
  cs_country : string;
  capacityShare : float;
  isRedundant : bool;
}.

Record UnderseaCable := {
  cable_id : string;
  cable_name : string;
  cable_points : option (list (float * float));
  capacityTbps : option float;
  rfsYear : option Z;
  owners : option (list string);
  landingPoints : option (list LandingPoint);
  countriesServed : option (list CountryServed);
}.

Record Pipeline := {
  pipeline_id : string;
  pipeline_name : string;
  pipeline_type : string;
  pipeline_status : string;
  pipeline_capacity : option string;
  pipeline_operator : option string;
  pipeline_countries : option (list string);
  pipeline_points : option (list (float * float));
}.

Record Port := {
  port_id : string;
  port_name : string;
  port_country : string;
  port_type : string;
  port_rank : option Z;
  port_lon : float;
  port_lat : float;
}.

Record Waterway := {
  waterway_id : string;
  waterway_name : string;
  waterway_lon : float;
  waterway_lat : float;
  waterway_description : string;
}.

(** ** Graph data model *)

(** The open [metadata] bag of a node, one shape per node type. *)
Inductive NodeMetadata :=
| CableMeta (capacity : option float) (rfs : option Z) (own : option (list string))
            (landing : option (list LandingPoint))
| PipelineMeta (type status : string) (capacity operator : option string)
               (countries : option (list string))
| PortMeta (country type : string) (rank : option Z)
| ChokepointMeta (description : string)
| CountryMeta (code : string).

(** [metadata?.code] *)
Definition meta_code (m : NodeMetadata) : option string :=
  match m with CountryMeta code => Some code | _ => None end.

Record InfrastructureNode := {
  node_id : string;
  node_type : NodeType;
  node_name : string;
  node_coordinates : option (float * float);
  node_metadata : NodeMetadata;
}.

Record EdgeMetadata := {
  meta_capacityShare : float;
  estimatedImpact : string;
}.

Record DependencyEdge := {
  edge_from : string;
  edge_to : string;
  edge_type : EdgeType;
  strength : float;
  redundancy : float;
  edge_metadata : option EdgeMetadata;
}.

Record DependencyGraph := {
  nodes : gmap string InfrastructureNode;
  edges : list DependencyEdge;
  outgoing : gmap string (list DependencyEdge);
  incoming : gmap string (list DependencyEdge);
}.

Definition empty_graph : DependencyGraph :=
  {| nodes := ∅; edges := []; outgoing := ∅; incoming := ∅ |}.

(** [graph.nodes.set(key, node)] *)
Definition nodes_set (key : string) (n : InfrastructureNode)
    (graph : DependencyGraph) : DependencyGraph :=
  {| nodes := <[key := n]> (nodes graph);
     edges := edges graph;
     outgoing := outgoing graph;
     incoming := incoming graph |}.

(** [if (!index.has(k)) index.set(k, []); index.get(k)!.push(edge)] *)
Definition index_push (k : string) (edge : DependencyEdge)
    (index : gmap string (list DependencyEdge)) : gmap string (list DependencyEdge) :=
  <[k := default [] (index !! k) ++ [edge]]> index.

Definition addEdge (graph : DependencyGraph) (edge : DependencyEdge) : DependencyGraph :=
  {| nodes := nodes graph;
     edges := edges graph ++ [edge];
     outgoing := index_push (edge_from edge) edge (outgoing graph);
     incoming := index_push (edge_to edge) edge (incoming graph) |}.

(** [points?.[0]] turned into a coordinate pair. *)
Definition first_point (points : option (list (float * float))) : option (float * float) :=
  match points with
  | Some (p :: _) => Some p
  | _ => None
  end.

(** ** Cascade results *)

Record CascadeAffectedNode := {
  node : InfrastructureNode;
  impactLevel : CascadeImpactLevel;
  pathLength : nat;
  dependencyChain : list string;
  redundancyAvailable : bool;
  estimatedRecovery : option string;
}.

Record CascadeCountryImpact := {
  ci_country : string;
  countryName : string;
  ci_impactLevel : CascadeImpactLevel;
  affectedCapacity : float;
}.

Record RedundancyCandidate := {
  alt_id : string;
  alt_name : string;
  alt_capacityShare : float;
}.

Record CascadeResult := {
  source : InfrastructureNode;
  affectedNodes : list CascadeAffectedNode;
  countriesAffected : list CascadeCountryImpact;
  redundancies : list RedundancyCandidate;
}.

(** ** The cascade step functions (independent of the datasets) *)

Definition categorizeImpact (s : float) : CascadeImpactLevel :=
  if Num.gtb s 0.8 then Critical
  else if Num.gtb s 0.5 then High
  else if Num.gtb s 0.2 then Medium
  else Low.

(** [edge.strength * disruptionLevel * (1 - (edge.redundancy || 0))] *)
Definition impactStrength (edge : DependencyEdge) (disruptionLevel : float) : float :=
  (strength edge * disruptionLevel * (1 - Num.or_zero (redundancy edge)))%float.

Record LoopState := {
  affected : OrderedMap.t CascadeAffectedNode;
  visited : gset string;
  queue : list QueueItem;
}.

(** One iteration of [for (const edge of dependents)]. *)
Definition visitEdge (graph : DependencyGraph) (disruptionLevel : float)
    (depth : nat) (path : list string) (st : LoopState) (edge : DependencyEdge) : LoopState :=
  if decide (edge_to edge ∈ visited st) then st
  else
    let visited' := {[edge_to edge]} ∪ visited st in
    let skip := {| affected := affected st; visited := visited'; queue := queue st |} in
    let impact := impactStrength edge disruptionLevel in
    match nodes graph !! edge_to edge with
    | None => skip
    | Some targetNode =>
        if Num.ltb impact 0.05 then skip
        else
          {| affected :=
               OrderedMap.set (edge_to edge)
                 {| node := targetNode;
                    impactLevel := categorizeImpact impact;
                    pathLength := depth + 1;
                    dependencyChain := path ++ [edge_to edge];
                    redundancyAvailable := Num.gtb (Num.or_zero (redundancy edge)) 0.3;
                    estimatedRecovery := estimatedImpact <$> edge_metadata edge |}
                 (affected st);
             visited := visited';
             queue := queue st ++ [{| nodeId := edge_to edge;
                                      depth := depth + 1;
                                      path := path ++ [edge_to edge] |}] |}
    end.

(** The body of the [while] loop once [item] has been shifted off the queue. *)
Definition expand (graph : DependencyGraph) (disruptionLevel : float)
    (item : QueueItem) (st : LoopState) : LoopState :=
  if Nat.leb 3 (depth item) then st
  else
    let dependents := default [] (outgoing graph !! nodeId item) in
    foldl (visitEdge graph disruptionLevel (depth item) (path item)) st dependents.

(** *** Termination measure of the [while] loop

    Every enqueued item marks a node that was not visited before, and that
    node is the target of an edge of the [outgoing] index; so the number of
    unvisited targets plus the queue length decreases at every iteration. *)

Definition targets (graph : DependencyGraph) : gset string :=
  list_to_set (edge_to <$> mjoin ((map_to_list (outgoing graph)).*2)).

Definition loopMeasure (graph : DependencyGraph) (st : LoopState) : nat :=
  size (targets graph ∖ visited st) + length (queue st).

Lemma edge_to_in_targets64 graph k l e :
  outgoing graph !! k = Some l → e ∈ l → edge_to e ∈ targets graph.
Proof.
  intros Hk He. unfold targets.
  apply elem_of_list_to_set, list_elem_of_fmap.
  exists e. split; [done|].
  apply list_elem_of_join. exists l. split; [done|].
  apply list_elem_of_fmap. exists (k, l). split; [done|].
  by apply elem_of_map_to_list.
Qed.

Lemma visitEdge_measure64 graph level d p st e :
  edge_to e ∈ targets graph →
  loopMeasure graph (visitEdge graph level d p st e) ≤ loopMeasure graph st.
Proof.
  intros Ht. unfold visitEdge.
  destruct (decide (edge_to e ∈ visited st)) as [|Hnv]; [done|].
  assert (size (targets graph ∖ ({[edge_to e]} ∪ visited st))
          < size (targets graph ∖ visited st)) as Hlt.
  { apply subset_size. split.
    - apply difference_mono_l, union_subseteq_r.
    - intros Hsub.
      assert (edge_to e ∈ targets graph ∖ visited st) as Hin
        by by apply elem_of_difference.
      apply Hsub, elem_of_difference in Hin as [_ Hin].
      apply Hin, elem_of_union. left. by apply elem_of_singleton. }
  unfold loopMeasure.
  destruct (nodes graph !! edge_to e); [destruct (Num.ltb _ _)|];
    simpl; rewrite ?length_app; simpl; lia.
Qed.

Lemma foldl_visitEdge_measure64 graph level d p l st :
  (∀ e, e ∈ l → edge_to e ∈ targets graph) →
  loopMeasure graph (foldl (visitEdge graph level d p) st l) ≤ loopMeasure graph st.
Proof.
  revert st. induction l as [|e l IH]; intros st Hl; simpl; [done|].
  etrans; [apply IH|apply visitEdge_measure64].
  - intros e' He'. apply Hl. by right.
  - apply Hl. by left.
Qed.

Lemma expand_measure64 graph level item st :
  loopMeasure graph (expand graph level item st) ≤ loopMeasure graph st.
Proof.
  unfold expand. destruct (Nat.leb 3 (depth item)); [done|].
  apply foldl_visitEdge_measure64. intros e He.
  destruct (outgoing graph !! nodeId item) as [l|] eqn:Hl; simpl in He.
  - by eapply edge_to_in_targets64.
  - by apply elem_of_nil in He.
Qed.

(** [while (queue.length > 0) { const item = queue.shift()!; … }] *)
Equations? cascadeLoop (graph : DependencyGraph) (disruptionLevel : float)
    (st : LoopState) : LoopState by wf (loopMeasure graph st) lt :=
  cascadeLoop graph disruptionLevel {| affected := a; visited := v; queue := [] |} :=
    {| affected := a; visited := v; queue := [] |};
  cascadeLoop graph disruptionLevel {| affected := a; visited := v; queue := item :: rest |} :=
    cascadeLoop graph disruptionLevel
      (expand graph disruptionLevel item {| affected := a; visited := v; queue := rest |}).
Proof.
  pose proof (expand_measure64 graph disruptionLevel item
                {| affected := a; visited := v; queue := rest |}) as H.
  unfold loopMeasure in *. simpl in *. lia.
Qed.

(** ** The engine over the reference datasets *)

Section Engine.

Variable UNDERSEA_CABLES : list UnderseaCable.
Variable PIPELINES : list Pipeline.
Variable PORTS : list Port.
Variable STRATEGIC_WATERWAYS : list Waterway.

(** *** Graph builder *)

Definition cableNode (cable : UnderseaCable) : InfrastructureNode :=
  {| node_id := "cable:" +:+ cable_id cable;
     node_type := NCable;
     node_name := cable_name cable;
     node_coordinates := first_point (cable_points cable);
     node_metadata := CableMeta (capacityTbps cable) (rfsYear cable)
                                (owners cable) (landingPoints cable) |}.

Definition addCablesAsNodes (graph : DependencyGraph) : DependencyGraph :=
  foldl (fun g cable => nodes_set ("cable:" +:+ cable_id cable) (cableNode cable) g)
        graph UNDERSEA_CABLES.

Definition pipelineNode (pipeline : Pipeline) : InfrastructureNode :=
  {| node_id := "pipeline:" +:+ pipeline_id pipeline;
     node_type := NPipeline;
     node_name := pipeline_name pipeline;
     node_coordinates := first_point (pipeline_points pipeline);
     node_metadata := PipelineMeta (pipeline_type pipeline) (pipeline_status pipeline)
                                   (pipeline_capacity pipeline) (pipeline_operator pipeline)
                                   (pipeline_countries pipeline) |}.

Definition addPipelinesAsNodes (graph : DependencyGraph) : DependencyGraph :=
  foldl (fun g pipeline =>
           nodes_set ("pipeline:" +:+ pipeline_id pipeline) (pipelineNode pipeline) g)
        graph PIPELINES.

Definition portNode (port : Port) : InfrastructureNode :=
  {| node_id := "port:" +:+ port_id port;
     node_type := NPort;
     node_name := port_name port;
     node_coordinates := Some (port_lon port, port_lat port);
     node_metadata := PortMeta (port_country port) (port_type port) (port_rank port) |}.

Definition addPortsAsNodes (graph : DependencyGraph) : DependencyGraph :=
  foldl (fun g port => nodes_set ("port:" +:+ port_id port) (portNode port) g)
        graph PORTS.

Definition chokepointNode (waterway : Waterway) : InfrastructureNode :=
  {| node_id := "chokepoint:" +:+ waterway_id waterway;
     node_type := NChokepoint;
     node_name := waterway_name waterway;
     node_coordinates := Some (waterway_lon waterway, waterway_lat waterway);
     node_metadata := ChokepointMeta (waterway_description waterway) |}.

Definition addChokepointsAsNodes (graph : DependencyGraph) : DependencyGraph :=
  foldl (fun g waterway =>
           nodes_set ("chokepoint:" +:+ waterway_id waterway) (chokepointNode waterway) g)
        graph STRATEGIC_WATERWAYS.

(** The two [forEach] calls on one cable in [addCountriesAsNodes]. *)
Definition cableCountries (countries : gset string) (cable : UnderseaCable) : gset string :=
  let served :=
    foldl (fun s c => {[cs_country c]} ∪ s) countries (Js.opt_list (countriesServed cable)) in
  foldl (fun s lp => {[lp_country lp]} ∪ s) served (Js.opt_list (landingPoints cable)).

Definition pipelineCountries (countries : gset string) (pipeline : Pipeline) : gset string :=
  foldl (fun s c => {[normalizeCountry c]} ∪ s) countries
        (Js.opt_list (pipeline_countries pipeline)).

(** The local set [countries] of [addCountriesAsNodes] after both loops. *)
Definition referencedCountries : gset string :=
  foldl pipelineCountries (foldl cableCountries ∅ UNDERSEA_CABLES) PIPELINES.

Definition countryNode (code : string) : InfrastructureNode :=
  {| node_id := "country:" +:+ code;
     node_type := NCountry;
     node_name := Js.or_string (country_name_lookup code) code;
     node_coordinates := None;
     node_metadata := CountryMeta code |}.

Definition addCountriesAsNodes (graph : DependencyGraph) : DependencyGraph :=
  foldl (fun g code => nodes_set ("country:" +:+ code) (countryNode code) g)
        graph (elements referencedCountries).

Definition servesEdge (cableId : string) (cs : CountryServed) : DependencyEdge :=
  {| edge_from := cableId;
     edge_to := "country:" +:+ cs_country cs;
     edge_type := Serves;
     strength := capacityShare cs;
     redundancy := (if isRedundant cs then 0.5 else 0)%float;
     edge_metadata :=
       Some {| meta_capacityShare := capacityShare cs;
               estimatedImpact :=
                 if isRedundant cs then "Medium - redundancy available"
                 else "High - limited redundancy" |} |}.

Definition landsAtEdge (cableId : string) (lp : LandingPoint) : DependencyEdge :=
  {| edge_from := cableId;
     edge_to := "country:" +:+ lp_country lp;
     edge_type := LandsAt;
     strength := 0.3;
     redundancy := 0.5;
     edge_metadata := None |}.

Definition cableEdges (graph : DependencyGraph) (cable : UnderseaCable) : DependencyGraph :=
  let cableId := "cable:" +:+ cable_id cable in
  let served :=
    foldl (fun g cs => addEdge g (servesEdge cableId cs)) graph
          (Js.opt_list (countriesServed cable)) in
  foldl (fun g lp => addEdge g (landsAtEdge cableId lp)) served
        (Js.opt_list (landingPoints cable)).

Definition buildCableCountryEdges (graph : DependencyGraph) : DependencyGraph :=
  foldl cableEdges graph UNDERSEA_CABLES.

Definition pipelineEdge (pipelineId code : string) : DependencyEdge :=
  {| edge_from := pipelineId;
     edge_to := "country:" +:+ code;
     edge_type := Serves;
     strength := 0.2;
     redundancy := 0.3;
     edge_metadata := None |}.

Definition pipelineEdges (graph : DependencyGraph) (pipeline : Pipeline) : DependencyGraph :=
  let pipelineId := "pipeline:" +:+ pipeline_id pipeline in
  foldl (fun g c =>
           let code := normalizeCountry c in
           let countryId := "country:" +:+ code in
           match nodes g !! countryId with
           | Some _ => addEdge g (pipelineEdge pipelineId code)
           | None => g
           end)
        graph (Js.opt_list (pipeline_countries pipeline)).

Definition buildPipelineCountryEdges (graph : DependencyGraph) : DependencyGraph :=
  foldl pipelineEdges graph PIPELINES.

(** The part of [buildDependencyGraph] that runs on a cache miss. *)
Definition constructGraph : DependencyGraph :=
  let graph := empty_graph in
  let graph := addCablesAsNodes graph in
  let graph := addPipelinesAsNodes graph in
  let graph := addPortsAsNodes graph in
  let graph := addChokepointsAsNodes graph in
  let graph := addCountriesAsNodes graph in
  let graph := buildCableCountryEdges graph in
  buildPipelineCountryEdges graph.

(** *** The graph cache

    A graph object is the graph together with the identity of its
    allocation; [allocated] counts the graph objects created so far. *)

Record GraphObject := {
  object_id : nat;
  graph_of : DependencyGraph;
}.

Record ModuleState := {
  cachedGraph : option GraphObject;
  allocated : nat;
}.

Definition initialState : ModuleState :=
  {| cachedGraph := None; allocated := 0 |}.

Definition clearGraphCache (st : ModuleState) : ModuleState :=
  {| cachedGraph := None; allocated := allocated st |}.

Definition buildDependencyGraph (st : ModuleState) : GraphObject * ModuleState :=
  match cachedGraph st with
  | Some graph => (graph, st)
  | None =>
      let graph := {| object_id := allocated st; graph_of := constructGraph |} in
      (graph, {| cachedGraph := Some graph; allocated := S (allocated st) |})
  end.

(** *** Country aggregation and redundancy analysis *)

Definition getCapacityForCountry (sourceId countryCode : string) : float :=
  if Js.startsWith sourceId "cable:" then
    let cableId := Js.replace sourceId "cable:" "" in
    let cable := Js.find (fun c => String.eqb (cable_id c) cableId) UNDERSEA_CABLES in
    let countryData :=
      cable ≫= fun c =>
        Js.find (fun cs => String.eqb (cs_country cs) countryCode)
                (Js.opt_list (countriesServed c)) in
    match countryData with
    | Some cs => Num.or_zero (capacityShare cs)
    | None => 0%float
    end
  else 0.1%float.

(** [sharedCountries.reduce((sum, c) => sum + c.capacityShare, 0)] *)
Definition sumCapacity (shared : list CountryServed) : float :=
  foldl (fun sum c => sum + capacityShare c)%float 0%float shared.

Definition findRedundancies (sourceId : string) : list RedundancyCandidate :=
  if negb (Js.startsWith sourceId "cable:") then []
  else
    let cableId := Js.replace sourceId "cable:" "" in
    match Js.find (fun c => String.eqb (cable_id c) cableId) UNDERSEA_CABLES with
    | None => []
    | Some sourceCable =>
        let sourceCountries : gset string :=
          list_to_set (cs_country <$> Js.opt_list (countriesServed sourceCable)) in
        let alternatives :=
          foldl (fun alternatives cable =>
                   if String.eqb (cable_id cable) cableId then alternatives
                   else
                     let sharedCountries :=
                       List.filter (fun c => bool_decide (cs_country c ∈ sourceCountries))
                                   (Js.opt_list (countriesServed cable)) in
                     if Nat.ltb 0 (length sharedCountries) then
                       let avgCapacity :=
                         (sumCapacity sharedCountries
                          / Num.ofNat (length sharedCountries))%float in
                       alternatives ++ [{| alt_id := cable_id cable;
                                           alt_name := cable_name cable;
                                           alt_capacityShare := avgCapacity |}]
                     else alternatives)
                [] UNDERSEA_CABLES in
        take 5 alternatives
    end.

(** The comparator handed to [countriesAffected.sort]:
    [(order[a.impactLevel] - order[b.impactLevel]) || (b.affectedCapacity - a.affectedCapacity)] *)
Definition compareImpact (a b : CascadeCountryImpact) : float :=
  let byLevel := (severityRank (ci_impactLevel a) - severityRank (ci_impactLevel b))%Z in
  if Z.eqb byLevel 0 then (affectedCapacity b - affectedCapacity a)%float
  else Num.ofZ byLevel.

(** [Array.prototype.sort] is stable, and for a consistent comparator its
    result is the one stable ordering; insertion from the right computes it. *)
Fixpoint sort_insert {A} (cmp : A → A → float) (x : A) (l : list A) : list A :=
  match l with
  | [] => [x]
  | y :: l' => if Num.gtb (cmp x y) 0 then y :: sort_insert cmp x l' else x :: l
  end.

Definition js_sort {A} (cmp : A → A → float) (l : list A) : list A :=
  foldr (sort_insert cmp) [] l.

(** The loop that fills [countriesAffected] from the entries of [affected]. *)
Definition collectCountries (sourceId : string)
    (affected : OrderedMap.t CascadeAffectedNode) : list CascadeCountryImpact :=
  foldl (fun acc '(nodeId, affectedNode) =>
           if decide (node_type (node affectedNode) = NCountry) then
             let code :=
               Js.or_string (meta_code (node_metadata (node affectedNode)))
                            (Js.replace nodeId "country:" "") in
             acc ++ [{| ci_country := code;
                        countryName := node_name (node affectedNode);
                        ci_impactLevel := impactLevel affectedNode;
                        affectedCapacity := getCapacityForCountry sourceId code |}]
           else acc)
        [] affected.

(** *** Cascade simulator *)

Definition calculateCascade (sourceId : string) (disruptionLevel : float)
    (st : ModuleState) : option CascadeResult * ModuleState :=
  let '(graphObj, st') := buildDependencyGraph st in
  let graph := graph_of graphObj in
  match nodes graph !! sourceId with
  | None => (None, st')
  | Some source =>
      let final :=
        cascadeLoop graph disruptionLevel
          {| affected := [];
             visited := {[sourceId]};
             queue := [{| nodeId := sourceId; depth := 0; path := [sourceId] |}] |} in
      let countriesAffected :=
        js_sort compareImpact (collectCountries sourceId (affected final)) in
      (Some {| source := source;
               affectedNodes := OrderedMap.values (affected final);
               countriesAffected := countriesAffected;
               redundancies := findRedundancies sourceId |},
       st')
  end.

End Engine.
(** ** The propagation loop on an arbitrary graph *)

Section Loop.

Variable graph : DependencyGraph.
Variable disruptionLevel : float.

Lemma loop_invariant (I : LoopState → Prop) :
  (∀ a v item rest,
      I {| affected := a; visited := v; queue := item :: rest |} →
      I (expand graph disruptionLevel item {| affected := a; visited := v; queue := rest |})) →
  ∀ st, I st → I (cascadeLoop graph disruptionLevel st).
Proof.
  intros Hstep st. funelim (cascadeLoop graph disruptionLevel st); intros HI.
  - done.
  - match goal with
    | IH : ∀ J : LoopState → Prop, _ |- _ => apply IH; [done|by apply Hstep]
    end.
Qed.

Lemma visits_invariant (I : LoopState → Prop) d p l st :
  (∀ st e, e ∈ l → I st → I (visitEdge graph disruptionLevel d p st e)) →
  I st → I (foldl (visitEdge graph disruptionLevel d p) st l).
Proof.
  revert st. induction l as [|e l IH]; intros st Hstep HI; simpl; [done|].
  apply IH.
  - intros st' e' He'. apply Hstep. by right.
  - apply Hstep; [by left|done].
Qed.

(** What the loop knows about a recorded entry: it was reached along an
    edge of the [outgoing] index whose computed impact the test
    [impactStrength < 0.05] did not reject. *)
Definition recordedFor (k : string) (an : CascadeAffectedNode) : Prop :=
  ∃ from e,
    e ∈ default [] (outgoing graph !! from)
    ∧ edge_to e = k
    ∧ nodes graph !! k = Some (node an)
    ∧ Num.ltb (impactStrength e disruptionLevel) 0.05 = false
    ∧ impactLevel an = categorizeImpact (impactStrength e disruptionLevel)
    ∧ redundancyAvailable an = Num.gtb (Num.or_zero (redundancy e)) 0.3
    ∧ estimatedRecovery an = (estimatedImpact <$> edge_metadata e)
    ∧ last (dependencyChain an) = Some k.

Lemma visitEdge_recordedFor item st e :
  e ∈ default [] (outgoing graph !! nodeId item) →
  Forall (fun kv => recordedFor kv.1 kv.2) (affected st) →
  Forall (fun kv => recordedFor kv.1 kv.2)
         (affected (visitEdge graph disruptionLevel (depth item) (path item) st e)).
Proof.
  intros He Ha. unfold visitEdge.
  destruct (decide (edge_to e ∈ visited st)); [done|].
  destruct (nodes graph !! edge_to e) as [targetNode|] eqn:Hn; [|done].
  destruct (Num.ltb _ _) eqn:Hlt; [done|]. simpl.
  apply OrderedMap_set_Forall; [|done]. simpl.
  exists (nodeId item), e. simpl. rewrite last_snoc. by repeat split.
Qed.

Definition startState (sourceId : string) : LoopState :=
  {| affected := [];
     visited := {[sourceId]};
     queue := [{| nodeId := sourceId; depth := 0; path := [sourceId] |}] |}.

Lemma cascadeLoop_recordedFor sourceId :
  Forall (fun kv => recordedFor kv.1 kv.2)
         (affected (cascadeLoop graph disruptionLevel (startState sourceId))).
Proof.
  apply (loop_invariant
           (fun st => Forall (fun kv => recordedFor kv.1 kv.2) (affected st)));
    [|by constructor].
  intros a v item rest Ha. cbn [affected] in Ha. unfold expand.
  destruct (Nat.leb 3 (depth item)); [done|].
  apply visits_invariant; [|done].
  intros st e He Hst. by apply visitEdge_recordedFor.
Qed.

(** When the test rejects every edge of the graph, nothing is recorded. *)
Lemma cascadeLoop_all_below sourceId :
  (∀ from e, e ∈ default [] (outgoing graph !! from) →
             Num.ltb (impactStrength e disruptionLevel) 0.05 = true) →
  affected (cascadeLoop graph disruptionLevel (startState sourceId)) = [].
Proof.
  intros Hbelow.
  apply (loop_invariant (fun st => affected st = [])); [|done].
  intros a v item rest Ha. simpl in Ha. subst a.
  unfold expand. destruct (Nat.leb 3 (depth item)); [done|].
  apply visits_invariant; [|done].
  intros st e He Hst. unfold visitEdge.
  destruct (decide (edge_to e ∈ visited st)); [done|].
  destruct (nodes graph !! edge_to e); [|done].
  by rewrite (Hbelow (nodeId item) e He).
Qed.

End Loop.

(** ** Comparisons and products of binary64 values *)

Import FloatOps FloatAxioms SpecFloat.

Lemma floor_repr :
  Prim2SF 0.05 = S754_finite false 7205759403792794 (-57).
Proof. vm_compute. reflexivity. Qed.

Lemma zero_repr : Prim2SF 0 = S754_zero false.
Proof. vm_compute. reflexivity. Qed.

Lemma infinity_repr : Prim2SF infinity = S754_infinity false.
Proof. vm_compute. reflexivity. Qed.

Lemma nan_repr : Prim2SF nan = S754_nan.
Proof. vm_compute. reflexivity. Qed.

(** Comparing the other way round gives the opposite answer. *)
Lemma SFcompare_flip (x y : spec_float) :
  SFcompare y x = option_map CompOpp (SFcompare x y).
Proof.
  destruct x as [sx|sx| |sx mx ex], y as [sy|sy| |sy my ey];
    try reflexivity;
    try (destruct sx; reflexivity);
    try (destruct sy; reflexivity);
    try (destruct sx, sy; reflexivity).
  unfold SFcompare. cbv [option_map].
  destruct sx, sy; try reflexivity.
  - rewrite (Z.compare_antisym ex ey).
    destruct (ex ?= ey)%Z; try reflexivity.
    change (PosDef.Pos.compare_cont Eq my mx) with (Pos.compare_cont (CompOpp Eq) my mx).
    rewrite <- (Pos.compare_cont_antisym mx my Eq).
    destruct (Pos.compare_cont Eq mx my); reflexivity.
  - rewrite (Z.compare_antisym ex ey).
    destruct (ex ?= ey)%Z; try reflexivity.
    change (PosDef.Pos.compare_cont Eq my mx) with (Pos.compare_cont (CompOpp Eq) my mx).
    rewrite <- (Pos.compare_cont_antisym mx my Eq).
    destruct (Pos.compare_cont Eq mx my); reflexivity.
Qed.

(** [x < c] false, for a number [c]: [x] is at least [c], or [x] is [NaN]. *)
Lemma not_ltb_cases (x c : float) :
  PrimFloat.is_nan c = false →
  PrimFloat.ltb x c = false →
  PrimFloat.leb c x = true ∨ PrimFloat.is_nan x = true.
Proof.
  unfold PrimFloat.is_nan.
  rewrite ltb_spec, leb_spec, !eqb_spec.
  unfold SFltb, SFleb, SFeqb. rewrite (SFcompare_flip (Prim2SF x) (Prim2SF c)).
  destruct (SFcompare (Prim2SF x) (Prim2SF c)) as [[]|] eqn:E;
    cbv [option_map CompOpp negb].
  - intros _ _. left. reflexivity.
  - intros _ H. discriminate H.
  - intros _ _. left. reflexivity.
  - intros Hc _. right.
    destruct (Prim2SF x) as [sx|sx| |sx mx ex]; [| |reflexivity|];
      destruct (Prim2SF c) as [sy|sy| |sy my ey]; try discriminate E; try discriminate Hc.
Qed.

(** The two zeros. *)
Lemma is_zero_repr (x : float) :
  PrimFloat.eqb x 0 = true → ∃ s, Prim2SF x = S754_zero s.
Proof.
  rewrite eqb_spec, zero_repr.
  destruct (Prim2SF x) as [s|s| |s m e]; cbv [SFeqb SFcompare]; intros H.
  - by exists s.
  - destruct s; discriminate H.
  - discriminate H.
  - destruct s; discriminate H.
Qed.

Lemma is_finite_repr (x : float) :
  PrimFloat.is_finite x = true →
  (∃ s, Prim2SF x = S754_zero s) ∨ (∃ s m e, Prim2SF x = S754_finite s m e).
Proof.
  unfold PrimFloat.is_finite, PrimFloat.is_nan, PrimFloat.is_infinity.
  rewrite !eqb_spec, abs_spec, infinity_repr.
  destruct (Prim2SF x) as [s|s| |s m e];
    cbv [SFeqb SFcompare SFabs negb orb]; intros H.
  - left. by exists s.
  - destruct s; discriminate H.
  - discriminate H.
  - right. by exists s, m, e.
Qed.

(** A finite value times a zero is a zero. *)
Lemma mul_finite_zero (x z : float) :
  PrimFloat.is_finite x = true → PrimFloat.eqb z 0 = true →
  ∃ s, Prim2SF (x * z) = S754_zero s.
Proof.
  intros Hx Hz. apply is_zero_repr in Hz as [sz Hz].
  rewrite mul_spec, Hz. unfold SF64mul, SFmul.
  destruct (is_finite_repr x Hx) as [[s ->]|(s & m & e & ->)]; eauto.
Qed.

(** A zero times a finite non-zero constant is a zero, which is below the
    floor. *)
Lemma zero_mul_below (x c : float) s m e :
  (∃ sx, Prim2SF x = S754_zero sx) →
  Prim2SF c = S754_finite s m e →
  PrimFloat.ltb (x * c) 0.05 = true.
Proof.
  intros [sx Hx] Hc.
  rewrite ltb_spec, mul_spec, Hx, Hc, floor_repr. reflexivity.
Qed.

(** A [NaN] factor makes the product [NaN], which is not at least 0.05. *)
Lemma mul_nan_r (x : float) : Prim2SF (x * nan) = S754_nan.
Proof.
  rewrite mul_spec, nan_repr. unfold SF64mul, SFmul. by destruct (Prim2SF x).
Qed.

Lemma impact_nan (e : DependencyEdge) :
  PrimFloat.leb 0.05 (impactStrength e nan) = false
  ∧ PrimFloat.is_nan (impactStrength e nan) = true.
Proof.
  assert (Prim2SF (impactStrength e nan) = S754_nan) as Hnan.
  { unfold impactStrength. by rewrite mul_spec, mul_nan_r. }
  unfold PrimFloat.is_nan.
  rewrite leb_spec, eqb_spec, Hnan, floor_repr. split; reflexivity.
Qed.

(** ** The weights of the built graph *)

(** What the builder puts on an edge: a capacity share of the dataset or one
    of the literals 0.3 and 0.2 as strength, and one of the literals 0.5, 0
    and 0.3 as redundancy. *)
Definition builtWeights (e : DependencyEdge) : Prop :=
  PrimFloat.is_finite (strength e) = true
  ∧ (redundancy e = 0.5%float ∨ redundancy e = 0%float ∨ redundancy e = 0.3%float).

Definition weightsOk (graph : DependencyGraph) : Prop :=
  ∀ from e, e ∈ default [] (outgoing graph !! from) → builtWeights e.

Lemma weightsOk_empty : weightsOk empty_graph.
Proof. intros from e He. simpl in He. rewrite lookup_empty in He. by apply elem_of_nil in He. Qed.

Lemma weightsOk_nodes_set key n graph :
  weightsOk graph → weightsOk (nodes_set key n graph).
Proof. done. Qed.

Lemma weightsOk_addEdge graph e :
  builtWeights e → weightsOk graph → weightsOk (addEdge graph e).
Proof.
  intros He Hg from e'. cbn [outgoing addEdge]. unfold index_push.
  destruct (decide (edge_from e = from)) as [->|Hne].
  - rewrite lookup_insert_eq. cbn [default]. intros Hin.
    apply elem_of_app in Hin as [Hin|Hin]; [by apply (Hg from)|].
    apply list_elem_of_singleton in Hin. by subst e'.
  - rewrite lookup_insert_ne by done. apply Hg.
Qed.

Lemma foldl_weightsOk {A} (step : DependencyGraph → A → DependencyGraph) (l : list A) :
  (∀ g x, x ∈ l → weightsOk g → weightsOk (step g x)) →
  ∀ g, weightsOk g → weightsOk (foldl step g l).
Proof.
  induction l as [|x l IH]; intros Hstep g Hg; simpl; [done|].
  apply IH.
  - intros g' y Hy. apply Hstep. by right.
  - apply Hstep; [by left|done].
Qed.

Lemma one_minus_repr :
  (∃ m e, Prim2SF (1 - Num.or_zero 0.5) = S754_finite false m e)
  ∧ (∃ m e, Prim2SF (1 - Num.or_zero 0) = S754_finite false m e)
  ∧ (∃ m e, Prim2SF (1 - Num.or_zero 0.3) = S754_finite false m e).
Proof. repeat split; vm_compute; eauto. Qed.

(** On an edge of the built graph a zero level gives a zero impact, which
    the test rejects. *)
Lemma impact_zero_level e level :
  builtWeights e → PrimFloat.eqb level 0 = true →
  Num.ltb (impactStrength e level) 0.05 = true.
Proof.
  intros [Hs Hr] Hz. unfold Num.ltb, impactStrength.
  pose proof (mul_finite_zero (strength e) level Hs Hz) as Hzero.
  destruct one_minus_repr as ((m1 & e1 & H1) & (m2 & e2 & H2) & (m3 & e3 & H3)).
  destruct Hr as [->|[->| ->]]; by eapply zero_mul_below.
Qed.

(** ** The cache and the simulator *)

Section Simulator.

Variable UNDERSEA_CABLES : list UnderseaCable.
Variable PIPELINES : list Pipeline.
Variable PORTS : list Port.
Variable STRATEGIC_WATERWAYS : list Waterway.

(** Every capacity share of the dataset is a finite number. *)
Definition sharesFinite : Prop :=
  ∀ c cs, c ∈ UNDERSEA_CABLES → cs ∈ Js.opt_list (countriesServed c) →
          PrimFloat.is_finite (capacityShare cs) = true.

Lemma built_weightsOk :
  sharesFinite →
  weightsOk (constructGraph UNDERSEA_CABLES PIPELINES PORTS STRATEGIC_WATERWAYS).
Proof.
  intros Hfin.
  unfold constructGraph, buildPipelineCountryEdges, buildCableCountryEdges,
    addCountriesAsNodes, addChokepointsAsNodes, addPortsAsNodes,
    addPipelinesAsNodes, addCablesAsNodes.
  apply foldl_weightsOk.
  { intros g p _ Hg. unfold pipelineEdges. apply foldl_weightsOk; [|done].
    intros g' c _ Hg'. destruct (nodes g' !! _); [|done].
    apply weightsOk_addEdge; [|done]. split; [by vm_compute|]. right. by right. }
  apply foldl_weightsOk.
  { intros g c Hc Hg. unfold cableEdges. apply foldl_weightsOk.
    - intros g' lp _ Hg'. apply weightsOk_addEdge; [|done].
      split; [by vm_compute|]. by left.
    - apply foldl_weightsOk; [|done].
      intros g' cs Hcs Hg'. apply weightsOk_addEdge; [|done].
      split; [by apply (Hfin c)|]. cbn [redundancy servesEdge].
      destruct (isRedundant cs); [by left|right; by left]. }
  repeat (apply foldl_weightsOk; [by intros; apply weightsOk_nodes_set|]).
  apply weightsOk_empty.
Qed.

(** The graph a call made in state [st] works on. *)
Definition currentGraph (st : ModuleState) : DependencyGraph :=
  graph_of (buildDependencyGraph UNDERSEA_CABLES PIPELINES PORTS STRATEGIC_WATERWAYS st).1.

(** States in which the cache is empty or holds a graph built from the
    reference data by an earlier allocation. *)
Definition stateInv (st : ModuleState) : Prop :=
  ∀ g, cachedGraph st = Some g →
       graph_of g = constructGraph UNDERSEA_CABLES PIPELINES PORTS STRATEGIC_WATERWAYS
       ∧ object_id g < allocated st.

Lemma stateInv_start : stateInv initialState.
Proof. by intros g. Qed.

Lemma stateInv_clearGraphCache st : stateInv st → stateInv (clearGraphCache st).
Proof. by intros _ g. Qed.

Lemma stateInv_buildDependencyGraph st :
  stateInv st →
  stateInv (buildDependencyGraph UNDERSEA_CABLES PIPELINES PORTS STRATEGIC_WATERWAYS st).2.
Proof.
  intros H. unfold buildDependencyGraph.
  destruct (cachedGraph st) eqn:E; simpl; [done|].
  intros g [= <-]. simpl. split; [done|lia].
Qed.

Lemma currentGraph_constructed st :
  stateInv st →
  currentGraph st = constructGraph UNDERSEA_CABLES PIPELINES PORTS STRATEGIC_WATERWAYS.
Proof.
  intros H. unfold currentGraph, buildDependencyGraph.
  destruct (cachedGraph st) as [g|] eqn:E; simpl; [|done].
  by apply H.
Qed.

(** The result of a call as a function of the graph it works on. *)
Definition cascadeOn (graph : DependencyGraph) (sourceId : string)
    (disruptionLevel : float) : option CascadeResult :=
  source ← nodes graph !! sourceId;
  let final := cascadeLoop graph disruptionLevel (startState sourceId) in
  Some {| source := source;
          affectedNodes := OrderedMap.values (affected final);
          countriesAffected :=
            js_sort compareImpact
              (collectCountries UNDERSEA_CABLES sourceId (affected final));
          redundancies := findRedundancies UNDERSEA_CABLES sourceId |}.

Lemma calculateCascade_cascadeOn sourceId disruptionLevel st :
  calculateCascade UNDERSEA_CABLES PIPELINES PORTS STRATEGIC_WATERWAYS
    sourceId disruptionLevel st
  = (cascadeOn (currentGraph st) sourceId disruptionLevel,
     (buildDependencyGraph UNDERSEA_CABLES PIPELINES PORTS STRATEGIC_WATERWAYS st).2).
Proof.
  unfold calculateCascade, cascadeOn, currentGraph.
  destruct (buildDependencyGraph _ _ _ _ st) as [g st']. simpl.
  by destruct (nodes (graph_of g) !! sourceId).
Qed.

Lemma stateInv_calculate sourceId disruptionLevel st :
  stateInv st →
  stateInv (calculateCascade UNDERSEA_CABLES PIPELINES PORTS STRATEGIC_WATERWAYS
              sourceId disruptionLevel st).2.
Proof. rewrite calculateCascade_cascadeOn. apply stateInv_buildDependencyGraph. Qed.

(** The edge an affected-node entry was recorded for. *)
Definition underlyingEdge (graph : DependencyGraph) (disruptionLevel : float)
    (an : CascadeAffectedNode) (e : DependencyEdge) : Prop :=
  (∃ from, e ∈ default [] (outgoing graph !! from))
  ∧ last (dependencyChain an) = Some (edge_to e)
  ∧ nodes graph !! edge_to e = Some (node an)
  ∧ impactLevel an = categorizeImpact (impactStrength e disruptionLevel)
  ∧ redundancyAvailable an = Num.gtb (Num.or_zero (redundancy e)) 0.3
  ∧ estimatedRecovery an = (estimatedImpact <$> edge_metadata e).

(** The impact the code computed is not below the floor: it is at least
    0.05, or it is [NaN]. *)
Definition passesFloor (impact : float) : Prop :=
  Num.ltb impact 0.05 = false
  ∧ (PrimFloat.leb 0.05 impact = true ∨ PrimFloat.is_nan impact = true).

Lemma affected_pass_floor graph sourceId disruptionLevel :
  Forall (fun an => ∃ e, underlyingEdge graph disruptionLevel an e
                         ∧ passesFloor (impactStrength e disruptionLevel))
         (OrderedMap.values
            (affected (cascadeLoop graph disruptionLevel (startState sourceId)))).
Proof.
  unfold OrderedMap.values. apply Forall_fmap.
  eapply Forall_impl; [apply cascadeLoop_recordedFor|].
  intros [k an] (from & e & He & <- & Hn & Hfloor & Hlvl & Hred & Hrec & Hlast).
  exists e. split; [split; [by exists from|done]|].
  split; [done|]. apply not_ltb_cases; [by vm_compute|done].
Qed.

(** C2, on binary64: for an existing source the call succeeds, whatever the
    disruption level, [NaN] and the infinities included.  Every affected-node
    entry was recorded for an edge whose impactStrength, as the code computes
    it, is not below 0.05: it is at least 0.05, or it is [NaN].  With finite
    capacity shares and a disruption level of zero (either zero), the
    affected-node set is empty. *)
Theorem noise_floor st sourceId disruptionLevel src :
  nodes (currentGraph st) !! sourceId = Some src →
  ∃ r, (calculateCascade UNDERSEA_CABLES PIPELINES PORTS STRATEGIC_WATERWAYS
          sourceId disruptionLevel st).1 = Some r
       ∧ Forall (fun an => ∃ e, underlyingEdge (currentGraph st) disruptionLevel an e
                                ∧ passesFloor (impactStrength e disruptionLevel))
                (affectedNodes r)
       ∧ (stateInv st → sharesFinite → PrimFloat.eqb disruptionLevel 0 = true →
          affectedNodes r = []).
Proof.
  intros Hsrc. rewrite calculateCascade_cascadeOn. unfold cascadeOn.
  rewrite Hsrc. simpl. eexists. split; [done|]. simpl. split.
  - apply affected_pass_floor.
  - intros Hinv Hfin Hzero. rewrite cascadeLoop_all_below; [done|].
    intros from e He. apply impact_zero_level; [|done].
    rewrite (currentGraph_constructed st Hinv) in He.
    by apply (built_weightsOk Hfin from).
Qed.

End Simulator.

(** ** Pipeline disruptions on binary64 *)

(** The impact of a pipeline edge, as the code computes it. *)
Definition pipelineImpact (disruptionLevel : float) : float :=
  (0.2 * disruptionLevel * (1 - 0.3))%float.

(** The shape of the [outgoing] index of the built graph: edges are filed
    under their source, lead to a country, and leave a cable or a pipeline;
    those that leave a pipeline carry the pipeline literals. *)
Definition pipelineWeights (e : DependencyEdge) : Prop :=
  strength e = 0.2%float ∧ redundancy e = 0.3%float ∧ edge_metadata e = None.

Definition builtShape (e : DependencyEdge) : Prop :=
  id_kind (edge_to e) = Some NCountry
  ∧ (id_kind (edge_from e) = Some NCable
     ∨ (id_kind (edge_from e) = Some NPipeline ∧ pipelineWeights e)).

Definition shapeOk (graph : DependencyGraph) : Prop :=
  ∀ from e, e ∈ default [] (outgoing graph !! from) → edge_from e = from ∧ builtShape e.

Lemma shapeOk_empty : shapeOk empty_graph.
Proof. intros from e He. simpl in He. rewrite lookup_empty in He. by apply elem_of_nil in He. Qed.

Lemma shapeOk_addEdge graph e :
  builtShape e → shapeOk graph → shapeOk (addEdge graph e).
Proof.
  intros He Hg from e'. cbn [outgoing addEdge]. unfold index_push.
  destruct (decide (edge_from e = from)) as [<-|Hne].
  - rewrite lookup_insert_eq. cbn [default]. intros Hin.
    apply elem_of_app in Hin as [Hin|Hin]; [by apply (Hg (edge_from e))|].
    apply list_elem_of_singleton in Hin. by subst e'.
  - rewrite lookup_insert_ne by done. apply Hg.
Qed.

Lemma foldl_shapeOk {A} (step : DependencyGraph → A → DependencyGraph) (l : list A) :
  (∀ g x, shapeOk g → shapeOk (step g x)) →
  ∀ g, shapeOk g → shapeOk (foldl step g l).
Proof.
  intros Hstep. induction l as [|x l IH]; intros g Hg; simpl; [done|].
  by apply IH, Hstep.
Qed.

Lemma built_shapeOk cables pipelines ports waterways :
  shapeOk (constructGraph cables pipelines ports waterways).
Proof.
  unfold constructGraph, buildPipelineCountryEdges, buildCableCountryEdges,
    addCountriesAsNodes, addChokepointsAsNodes, addPortsAsNodes,
    addPipelinesAsNodes, addCablesAsNodes.
  apply foldl_shapeOk.
  { intros g p Hg. unfold pipelineEdges. apply foldl_shapeOk; [|done].
    intros g' c Hg'. destruct (nodes g' !! _); [|done].
    apply shapeOk_addEdge; [|done]. split; [apply id_kind_country|].
    right. split; [apply id_kind_pipeline|done]. }
  apply foldl_shapeOk.
  { intros g c Hg. unfold cableEdges. apply foldl_shapeOk.
    - intros g' lp Hg'. apply shapeOk_addEdge; [|done].
      split; [apply id_kind_country|]. left. apply id_kind_cable.
    - apply foldl_shapeOk; [|done].
      intros g' cs Hg'. apply shapeOk_addEdge; [|done].
      split; [apply id_kind_country|]. left. apply id_kind_cable. }
  repeat (apply foldl_shapeOk; [by intros|]).
  apply shapeOk_empty.
Qed.

Lemma or_zero_pipeline : Num.or_zero 0.3 = 0.3%float.
Proof. vm_compute. reflexivity. Qed.

Lemma pipeline_not_redundant : Num.gtb (Num.or_zero 0.3) 0.3 = false.
Proof. vm_compute. reflexivity. Qed.

Lemma pipeline_edge_impact e level :
  pipelineWeights e → impactStrength e level = pipelineImpact level.
Proof.
  intros (Hs & Hr & _). unfold impactStrength, pipelineImpact.
  by rewrite Hs, Hr, or_zero_pipeline.
Qed.

Section PipelineLoop.

Variable graph : DependencyGraph.
Variable disruptionLevel : float.
Variable pipelineId : string.

Hypothesis graph_shape : shapeOk graph.
Hypothesis source_kind : id_kind pipelineId = Some NPipeline.

(** What every entry of a pipeline cascade looks like. *)
Definition pipelineEntry (an : CascadeAffectedNode) : Prop :=
  impactLevel an = categorizeImpact (pipelineImpact disruptionLevel)
  ∧ redundancyAvailable an = false
  ∧ estimatedRecovery an = None
  ∧ pathLength an = 1
  ∧ Num.ltb (pipelineImpact disruptionLevel) 0.05 = false.

Definition pipelineInv (st : LoopState) : Prop :=
  Forall (fun item => (nodeId item = pipelineId ∧ depth item = 0)
                      ∨ id_kind (nodeId item) = Some NCountry) (queue st)
  ∧ Forall (fun kv => pipelineEntry kv.2) (affected st).

Lemma visitEdge_pipelineInv item st e :
  (nodeId item = pipelineId ∧ depth item = 0) ∨ id_kind (nodeId item) = Some NCountry →
  e ∈ default [] (outgoing graph !! nodeId item) →
  pipelineInv st →
  pipelineInv (visitEdge graph disruptionLevel (depth item) (path item) st e).
Proof.
  intros Hitem He [Hq Ha].
  destruct (graph_shape _ _ He) as (Hfrom & Hto & Hkind).
  assert (nodeId item = pipelineId ∧ depth item = 0 ∧ pipelineWeights e)
    as (Hid & Hdepth & Hw).
  { destruct Hitem as [[Hid Hd]|Hc].
    - rewrite Hfrom, Hid, source_kind in Hkind.
      destruct Hkind as [?|[_ ?]]; [done|done].
    - rewrite Hfrom, Hc in Hkind. destruct Hkind as [?|[? _]]; done. }
  unfold visitEdge.
  destruct (decide (edge_to e ∈ visited st)); [done|].
  destruct (nodes graph !! edge_to e) as [targetNode|]; [|done].
  rewrite (pipeline_edge_impact e disruptionLevel Hw).
  destruct (Num.ltb _ _) eqn:Hlt; [done|].
  split; cbn [queue affected].
  - apply Forall_app. split; [done|]. constructor; [|done]. by right.
  - apply OrderedMap_set_Forall; [|done]. cbn [snd]. unfold pipelineEntry.
    cbn [impactLevel redundancyAvailable estimatedRecovery pathLength].
    destruct Hw as (_ & Hr & Hm). rewrite Hr, Hm, Hdepth, pipeline_not_redundant.
    done.
Qed.

Lemma cascadeLoop_pipelineInv :
  pipelineInv (cascadeLoop graph disruptionLevel (startState pipelineId)).
Proof.
  apply loop_invariant.
  - intros a v item rest [Hq Ha]. cbn [queue affected] in *.
    apply Forall_cons in Hq as [Hitem Hq]. unfold expand.
    destruct (Nat.leb 3 (depth item)); [by split|].
    apply visits_invariant; [|by split].
    intros st e He Hst. by apply visitEdge_pipelineInv.
  - split; cbn [queue affected startState]; [|by constructor].
    constructor; [|done]. by left.
Qed.

End PipelineLoop.

Section PipelineCascade.

Variable UNDERSEA_CABLES : list UnderseaCable.
Variable PIPELINES : list Pipeline.
Variable PORTS : list Port.
Variable STRATEGIC_WATERWAYS : list Waterway.

(** X9, on binary64: whatever the dataset and the disruption level, every
    node affected by a pipeline disruption is one hop away and gets the
    level of the impact [0.2 * level * (1 - 0.3)] as binary64 computes it,
    with no redundancy flagged and no recovery estimate; and when that
    impact is below 0.05 nothing is affected. *)
Theorem pipeline_level st id disruptionLevel r :
  stateInv UNDERSEA_CABLES PIPELINES PORTS STRATEGIC_WATERWAYS st →
  (calculateCascade UNDERSEA_CABLES PIPELINES PORTS STRATEGIC_WATERWAYS
     ("pipeline:" +:+ id) disruptionLevel st).1 = Some r →
  Forall (fun an => impactLevel an = categorizeImpact (pipelineImpact disruptionLevel)
                    ∧ redundancyAvailable an = false
                    ∧ estimatedRecovery an = None
                    ∧ pathLength an = 1)
         (affectedNodes r)
  ∧ (Num.ltb (pipelineImpact disruptionLevel) 0.05 = true → affectedNodes r = []).
Proof.
  intros Hinv Hr. rewrite calculateCascade_cascadeOn in Hr.
  unfold cascadeOn in Hr. cbn [fst] in Hr.
  rewrite (currentGraph_constructed _ _ _ _ st Hinv) in Hr.
  destruct (nodes _ !! _) as [src|]; [|done]. cbn [mbind option_bind] in Hr.
  injection Hr as <-. cbn [affectedNodes].
  pose proof (cascadeLoop_pipelineInv
                (constructGraph UNDERSEA_CABLES PIPELINES PORTS STRATEGIC_WATERWAYS)
                disruptionLevel ("pipeline:" +:+ id)
                (built_shapeOk _ _ _ _) (id_kind_pipeline id)) as [_ Hentries].
  set (final := cascadeLoop _ _ _) in *.
  assert (Forall (pipelineEntry disruptionLevel) (OrderedMap.values (affected final)))
    as Hall by (unfold OrderedMap.values; by apply Forall_fmap).
  split.
  - eapply Forall_impl; [exact Hall|]. by intros an (? & ? & ? & ? & _).
  - intros Hbelow. destruct (OrderedMap.values (affected final)) as [|an l]; [done|].
    apply Forall_cons in Hall as [(_ & _ & _ & _ & Hnot) _].
    rewrite Hbelow in Hnot. discriminate Hnot.
Qed.

End PipelineCascade.

(** ** Runs on binary64 *)

Definition cableAB : UnderseaCable :=
  {| cable_id := "ab-link";
     cable_name := "AB Link";
     cable_points := None;
     capacityTbps := None;
     rfsYear := None;
     owners := None;
     landingPoints := None;
     countriesServed :=
       Some [ {| cs_country := "A"; capacityShare := 0.6; isRedundant := false |};
              {| cs_country := "B"; capacityShare := 0.4; isRedundant := true |} ] |}.

Definition cableNorth : UnderseaCable :=
  {| cable_id := "north";
     cable_name := "North Link";
     cable_points := Some [(1, 2); (3, 4)]%float;
     capacityTbps := Some 160%float;
     rfsYear := Some 2020%Z;
     owners := Some ["Carrier"];
     landingPoints := Some [ {| lp_country := "GB"; lp_name := "Bude" |} ];
     countriesServed :=
       Some [ {| cs_country := "US"; capacityShare := 0.9; isRedundant := false |};
              {| cs_country := "B"; capacityShare := 0.5; isRedundant := false |} ] |}.

(** A cable whose only share sits on the floor at level 0.13333333333333333. *)
Definition cableEdge : UnderseaCable :=
  {| cable_id := "edge";
     cable_name := "Edge Link";
     cable_points := None;
     capacityTbps := None;
     rfsYear := None;
     owners := None;
     landingPoints := None;
     countriesServed :=
       Some [ {| cs_country := "A"; capacityShare := 0.75; isRedundant := true |} ] |}.

Definition pipelineWest : Pipeline :=
  {| pipeline_id := "west";
     pipeline_name := "West Line";
     pipeline_type := "oil";
     pipeline_status := "operating";
     pipeline_capacity := None;
     pipeline_operator := None;
     pipeline_countries := Some ["USA"; "Canada"; "MX"];
     pipeline_points := None |}.

Definition cables := [cableAB; cableNorth; cableEdge].
Definition pipelines := [pipelineWest].
Definition ports : list Port := [].
Definition waterways : list Waterway := [].

Definition affectedIds (r : option CascadeResult) : option (list (string * CascadeImpactLevel)) :=
  (fun r => (fun an => (node_id (node an), impactLevel an)) <$> affectedNodes r) <$> r.

(** The scenario of the first part, on binary64: 0.6 is high, and
    [0.4 * 1 * (1 - 0.5)] is the double 0.2, which is not above 0.2. *)
Example ab_cascade_binary64 :
  affectedIds (calculateCascade cables pipelines ports waterways "cable:ab-link" 1 initialState).1
  = Some [("country:A", High); ("country:B", Low)].
Proof. vm_compute. reflexivity. Qed.

(** On the floor: [0.75 * 0.13333333333333333 * (1 - 0.5)] is computed as
    the double 0.05, which the test does not reject, although the exact
    product of the three doubles is below one twentieth. *)
Example floor_boundary_binary64 :
  PrimFloat.eqb (0.75 * 0.13333333333333333 * (1 - 0.5)) 0.05 = true
  ∧ affectedIds (calculateCascade cables pipelines ports waterways
                   "cable:edge" 0.13333333333333333 initialState).1
    = Some [("country:A", Low)].
Proof. split; vm_compute; reflexivity. Qed.

(** A pipeline at the double nearest to 10/7: the computed impact is not
    above 0.2, so the three countries are low. *)
Example pipeline_boundary_binary64 :
  affectedIds (calculateCascade cables pipelines ports waterways
                 "pipeline:west" 1.4285714285714286 initialState).1
  = Some [("country:US", Low); ("country:CA", Low); ("country:MX", Low)].
Proof. vm_compute. reflexivity. Qed.

(** A [NaN] level is let through by the test and recorded as low. *)
Example nan_cascade_binary64 :
  affectedIds (calculateCascade cables pipelines ports waterways "cable:north" nan initialState).1
  = Some [("country:US", Low); ("country:B", Low); ("country:GB", Low)].
Proof. vm_compute. reflexivity. Qed.

Lemma cables_sharesFinite : sharesFinite cables.
Proof.
  intros c cs Hc Hcs.
  repeat (apply elem_of_cons in Hc as [->|Hc]);
    [| | |by apply elem_of_nil in Hc];
    cbn [countriesServed cableAB cableNorth cableEdge Js.opt_list] in Hcs;
    repeat (apply elem_of_cons in Hcs as [->|Hcs]);
    try (by apply elem_of_nil in Hcs); vm_compute; reflexivity.
Defined.

Lemma start_inv : stateInv cables pipelines ports waterways initialState.
Proof. intros g Hg. vm_compute in Hg. discriminate. Defined.

Lemma noise_floor_witness :
  nodes (currentGraph cables pipelines ports waterways initialState) !! "cable:north"
  = Some (cableNode cableNorth)
  ∧ (∃ r, (calculateCascade cables pipelines ports waterways
             "cable:north" 1 initialState).1 = Some r
          ∧ length (affectedNodes r) = 3
          ∧ Forall (fun an =>
                      ∃ e, underlyingEdge
                             (currentGraph cables pipelines ports waterways initialState)
                             1 an e
                           ∧ passesFloor (impactStrength e 1))
                   (affectedNodes r))
  ∧ (∃ r, (calculateCascade cables pipelines ports waterways
             "cable:north" 0 initialState).1 = Some r
          ∧ affectedNodes r = []).
Proof.
  assert (nodes (currentGraph cables pipelines ports waterways initialState)
            !! "cable:north" = Some (cableNode cableNorth)) as Hsrc
    by (vm_compute; reflexivity).
  split; [exact Hsrc|]. split.
  - destruct (noise_floor cables pipelines ports waterways initialState
                "cable:north" 1 (cableNode cableNorth) Hsrc) as (r & Hr & Hfloor & _).
    exists r. split; [exact Hr|]. split; [|exact Hfloor].
    vm_compute in Hr. injection Hr as <-. reflexivity.
  - destruct (noise_floor cables pipelines ports waterways initialState
                "cable:north" 0 (cableNode cableNorth) Hsrc) as (r & Hr & _ & Hzero).
    exists r. split; [exact Hr|].
    apply Hzero; [exact start_inv|exact cables_sharesFinite|vm_compute; reflexivity].
Defined.

(** The floor as a lower bound fails for a [NaN] level: the call records
    an entry for an edge whose impact is [NaN], and no edge whatever has an
    impact of at least 0.05 then. *)
Lemma noise_floor_fails_for_nan :
  ∃ r an,
    (calculateCascade cables pipelines ports waterways "cable:north" nan initialState).1
    = Some r
    ∧ an ∈ affectedNodes r
    ∧ (∃ e, underlyingEdge (currentGraph cables pipelines ports waterways initialState)
              nan an e
            ∧ PrimFloat.is_nan (impactStrength e nan) = true)
    ∧ ∀ e, PrimFloat.leb 0.05 (impactStrength e nan) = false.
Proof.
  pose proof (calculateCascade_cascadeOn cables pipelines ports waterways
                "cable:north" nan initialState) as Hon.
  unfold cascadeOn in Hon.
  assert (nodes (currentGraph cables pipelines ports waterways initialState)
            !! "cable:north" = Some (cableNode cableNorth)) as Hsrc
    by (vm_compute; reflexivity).
  rewrite Hsrc in Hon. cbn [mbind option_bind] in Hon.
  pose proof (affected_pass_floor
                (currentGraph cables pipelines ports waterways initialState)
                "cable:north" nan) as Hall.
  destruct (OrderedMap.values _) as [|an l] eqn:Han.
  - vm_compute in Han. discriminate Han.
  - rewrite Hon. cbn [fst]. eexists. exists an.
    split; [reflexivity|]. cbn [affectedNodes]. split; [by left|].
    apply Forall_cons in Hall as [(e & He & _) _].
    split; [|intros e'; apply impact_nan].
    exists e. split; [exact He|]. apply impact_nan.
Qed.

Lemma pipeline_level_witness :
  stateInv cables pipelines ports waterways initialState
  ∧ ∃ r, (calculateCascade cables pipelines ports waterways
            ("pipeline:" +:+ "west") 1.4285714285714286 initialState).1 = Some r
         ∧ length (affectedNodes r) = 3
         ∧ Forall (fun an => impactLevel an = Low ∧ redundancyAvailable an = false)
                  (affectedNodes r).
Proof.
  split; [exact start_inv|].
  destruct (calculateCascade cables pipelines ports waterways
              ("pipeline:" +:+ "west") 1.4285714285714286 initialState).1
    as [r|] eqn:Hr; [|vm_compute in Hr; discriminate].
  exists r. split; [reflexivity|]. split.
  - vm_compute in Hr. injection Hr as <-. reflexivity.
  - eapply Forall_impl;
      [exact (proj1 (pipeline_level cables pipelines ports waterways initialState
                       "west" 1.4285714285714286 r start_inv Hr))|].
    intros an (Hlevel & Hred & _). split; [|exact Hred].
    rewrite Hlevel. vm_compute. reflexivity.
Defined.

End Binary64.

(** * The social monitoring service

    The second part of the file keeps sources, assets and messages in
    [localStorage] and matches messages against keyword assets.

    Modelling conventions.
    - [localStorage] is a record with one slot per storage key of
      [SOCIAL_STORAGE_KEYS] (the keys are taken to be distinct).  A slot is
      absent, holds text that [JSON.parse] rejects (or the empty string), or
      holds the JSON text of a value this module saved; [JSON.parse] of
      [JSON.stringify x] is taken to give [x] back.  Storage quota is not
      modelled.
    - A [Date] is its time value in milliseconds ([Z]); invalid dates are
      outside the model.
    - [String.prototype.toLowerCase] is a parameter of the matching
      functions. *)

Module JsList.

(** [arr.findIndex(p)] *)
Fixpoint findIndex {A} (p : A → bool) (l : list A) : Z :=
  match l with
  | [] => -1
  | x :: l' => if p x then 0 else
                 let i := findIndex p l' in
                 if (i <? 0)%Z then -1 else (i + 1)
  end%Z.

(** [arr.slice(0, n)] for an integer [n]: a negative [n] counts from the end. *)
Definition slice0 {A} (n : Z) (l : list A) : list A :=
  if (0 <=? n)%Z then take (Z.to_nat n) l
  else take (length l - Z.to_nat (- n)) l.

(** [s.includes(sub)] on strings *)
Fixpoint includes (s sub : string) : bool :=
  String.prefix sub s
  || match s with
     | EmptyString => false
     | String _ s' => includes s' sub
     end.

End JsList.

Lemma findIndex_none {A} (p : A → bool) (l : list A) :
  (JsList.findIndex p l < 0)%Z ↔ Forall (fun x => p x = false) l.
Proof.
  induction l as [|x l IH]; simpl.
  - split; [by constructor|lia].
  - destruct (p x) eqn:Hp.
    + split; [lia|]. intros H. apply Forall_cons in H as [? _]. congruence.
    + destruct (Z.ltb_spec (JsList.findIndex p l) 0) as [Hlt|Hge].
      * split; [|lia]. intros _. constructor; [done|]. by apply IH.
      * split; [lia|]. intros H. apply Forall_cons in H as [_ H].
        apply IH in H. lia.
Qed.

Lemma findIndex_range {A} (p : A → bool) (l : list A) :
  (-1 <= JsList.findIndex p l < Z.of_nat (length l))%Z.
Proof.
  induction l as [|x l IH]; simpl; [lia|].
  destruct (p x); [lia|]. destruct (Z.ltb_spec (JsList.findIndex p l) 0); lia.
Qed.

Lemma findIndex_some {A} (p : A → bool) (l : list A) :
  (0 <= JsList.findIndex p l)%Z →
  ∃ x, l !! Z.to_nat (JsList.findIndex p l) = Some x ∧ p x = true
       ∧ Forall (fun y => p y = false) (take (Z.to_nat (JsList.findIndex p l)) l).
Proof.
  induction l as [|x l IH]; simpl; [lia|].
  destruct (p x) eqn:Hp.
  - intros _. exists x. simpl. by repeat split.
  - destruct (Z.ltb_spec (JsList.findIndex p l) 0) as [Hlt|Hge]; [lia|].
    intros _. destruct (IH Hge) as (y & Hy & Hpy & Hbefore).
    exists y. replace (Z.to_nat (JsList.findIndex p l + 1)) with (S (Z.to_nat (JsList.findIndex p l)))
      by lia.
    simpl. split; [done|]. split; [done|]. by constructor.
Qed.

Lemma includes_empty s : JsList.includes s "" = true.
Proof. by destruct s. Qed.

Lemma prefix_split sub s :
  String.prefix sub s = true → ∃ after, s = sub +:+ after.
Proof.
  revert s. induction sub as [|c sub IH]; intros s H; [by exists s|].
  destruct s as [|c' s]; simpl in H; [done|].
  destruct (Ascii.ascii_dec c c') as [->|]; [|done].
  destruct (IH s H) as [after ->]. by exists after.
Qed.

Lemma includes_iff s sub :
  JsList.includes s sub = true ↔ ∃ before after, s = before +:+ sub +:+ after.
Proof.
  induction s as [|c s IH]; cbn [JsList.includes].
  - rewrite orb_false_r. split.
    + intros H. apply prefix_split in H as [after H]. by exists "", after.
    + intros (before & after & H). destruct before; [|done]. by destruct sub.
  - rewrite orb_true_iff, IH. split.
    + intros [H|(before & after & ->)].
      * apply prefix_split in H as [after H]. exists "", after. exact H.
      * by exists (String c before), after.
    + intros (before & after & H). destruct before as [|c' before].
      * left. change ("" +:+ sub +:+ after) with (sub +:+ after) in H.
        rewrite H. apply prefix_app.
      * right. injection H as -> ->. by exists before, after.
Qed.

Module Social.

(** ** Data (types of [@/types/social], as the service reads them) *)

Record SocialSource := {
  source_id : string;
  source_platform : string;
  channelId : string;
  displayName : string;
  description : option string;
  source_status : string;
  messageCount : Z;
  addedAt : Z;
}.

Record AssetKeyword := {
  keyword_id : string;
  value : string;
  exclude : bool;
}.

Inductive MatchMode := MatchAny | MatchAll.

Record SocialAsset := {
  asset_id : string;
  asset_name : string;
  color : string;
  keywords : list AssetKeyword;
  matchMode : MatchMode;
  sourceIds : list string;
  enabled : bool;
  createdAt : Z;
}.

Record SocialMessage := {
  message_id : string;
  message_sourceId : string;
  message_platform : string;
  channelName : string;
  text : string;
  postedAt : Z;
  collectedAt : Z;
  url : string;
  matchedAssetIds : list string;
}.

Record SocialCollectorConfig := {
  collectorUrl : string;
  maxMessages : Z;
}.

(** ** Storage *)

Inductive Slot (T : Type) :=
| Absent
| Unparsable
| Stored (v : T).
Arguments Absent {T}.
Arguments Unparsable {T}.
Arguments Stored {T} v.

Record LocalStorage := {
  SOURCES : Slot (list SocialSource);
  ASSETS : Slot (list SocialAsset);
  MESSAGES : Slot (list SocialMessage);
  CONFIG : Slot SocialCollectorConfig;
}.

Definition emptyStorage : LocalStorage :=
  {| SOURCES := Absent; ASSETS := Absent; MESSAGES := Absent; CONFIG := Absent |}.

(** [loadJSON(key, fallback)]: the stored value, or the fallback when the
    key is absent or its text does not parse. *)
Definition loadJSON {T} (slot : Slot T) (fallback : T) : T :=
  match slot with
  | Stored v => v
  | Absent | Unparsable => fallback
  end.

Section Service.

Variable toLowerCase : string → string.
Variable DEFAULT_SOCIAL_COLLECTOR_CONFIG : SocialCollectorConfig.

(** *** Sources *)

Definition getSources (ls : LocalStorage) : list SocialSource :=
  loadJSON (SOURCES ls) [].

Definition saveSources (sources : list SocialSource) (ls : LocalStorage) : LocalStorage :=
  {| SOURCES := Stored sources; ASSETS := ASSETS ls;
     MESSAGES := MESSAGES ls; CONFIG := CONFIG ls |}.

Definition saveSource (source : SocialSource) (ls : LocalStorage) : LocalStorage :=
  let sources := getSources ls in
  let idx := JsList.findIndex (fun s => String.eqb (source_id s) (source_id source)) sources in
  let sources :=
    if (0 <=? idx)%Z then <[Z.to_nat idx := source]> sources
    else sources ++ [source] in
  saveSources sources ls.

Definition deleteSource (id : string) (ls : LocalStorage) : LocalStorage :=
  let sources :=
    List.filter (fun s => negb (String.eqb (source_id s) id)) (getSources ls) in
  saveSources sources ls.

(** *** Assets *)

Definition getAssets (ls : LocalStorage) : list SocialAsset :=
  loadJSON (ASSETS ls) [].

Definition saveAssets (assets : list SocialAsset) (ls : LocalStorage) : LocalStorage :=
  {| SOURCES := SOURCES ls; ASSETS := Stored assets;
     MESSAGES := MESSAGES ls; CONFIG := CONFIG ls |}.

Definition saveAsset (asset : SocialAsset) (ls : LocalStorage) : LocalStorage :=
  let assets := getAssets ls in
  let idx := JsList.findIndex (fun a => String.eqb (asset_id a) (asset_id asset)) assets in
  let assets :=
    if (0 <=? idx)%Z then <[Z.to_nat idx := asset]> assets
    else assets ++ [asset] in
  saveAssets assets ls.

Definition deleteAsset (id : string) (ls : LocalStorage) : LocalStorage :=
  let assets :=
    List.filter (fun a => negb (String.eqb (asset_id a) id)) (getAssets ls) in
  saveAssets assets ls.

(** *** Collector config and messages *)

Definition getConfig (ls : LocalStorage) : SocialCollectorConfig :=
  loadJSON (CONFIG ls) DEFAULT_SOCIAL_COLLECTOR_CONFIG.

Definition saveConfig (config : SocialCollectorConfig) (ls : LocalStorage) : LocalStorage :=
  {| SOURCES := SOURCES ls; ASSETS := ASSETS ls;
     MESSAGES := MESSAGES ls; CONFIG := Stored config |}.

Definition getMessages (ls : LocalStorage) : list SocialMessage :=
  loadJSON (MESSAGES ls) [].

Definition storeMessages (messages : list SocialMessage) (ls : LocalStorage) : LocalStorage :=
  {| SOURCES := SOURCES ls; ASSETS := ASSETS ls;
     MESSAGES := Stored messages; CONFIG := CONFIG ls |}.

Definition saveMessages (messages : list SocialMessage) (ls : LocalStorage) : LocalStorage :=
  let config := getConfig ls in
  let trimmed := JsList.slice0 (maxMessages config) messages in
  storeMessages trimmed ls.

(** [(a, b) => new Date(b.postedAt).getTime() - new Date(a.postedAt).getTime()] *)
Definition newestFirst (a b : SocialMessage) : Q :=
  inject_Z (postedAt b - postedAt a).

Definition addMessages (newMsgs : list SocialMessage) (ls : LocalStorage)
    : list SocialMessage * LocalStorage :=
  let existing := getMessages ls in
  let existingIds : gset string := list_to_set (message_id <$> existing) in
  let unique :=
    List.filter (fun m => negb (bool_decide (message_id m ∈ existingIds))) newMsgs in
  let merged := js_sort newestFirst (unique ++ existing) in
  (merged, saveMessages merged ls).

Definition clearMessages (ls : LocalStorage) : LocalStorage := storeMessages [] ls.

(** *** Keyword matching engine *)

Definition matchesKeyword (text : string) (keyword : AssetKeyword) : bool :=
  let lowerText := toLowerCase text in
  let lowerValue := toLowerCase (value keyword) in
  JsList.includes lowerText lowerValue.

Definition matchesAsset (text : string) (asset : SocialAsset) : bool :=
  if negb (enabled asset) || Nat.eqb (length (keywords asset)) 0 then false
  else
    let includes := List.filter (fun k => negb (exclude k)) (keywords asset) in
    let excludes := List.filter (fun k => exclude k) (keywords asset) in
    if existsb (matchesKeyword text) excludes then false
    else if Nat.eqb (length includes) 0 then true
    else
      match matchMode asset with
      | MatchAll => forallb (matchesKeyword text) includes
      | MatchAny => existsb (matchesKeyword text) includes
      end.

Definition tagMessageWithAssets (message : SocialMessage) (ls : LocalStorage)
    : SocialMessage :=
  let assets := getAssets ls in
  let matched :=
    asset_id <$>
      List.filter
        (fun a =>
           if Nat.ltb 0 (length (sourceIds a))
              && negb (bool_decide (message_sourceId message ∈ sourceIds a))
           then false
           else matchesAsset (text message) a)
        assets in
  {| message_id := message_id message;
     message_sourceId := message_sourceId message;
     message_platform := message_platform message;
     channelName := channelName message;
     text := text message;
     postedAt := postedAt message;
     collectedAt := collectedAt message;
     url := url message;
     matchedAssetIds := matched |}.

(** *** Mock sources *)

Definition MOCK_CHANNELS : list (string * string * string) :=
  [ ("mock-ch1", "@ukraine_news", "Ukraine News");
    ("mock-ch2", "@world_crisis", "World Crisis Monitor");
    ("mock-ch3", "@cyber_alerts", "Cyber Alerts");
    ("mock-ch4", "@geopolitics_daily", "Geopolitics Daily") ].

(** The source [initMockSources] saves for a channel; [now] is the value of
    [new Date()] at that moment. *)
Definition mockSource (now : Z) (ch : string * string * string) : SocialSource :=
  {| source_id := ch.1.1;
     source_platform := "telegram";
     channelId := ch.1.2;
     displayName := ch.2;
     description := None;
     source_status := "active";
     messageCount := 0;
     addedAt := now |}.

(** [clock i] is the time at which the [i]-th channel is saved. *)
Definition initMockSources (clock : nat → Z) (ls : LocalStorage) : LocalStorage :=
  let existing := getSources ls in
  if Nat.ltb 0 (length existing) then ls
  else foldl (fun ls '(i, ch) => saveSource (mockSource (clock i) ch) ls) ls
             (imap (fun i ch => (i, ch)) MOCK_CHANNELS).

End Service.

End Social.

(** ** Sorting with a comparator, in general *)

Section JsSort.

Context {A : Type} (cmp : A → A → Q) (R : A → A → Prop).

Hypothesis cmp_keep : ∀ x y, Js.gtb (cmp x y) 0 = false → R x y.
Hypothesis cmp_swap : ∀ x y, Js.gtb (cmp x y) 0 = true → R y x.
Hypothesis R_trans : ∀ x y z, R x y → R y z → R x z.

Lemma sort_insert_sorted_by x l :
  StronglySorted R l → StronglySorted R (sort_insert cmp x l).
Proof.
  induction 1 as [|y l Hl IH Hy]; simpl.
  - repeat constructor.
  - destruct (Js.gtb (cmp x y) 0) eqn:E.
    + apply cmp_swap in E. constructor; [done|].
      rewrite sort_insert_perm. by constructor.
    + apply cmp_keep in E. constructor; [by constructor|].
      constructor; [done|].
      eapply Forall_impl; [exact Hy|]. intros z Hz. by eapply R_trans.
Qed.

Lemma js_sort_sorted_by l : StronglySorted R (js_sort cmp l).
Proof.
  induction l as [|x l IH]; simpl; [constructor|].
  by apply sort_insert_sorted_by.
Qed.

End JsSort.

(** Sorting leaves alone a list the comparator already accepts. *)
Lemma js_sort_sorted_id {A} (cmp : A → A → Q) (R : A → A → Prop) (l : list A) :
  (∀ x y, R x y → Js.gtb (cmp x y) 0 = false) →
  StronglySorted R l → js_sort cmp l = l.
Proof.
  intros HR. induction 1 as [|x l Hl IH Hx]; [done|].
  unfold js_sort in *. simpl. rewrite IH.
  destruct l as [|y l]; [done|]. simpl.
  apply Forall_cons in Hx as [Hxy _]. by rewrite (HR _ _ Hxy).
Qed.

(** ** Insert-or-replace by id *)

Section Upsert.

Context {A : Type} (key : A → string).

(** The list [saveSource] and [saveAsset] write back. *)
Definition upsert (x : A) (l : list A) : list A :=
  let idx := JsList.findIndex (fun y => String.eqb (key y) (key x)) l in
  if (0 <=? idx)%Z then <[Z.to_nat idx := x]> l else l ++ [x].

Lemma find_app_none (p : A → bool) l1 l2 :
  Forall (fun y => p y = false) l1 → List.find p (l1 ++ l2) = List.find p l2.
Proof. induction 1 as [|y l1 Hy _ IH]; simpl; [done|]. by rewrite Hy. Qed.

Lemma upsert_cases x l :
  (Forall (fun y => key y ≠ key x) l ∧ upsert x l = l ++ [x])
  ∨ ∃ l1 y l2, l = l1 ++ y :: l2 ∧ key y = key x
               ∧ Forall (fun y => key y ≠ key x) l1
               ∧ upsert x l = l1 ++ x :: l2.
Proof.
  unfold upsert.
  set (p := fun y => String.eqb (key y) (key x)).
  destruct (Z.leb_spec 0 (JsList.findIndex p l)) as [Hge|Hlt].
  - right. destruct (findIndex_some p l Hge) as (y & Hy & Hpy & Hbefore).
    set (i := Z.to_nat (JsList.findIndex p l)) in *.
    exists (take i l), y, (drop (S i) l).
    split; [by rewrite take_drop_middle|].
    split; [by apply String.eqb_eq|]. split.
    + eapply Forall_impl; [exact Hbefore|]. intros z Hz. by apply String.eqb_neq.
    + apply insert_take_drop. by eapply lookup_lt_Some.
  - left. apply findIndex_none in Hlt. split; [|done].
    eapply Forall_impl; [exact Hlt|]. intros z Hz. by apply String.eqb_neq.
Qed.

Lemma not_elem_of_keys l k :
  Forall (fun y => key y ≠ k) l ↔ k ∉ key <$> l.
Proof.
  rewrite Forall_forall, list_elem_of_fmap. split.
  - intros H (y & -> & Hy). by apply (H y).
  - intros H y Hy Heq. apply H. by exists y.
Qed.

Lemma upsert_spec x l :
  List.find (fun y => String.eqb (key y) (key x)) (upsert x l) = Some x
  ∧ key <$> upsert x l
    = (if bool_decide (key x ∈ key <$> l) then key <$> l else (key <$> l) ++ [key x])
  ∧ (∀ y, key y ≠ key x → (y ∈ upsert x l ↔ y ∈ l))
  ∧ (NoDup (key <$> l) → NoDup (key <$> upsert x l)).
Proof.
  assert (∀ l1, Forall (fun y => key y ≠ key x) l1 →
                Forall (fun y => String.eqb (key y) (key x) = false) l1) as Hfalse.
  { intros l1 H. eapply Forall_impl; [exact H|]. intros z Hz. by apply String.eqb_neq. }
  destruct (upsert_cases x l) as [[Hnone ->]|(l1 & y & l2 & -> & Hy & Hl1 & ->)].
  - assert (key x ∉ key <$> l) as Hnotin by by apply not_elem_of_keys.
    split; [|split; [|split]].
    + rewrite find_app_none by auto. simpl. by rewrite String.eqb_refl.
    + rewrite bool_decide_eq_false_2 by done. by rewrite fmap_app.
    + intros z Hz. rewrite elem_of_app, list_elem_of_singleton.
      split; [|by left]. intros [?| ->]; done.
    + intros Hnd. rewrite fmap_app. apply NoDup_app. split; [done|].
      split; [|apply NoDup_singleton].
      intros k Hk Hk'. apply list_elem_of_singleton in Hk'. by subst k.
  - split; [|split; [|split]].
    + rewrite find_app_none by auto. simpl. by rewrite String.eqb_refl.
    + rewrite bool_decide_eq_true_2.
      * rewrite !fmap_app, !fmap_cons. by rewrite Hy.
      * rewrite fmap_app, fmap_cons, Hy. apply elem_of_app. right. by left.
    + intros z Hz. rewrite !elem_of_app, !elem_of_cons.
      split; (intros [?|[ -> |?]]; [by left|congruence|by right; right]).
    + rewrite !fmap_app, !fmap_cons. by rewrite Hy.
Qed.

Lemma filter_key_ne id l :
  Forall (fun y => key y ≠ id) l →
  List.filter (fun y => negb (String.eqb (key y) id)) l = l.
Proof.
  induction 1 as [|y l Hy _ IH]; simpl; [done|].
  by rewrite (proj2 (String.eqb_neq _ _) Hy), IH.
Qed.

Lemma delete_spec id l :
  let l' := List.filter (fun y => negb (String.eqb (key y) id)) l in
  (id ∉ key <$> l')
  ∧ l' `sublist_of` l
  ∧ (∀ y, key y ≠ id → (y ∈ l' ↔ y ∈ l))
  ∧ (id ∉ key <$> l → l' = l).
Proof.
  intros l'. split; [|split; [|split]].
  - intros Hin. apply list_elem_of_fmap in Hin as (y & -> & Hy).
    apply list_elem_of_In, filter_In in Hy as [_ Hy].
    apply negb_true_iff, String.eqb_neq in Hy. done.
  - unfold l'. induction l as [|y l IH]; simpl; [done|].
    destruct (negb _); by constructor.
  - intros y Hy. unfold l'. rewrite !list_elem_of_In, filter_In.
    split; [by intros [? _]|]. intros H. split; [done|].
    by apply negb_true_iff, String.eqb_neq.
  - intros Hnotin. apply filter_key_ne. by apply not_elem_of_keys.
Qed.

Lemma delete_upsert x l :
  key x ∉ key <$> l →
  List.filter (fun y => negb (String.eqb (key y) (key x))) (upsert x l) = l.
Proof.
  intros Hnotin. apply not_elem_of_keys in Hnotin as Hall.
  destruct (upsert_cases x l) as [[_ ->]|(l1 & y & l2 & -> & Hy & _ & _)].
  - rewrite List.filter_app, filter_key_ne by done. simpl.
    by rewrite String.eqb_refl, app_nil_r.
  - destruct Hnotin. rewrite fmap_app, fmap_cons, Hy.
    apply elem_of_app. right. by left.
Qed.

End Upsert.

(** ** Properties of the social monitoring service *)

Import Social.

Section SocialStore.

Variable DEFAULT_SOCIAL_COLLECTOR_CONFIG : SocialCollectorConfig.

Lemma saveSource_upsert_eq source ls :
  getSources (saveSource source ls) = upsert source_id source (getSources ls).
Proof. reflexivity. Qed.

Lemma saveAsset_upsert_eq asset ls :
  getAssets (saveAsset asset ls) = upsert asset_id asset (getAssets ls).
Proof. reflexivity. Qed.

(** X11: [saveSource] is an insert-or-replace by id.  Looking the id up
    afterwards finds exactly the saved source; the order of ids is unchanged
    when the id was already stored and the id is appended otherwise; sources
    with other ids are untouched; distinct ids stay distinct; and the other
    storage keys (assets, messages, config) are not written. *)
Theorem saveSource_upsert (source : SocialSource) (ls : LocalStorage) :
  let before := getSources ls in
  let after := getSources (saveSource source ls) in
  List.find (fun s => String.eqb (source_id s) (source_id source)) after = Some source
  ∧ source_id <$> after
    = (if bool_decide (source_id source ∈ source_id <$> before)
       then source_id <$> before
       else (source_id <$> before) ++ [source_id source])
  ∧ (∀ s, source_id s ≠ source_id source → (s ∈ after ↔ s ∈ before))
  ∧ (NoDup (source_id <$> before) → NoDup (source_id <$> after))
  ∧ ASSETS (saveSource source ls) = ASSETS ls
  ∧ MESSAGES (saveSource source ls) = MESSAGES ls
  ∧ CONFIG (saveSource source ls) = CONFIG ls.
Proof.
  intros before after. unfold after. rewrite saveSource_upsert_eq.
  destruct (upsert_spec source_id source before) as (H1 & H2 & H3 & H4).
  repeat split; try done; by apply H3.
Qed.

(** X12: [deleteSource] removes every source with the given id and nothing
    else: the id is gone afterwards, the remaining sources are the stored
    ones in their order, and deleting an id that is not stored changes
    nothing in the list. *)
Theorem deleteSource_spec (id : string) (ls : LocalStorage) :
  let before := getSources ls in
  let after := getSources (deleteSource id ls) in
  (id ∉ source_id <$> after)
  ∧ after `sublist_of` before
  ∧ (∀ s, source_id s ≠ id → (s ∈ after ↔ s ∈ before))
  ∧ (id ∉ (source_id <$> before) → after = before).
Proof. intros before after. apply (delete_spec source_id id before). Qed.

(** X13: saving a source under an id that is not stored yet and deleting that
    id again restores the stored list of sources. *)
Theorem deleteSource_saveSource (source : SocialSource) (ls : LocalStorage) :
  source_id source ∉ (source_id <$> getSources ls) →
  getSources (deleteSource (source_id source) (saveSource source ls)) = getSources ls.
Proof.
  intros Hfresh.
  change (getSources (deleteSource (source_id source) (saveSource source ls)))
    with (List.filter (fun y => negb (String.eqb (source_id y) (source_id source)))
            (getSources (saveSource source ls))).
  rewrite saveSource_upsert_eq. by apply delete_upsert.
Qed.

(** X14: assets are stored the same way.  [saveAsset] makes the asset the one
    found under its id, keeps assets with other ids and the distinctness of
    ids, and leaves the stored sources alone; [deleteAsset] removes the id
    and only that id; and deleting a freshly saved new id restores the
    list. *)
Theorem asset_store_spec (asset : SocialAsset) (id : string) (ls : LocalStorage) :
  let before := getAssets ls in
  let saved := getAssets (saveAsset asset ls) in
  let deleted := getAssets (deleteAsset id ls) in
  List.find (fun a => String.eqb (asset_id a) (asset_id asset)) saved = Some asset
  ∧ (∀ a, asset_id a ≠ asset_id asset → (a ∈ saved ↔ a ∈ before))
  ∧ (NoDup (asset_id <$> before) → NoDup (asset_id <$> saved))
  ∧ getSources (saveAsset asset ls) = getSources ls
  ∧ (id ∉ asset_id <$> deleted)
  ∧ (∀ a, asset_id a ≠ id → (a ∈ deleted ↔ a ∈ before))
  ∧ (asset_id asset ∉ (asset_id <$> before) →
     getAssets (deleteAsset (asset_id asset) (saveAsset asset ls)) = before).
Proof.
  intros before saved deleted. unfold saved. rewrite saveAsset_upsert_eq.
  destruct (upsert_spec asset_id asset before) as (H1 & _ & H3 & H4).
  destruct (delete_spec asset_id id before) as (D1 & _ & D3 & _).
  repeat split; try done; try (by apply H3); try (by apply D3).
  intros Hfresh.
  change (getAssets (deleteAsset (asset_id asset) (saveAsset asset ls)))
    with (List.filter (fun y => negb (String.eqb (asset_id y) (asset_id asset)))
            (getAssets (saveAsset asset ls))).
  rewrite saveAsset_upsert_eq. by apply delete_upsert.
Qed.

(** X15: [initMockSources] does nothing when any source is stored; on an
    empty source list it stores the four mock channels in order, each stamped
    with the time it was saved; hence running it a second time never changes
    the storage again. *)
Theorem initMockSources_spec (clock : nat → Z) (ls : LocalStorage) :
  (getSources ls ≠ [] → initMockSources clock ls = ls)
  ∧ (getSources ls = [] →
     getSources (initMockSources clock ls)
     = imap (fun i ch => mockSource (clock i) ch) MOCK_CHANNELS)
  ∧ (∀ clock', initMockSources clock' (initMockSources clock ls)
               = initMockSources clock ls).
Proof.
  assert (getSources ls = [] →
          initMockSources clock ls
          = saveSources (imap (fun i ch => mockSource (clock i) ch) MOCK_CHANNELS) ls)
    as Hempty.
  { intros Hnil.
    destruct ls as [[| |sources] assets messages config];
      unfold getSources in Hnil; simpl in Hnil; subst; reflexivity. }
  assert (∀ c, getSources ls ≠ [] → initMockSources c ls = ls) as Hfull'.
  { intros c Hne. unfold initMockSources.
    destruct (getSources ls); [done|reflexivity]. }
  pose proof (Hfull' clock) as Hfull.
  split; [done|]. split.
  - intros Hnil. by rewrite Hempty.
  - intros clock'. destruct (getSources ls) as [|s l] eqn:E.
    + rewrite Hempty by done. reflexivity.
    + rewrite Hfull by done. by apply Hfull'.
Qed.

(** *** Messages *)

Definition newestFirstOrder (a b : SocialMessage) : Prop :=
  (postedAt b <= postedAt a)%Z.

Lemma newestFirst_keep a b :
  Js.gtb (newestFirst a b) 0 = false → newestFirstOrder a b.
Proof.
  unfold newestFirst, newestFirstOrder. intros H.
  apply gtb_false_iff in H. change 0%Q with (inject_Z 0) in H.
  rewrite <- Zle_Qle in H. lia.
Qed.

Lemma newestFirst_swap a b :
  Js.gtb (newestFirst a b) 0 = true → newestFirstOrder b a.
Proof.
  unfold newestFirst, newestFirstOrder. intros H.
  apply gtb_true_iff in H. change 0%Q with (inject_Z 0) in H.
  rewrite <- Zlt_Qlt in H. lia.
Qed.

Lemma newestFirst_sorted_id l :
  StronglySorted newestFirstOrder l → js_sort newestFirst l = l.
Proof.
  apply js_sort_sorted_id. unfold newestFirst, newestFirstOrder. intros a b H.
  apply gtb_false_iff. change 0%Q with (inject_Z 0). rewrite <- Zle_Qle. lia.
Qed.

Lemma List_filter_none {A} (p : A → bool) (l : list A) :
  Forall (fun x => p x = false) l → List.filter p l = [].
Proof. induction 1 as [|x l Hx _ IH]; simpl; [done|]. by rewrite Hx. Qed.

Lemma NoDup_fmap_List_filter {A B} (f : A → B) (p : A → bool) (l : list A) :
  NoDup (f <$> l) → NoDup (f <$> List.filter p l).
Proof.
  induction l as [|x l IH]; simpl; [done|].
  rewrite NoDup_cons. intros [Hx Hl]. destruct (p x); [|by apply IH].
  rewrite fmap_cons. apply NoDup_cons. split; [|by apply IH].
  intros Hin. apply Hx. apply list_elem_of_fmap in Hin as (y & -> & Hy).
  apply list_elem_of_fmap. exists y. split; [done|].
  apply list_elem_of_In, filter_In in Hy as [Hy _]. by apply list_elem_of_In.
Qed.

Definition freshMessages (existing newMsgs : list SocialMessage) : list SocialMessage :=
  List.filter
    (fun m => negb (bool_decide (message_id m ∈ message_id <$> existing))) newMsgs.

Lemma addMessages_merged newMsgs ls :
  (addMessages DEFAULT_SOCIAL_COLLECTOR_CONFIG newMsgs ls).1
  = js_sort newestFirst (freshMessages (getMessages ls) newMsgs ++ getMessages ls).
Proof.
  unfold addMessages, freshMessages. simpl. f_equal. f_equal.
  apply List.filter_ext. intros m. f_equal. apply bool_decide_ext.
  by rewrite elem_of_list_to_set.
Qed.

Lemma addMessages_merge (newMsgs : list SocialMessage) (ls : LocalStorage) :
  let existing := getMessages ls in
  let merged := (addMessages DEFAULT_SOCIAL_COLLECTOR_CONFIG newMsgs ls).1 in
  let ls' := (addMessages DEFAULT_SOCIAL_COLLECTOR_CONFIG newMsgs ls).2 in
  StronglySorted newestFirstOrder merged
  ∧ merged ≡ₚ freshMessages existing newMsgs ++ existing
  ∧ (∀ m, m ∈ existing → m ∈ merged)
  ∧ getMessages ls' = JsList.slice0 (maxMessages (getConfig DEFAULT_SOCIAL_COLLECTOR_CONFIG ls)) merged
  ∧ SOURCES ls' = SOURCES ls ∧ ASSETS ls' = ASSETS ls ∧ CONFIG ls' = CONFIG ls
  ∧ (NoDup (message_id <$> existing) → NoDup (message_id <$> newMsgs) →
     NoDup (message_id <$> merged)).
Proof.
  intros existing merged ls'.
  assert (merged ≡ₚ freshMessages existing newMsgs ++ existing) as Hperm.
  { unfold merged. rewrite addMessages_merged. apply js_sort_perm. }
  split; [|split; [done|split; [|split; [done|split; [done|split; [done|split; [done|]]]]]]].
  - unfold merged. rewrite addMessages_merged.
    apply js_sort_sorted_by.
    + apply newestFirst_keep.
    + apply newestFirst_swap.
    + unfold newestFirstOrder. intros; lia.
  - intros m Hm. rewrite Hperm. apply elem_of_app. by right.
  - intros Hex Hnew. rewrite Hperm, fmap_app. apply NoDup_app. split; [|split; [|done]].
    + by apply NoDup_fmap_List_filter.
    + intros k Hk Hk'. apply list_elem_of_fmap in Hk as (m & -> & Hm).
      apply list_elem_of_In, filter_In in Hm as [_ Hm].
      apply negb_true_iff, bool_decide_eq_false in Hm. done.
Qed.

(** X16: [addMessages] returns the stored messages together with those new
    messages whose id is not stored yet, newest first; nothing stored is
    lost from the returned list; what it stores is the first [maxMessages]
    of that list (for a negative [maxMessages], all but the last
    [-maxMessages]); and ids stay distinct when the stored ids and the ids of
    the batch are distinct. *)
Theorem addMessages_spec (newMsgs : list SocialMessage) (ls : LocalStorage) :
  let existing := getMessages ls in
  let merged := (addMessages DEFAULT_SOCIAL_COLLECTOR_CONFIG newMsgs ls).1 in
  let ls' := (addMessages DEFAULT_SOCIAL_COLLECTOR_CONFIG newMsgs ls).2 in
  StronglySorted newestFirstOrder merged
  ∧ merged ≡ₚ freshMessages existing newMsgs ++ existing
  ∧ (∀ m, m ∈ existing → m ∈ merged)
  ∧ getMessages ls' = JsList.slice0 (maxMessages (getConfig DEFAULT_SOCIAL_COLLECTOR_CONFIG ls)) merged
  ∧ SOURCES ls' = SOURCES ls ∧ ASSETS ls' = ASSETS ls ∧ CONFIG ls' = CONFIG ls
  ∧ (NoDup (message_id <$> existing) → NoDup (message_id <$> newMsgs) →
     NoDup (message_id <$> merged)).
Proof. exact (addMessages_merge newMsgs ls). Qed.

(** X17: when the merged list fits under [maxMessages], adding the same batch
    again changes nothing: every id of the batch is stored by then, so the
    second call returns the same list and writes the same storage. *)
Theorem addMessages_idempotent (newMsgs : list SocialMessage) (ls : LocalStorage) :
  (Z.of_nat (length (addMessages DEFAULT_SOCIAL_COLLECTOR_CONFIG newMsgs ls).1) <= maxMessages (getConfig DEFAULT_SOCIAL_COLLECTOR_CONFIG ls))%Z →
  addMessages DEFAULT_SOCIAL_COLLECTOR_CONFIG newMsgs (addMessages DEFAULT_SOCIAL_COLLECTOR_CONFIG newMsgs ls).2 = addMessages DEFAULT_SOCIAL_COLLECTOR_CONFIG newMsgs ls.
Proof.
  intros Hfits.
  destruct (addMessages_merge newMsgs ls) as (Hsorted & Hperm & Hkeep & Hstored & _).
  set (merged := (addMessages DEFAULT_SOCIAL_COLLECTOR_CONFIG newMsgs ls).1) in *.
  set (ls' := (addMessages DEFAULT_SOCIAL_COLLECTOR_CONFIG newMsgs ls).2) in *.
  assert (getMessages ls' = merged) as Hstored'.
  { rewrite Hstored. unfold JsList.slice0.
    destruct (Z.leb_spec 0 (maxMessages (getConfig DEFAULT_SOCIAL_COLLECTOR_CONFIG ls))); [|lia].
    apply take_ge. lia. }
  assert (freshMessages merged newMsgs = []) as Hnone.
  { unfold freshMessages. apply List_filter_none. apply Forall_forall. intros m Hm.
    apply negb_false_iff, bool_decide_eq_true.
    destruct (decide (message_id m ∈ message_id <$> getMessages ls)) as [Hin|Hnotin].
    - apply list_elem_of_fmap in Hin as (m' & -> & Hm').
      apply list_elem_of_fmap. exists m'. split; [done|]. by apply Hkeep.
    - apply list_elem_of_fmap. exists m. split; [done|].
      rewrite Hperm. apply elem_of_app. left.
      apply list_elem_of_In, filter_In. split; [by apply list_elem_of_In|].
      by apply negb_true_iff, bool_decide_eq_false. }
  assert ((addMessages DEFAULT_SOCIAL_COLLECTOR_CONFIG newMsgs ls').1 = merged) as Hagain.
  { rewrite addMessages_merged, Hstored', Hnone. simpl.
    by apply newestFirst_sorted_id. }
  rewrite (surjective_pairing (addMessages DEFAULT_SOCIAL_COLLECTOR_CONFIG newMsgs ls')).
  rewrite (surjective_pairing (addMessages DEFAULT_SOCIAL_COLLECTOR_CONFIG newMsgs ls)).
  fold merged ls'. f_equal; [done|].
  change ((addMessages DEFAULT_SOCIAL_COLLECTOR_CONFIG newMsgs ls').2)
    with (saveMessages DEFAULT_SOCIAL_COLLECTOR_CONFIG (addMessages DEFAULT_SOCIAL_COLLECTOR_CONFIG newMsgs ls').1 ls').
  rewrite Hagain.
  change ls' with (saveMessages DEFAULT_SOCIAL_COLLECTOR_CONFIG merged ls).
  reflexivity.
Qed.

End SocialStore.

Section SocialMatching.

Variable toLowerCase : string → string.

Lemma existsb_filter_false {A} (p q : A → bool) (l : list A) :
  existsb p (List.filter q l) = false
  ↔ ∀ k, k ∈ l → q k = true → p k = false.
Proof.
  induction l as [|x l IH]; simpl.
  - split; [|done]. intros _ k Hk. by apply elem_of_nil in Hk.
  - destruct (q x) eqn:Hq; simpl.
    + rewrite orb_false_iff, IH. split.
      * intros [Hx Hl] k Hk Hqk. apply elem_of_cons in Hk as [->|Hk]; auto.
      * intros H. split; [apply H; [by left|done]|].
        intros k Hk. apply H. by right.
    + rewrite IH. split.
      * intros Hl k Hk Hqk. apply elem_of_cons in Hk as [->|Hk]; [congruence|auto].
      * intros H k Hk. apply H. by right.
Qed.

Lemma existsb_filter_true {A} (p q : A → bool) (l : list A) :
  existsb p (List.filter q l) = true
  ↔ ∃ k, k ∈ l ∧ q k = true ∧ p k = true.
Proof.
  rewrite existsb_exists. split.
  - intros (k & Hk & Hp). apply filter_In in Hk as [Hk Hq].
    exists k. by rewrite list_elem_of_In.
  - intros (k & Hk & Hq & Hp). exists k. rewrite filter_In.
    by rewrite <- list_elem_of_In.
Qed.

Lemma forallb_filter_true {A} (p q : A → bool) (l : list A) :
  forallb p (List.filter q l) = true
  ↔ ∀ k, k ∈ l → q k = true → p k = true.
Proof.
  rewrite forallb_forall. split.
  - intros H k Hk Hq. apply H. rewrite filter_In. by rewrite <- list_elem_of_In.
  - intros H k Hk. apply filter_In in Hk as [Hk Hq]. apply H; [|done].
    by rewrite list_elem_of_In.
Qed.

Lemma filter_nil_iff {A} (q : A → bool) (l : list A) :
  List.filter q l = [] ↔ ∀ k, k ∈ l → q k = false.
Proof.
  induction l as [|x l IH]; simpl.
  - split; [|done]. intros _ k Hk. by apply elem_of_nil in Hk.
  - destruct (q x) eqn:Hq.
    + split; [done|]. intros H. specialize (H x (list_elem_of_here _ _)). congruence.
    + rewrite IH. split.
      * intros H k Hk. apply elem_of_cons in Hk as [->|Hk]; auto.
      * intros H k Hk. apply H. by right.
Qed.

(** What it means for an asset to match a text, in words: the asset is
    enabled and has keywords, no exclude keyword occurs in the text, and
    either every include keyword occurs (mode all), or some include keyword
    occurs or there is none (mode any). *)
Definition assetMatches (text : string) (asset : SocialAsset) : Prop :=
  enabled asset = true
  ∧ keywords asset ≠ []
  ∧ (∀ k, k ∈ keywords asset → exclude k = true →
          matchesKeyword toLowerCase text k = false)
  ∧ match matchMode asset with
    | MatchAll =>
        ∀ k, k ∈ keywords asset → exclude k = false →
             matchesKeyword toLowerCase text k = true
    | MatchAny =>
        (∀ k, k ∈ keywords asset → exclude k = true)
        ∨ ∃ k, k ∈ keywords asset ∧ exclude k = false
               ∧ matchesKeyword toLowerCase text k = true
    end.

Lemma matchesAsset_decides (text : string) (asset : SocialAsset) :
  matchesAsset toLowerCase text asset = true ↔ assetMatches text asset.
Proof.
  unfold matchesAsset, assetMatches.
  destruct (enabled asset); simpl; [|split; [done|by intros [? _]]].
  destruct (Nat.eqb_spec (length (keywords asset)) 0) as [Hz|Hnz].
  { apply length_zero_iff_nil in Hz. split; [done|by intros (_ & ? & _)]. }
  destruct (existsb _ (List.filter (fun k => exclude k) _)) eqn:Eex.
  - apply existsb_filter_true in Eex as (k & Hk & Hex & Hm).
    split; [done|]. intros (_ & _ & Hno & _). rewrite (Hno k Hk Hex) in Hm. done.
  - rewrite existsb_filter_false in Eex.
    destruct (Nat.eqb_spec
                (length (List.filter (fun k => negb (exclude k)) (keywords asset))) 0)
      as [Hnone|Hsome].
    + apply length_zero_iff_nil in Hnone.
      pose proof (proj1 (filter_nil_iff _ _) Hnone) as Hnone'. clear Hnone.
      rename Hnone' into Hnone. cbn beta in Hnone.
      split; [|done]. intros _. repeat split; try done.
      * intros Hnil. rewrite Hnil in *. done.
      * destruct (matchMode asset).
        -- left. intros k Hk. specialize (Hnone k Hk). by destruct (exclude k).
        -- intros k Hk Hex. specialize (Hnone k Hk). by rewrite Hex in Hnone.
    + assert (¬ ∀ k, k ∈ keywords asset → exclude k = true) as Hinc.
      { intros Hall. apply Hsome, length_zero_iff_nil.
        apply (proj2 (filter_nil_iff _ _)).
        intros k Hk. by rewrite (Hall k Hk). }
      destruct (matchMode asset).
      * rewrite existsb_filter_true. split.
        -- intros (k & Hk & Hex & Hm). repeat split; try done.
           { intros Hnil. rewrite Hnil in Hk. by apply elem_of_nil in Hk. }
           right. exists k. apply negb_true_iff in Hex. done.
        -- intros (_ & _ & _ & [Hall|(k & Hk & Hex & Hm)]); [done|].
           exists k. by rewrite Hex.
      * rewrite forallb_filter_true. split.
        -- intros H. repeat split; try done.
           { intros Hnil. apply Hinc. rewrite Hnil. intros k Hk.
             by apply elem_of_nil in Hk. }
           intros k Hk Hex. apply H; [done|]. by rewrite Hex.
        -- intros (_ & _ & _ & H) k Hk Hex. apply H; [done|].
           by apply negb_true_iff.
Qed.

(** X18: [matchesAsset] decides exactly [assetMatches]: a disabled asset or
    one without keywords matches nothing, one matching exclude keyword
    rejects the text whatever else matches, an asset with only exclude
    keywords matches every text that contains none of them, and otherwise
    the match mode decides between all and some include keywords. *)
Theorem matchesAsset_iff (text : string) (asset : SocialAsset) :
  matchesAsset toLowerCase text asset = true ↔ assetMatches text asset.
Proof. exact (matchesAsset_decides text asset). Qed.

(** X19: mode all is at least as strict as mode any: of two assets with the
    same keywords and enabled flag, whenever the one in mode all matches a
    text, the one in mode any matches it too. *)
Theorem matchAll_implies_matchAny (text : string) (a1 a2 : SocialAsset) :
  keywords a1 = keywords a2 →
  enabled a1 = enabled a2 →
  matchMode a1 = MatchAll →
  matchMode a2 = MatchAny →
  matchesAsset toLowerCase text a1 = true →
  matchesAsset toLowerCase text a2 = true.
Proof.
  intros Hks Hen Hall Hany. rewrite !matchesAsset_decides. unfold assetMatches.
  rewrite <- Hks, <- Hen, Hall, Hany.
  intros (H1 & H2 & H3 & H4). repeat split; try done.
  destruct (List.filter (fun k => negb (exclude k)) (keywords a1)) as [|k ks] eqn:E.
  - left. intros k Hk. apply (proj1 (filter_nil_iff _ _) E) in Hk.
    by destruct (exclude k).
  - right. assert (In k (List.filter (fun k => negb (exclude k)) (keywords a1))) as Hin
      by (rewrite E; by left).
    apply filter_In in Hin as [Hk Hex]. apply list_elem_of_In in Hk.
    apply negb_true_iff in Hex. exists k. repeat split; try done. by apply H4.
Qed.

(** X20: a keyword with an empty value occurs in every text (given that
    lower-casing the empty string gives the empty string).  So an exclude
    keyword with an empty value makes its asset match nothing. *)
Theorem empty_keyword_matches_everything (text : string) (k : AssetKeyword) :
  toLowerCase "" = "" →
  value k = "" →
  matchesKeyword toLowerCase text k = true
  ∧ ∀ asset, k ∈ keywords asset → exclude k = true →
             matchesAsset toLowerCase text asset = false.
Proof.
  intros Hlower Hvalue.
  assert (matchesKeyword toLowerCase text k = true) as Hmatch.
  { unfold matchesKeyword. rewrite Hvalue, Hlower. apply includes_empty. }
  split; [done|]. intros asset Hk Hex.
  destruct (matchesAsset toLowerCase text asset) eqn:E; [|done].
  apply matchesAsset_decides in E as (_ & _ & Hno & _).
  rewrite (Hno k Hk Hex) in Hmatch. done.
Qed.

(** The rule by which an asset tags a message, in words: the asset is not
    restricted to sources or lists the source of the message, and it matches
    the text. *)
Definition tagsMessage (message : SocialMessage) (a : SocialAsset) : Prop :=
  (sourceIds a = [] ∨ message_sourceId message ∈ sourceIds a)
  ∧ assetMatches (text message) a.

#[global] Instance assetMatches_dec text a : Decision (assetMatches text a).
Proof.
  destruct (matchesAsset toLowerCase text a) eqn:E.
  - left. by apply matchesAsset_decides.
  - right. intros H. apply matchesAsset_decides in H. congruence.
Defined.

#[global] Instance tagsMessage_dec message a : Decision (tagsMessage message a).
Proof. unfold tagsMessage. apply _. Defined.

Lemma tag_filter_decides message a :
  (if Nat.ltb 0 (length (sourceIds a))
      && negb (bool_decide (message_sourceId message ∈ sourceIds a))
   then false
   else matchesAsset toLowerCase (text message) a) = true
  ↔ tagsMessage message a.
Proof.
  unfold tagsMessage. rewrite <- matchesAsset_decides.
  destruct (sourceIds a) as [|s0 ss] eqn:Es; simpl.
  - split; [intros H; split; [by left|done]|by intros [_ H]].
  - destruct (decide (message_sourceId message ∈ s0 :: ss)) as [Hin|Hnotin].
    + rewrite (bool_decide_eq_true_2 _ Hin). simpl.
      split; [intros H; split; [by right|done]|by intros [_ H]].
    + rewrite (bool_decide_eq_false_2 _ Hnotin). simpl.
      split; [done|]. intros [[?|?] _]; done.
Qed.

Lemma List_filter_decides {A} (f : A → bool) (P : A → Prop) `{!∀ x, Decision (P x)}
    (l : list A) :
  (∀ x, f x = true ↔ P x) → List.filter f l = filter P l.
Proof.
  intros Hf. induction l as [|x l IH]; [done|].
  rewrite filter_cons. cbn [List.filter]. rewrite IH.
  destruct (decide (P x)) as [HP|HP].
  - by rewrite (proj2 (Hf x) HP).
  - destruct (f x) eqn:E; [|done]. by apply Hf in E.
Qed.

(** X21: [tagMessageWithAssets] sets the tags of a message to the ids of
    exactly those stored assets that tag it by the rule above, in storage
    order and with repetitions as stored; it changes nothing else and does
    not look at the old tags, so tagging twice is tagging once. *)
Theorem tagMessageWithAssets_spec (message : SocialMessage) (ls : LocalStorage) :
  let tagged := tagMessageWithAssets toLowerCase message ls in
  matchedAssetIds tagged = asset_id <$> filter (tagsMessage message) (getAssets ls)
  ∧ tagMessageWithAssets toLowerCase tagged ls = tagged
  ∧ (message_id tagged, message_sourceId tagged, message_platform tagged,
     channelName tagged, text tagged, postedAt tagged, collectedAt tagged,
     url tagged)
    = (message_id message, message_sourceId message, message_platform message,
       channelName message, text message, postedAt message, collectedAt message,
       url message).
Proof.
  intros tagged. split; [|split; reflexivity].
  unfold tagged, tagMessageWithAssets. cbn [matchedAssetIds]. f_equal.
  apply List_filter_decides. intros a. apply tag_filter_decides.
Qed.

End SocialMatching.

(** * Country instability index

    The last part of the file scores twenty countries from ingested protest,
    military and news data.  Its module state is two maps:
    [countryDataMap] and [previousScores].  Numbers are rationals as before;
    the rounded score is an integer.  A score that lands on a half in exact
    arithmetic may be rounded the other way by the binary64 sum, so the
    properties below speak of the score an entry reports, of bounds, and of
    how entries, trends and recorded scores relate, not of the value
    [Math.round] picks at a tie.  The event types come from [@/types]; the
    records below carry the fields this code reads. *)

From Stdlib Require Import Qround.

Module JsMath.

(** [Math.min(a, b)] *)
Definition min (a b : Q) : Q := if Qle_bool a b then a else b.

(** [Math.round(x)]: the nearest integer, halves rounded up. *)
Definition round (x : Q) : Z := Qfloor (x + (1 # 2)).

(** [n] as a number, for an array length. *)
Definition ofNat (n : nat) : Q := inject_Z (Z.of_nat n).

End JsMath.

Module CII.

Record SocialUnrestEvent := {
  country : string;
  fatalities : option Q;
  severity : string;
}.

Record MilitaryFlight := { flight_operatorCountry : string }.

Record MilitaryVessel := { vessel_operatorCountry : string }.

Record Velocity := { sourcesPerHour : Q }.

Record ClusteredEvent := {
  primaryTitle : string;
  velocity : option Velocity;
  isAlert : bool;
}.

Record ComponentScores := {
  unrest : Q;
  security : Q;
  information : Q;
}.

Inductive Level := LevelLow | LevelNormal | LevelElevated | LevelHigh | LevelCritical.

Inductive Trend := Rising | Stable | Falling.

Record CountryScore := {
  code : string;
  name : string;
  score : Z;
  level : Level;
  trend : Trend;
  change24h : Z;
  components : ComponentScores;
  lastUpdated : Z;
}.

Record CountryData := {
  protests : list SocialUnrestEvent;
  militaryFlights : list MilitaryFlight;
  militaryVessels : list MilitaryVessel;
  newsEvents : list ClusteredEvent;
}.

(** [Object.entries(TIER1_COUNTRIES)], in the order the literal lists them. *)
Definition TIER1_COUNTRIES : list (string * string) :=
  [ ("US", "United States"); ("RU", "Russia"); ("CN", "China"); ("UA", "Ukraine");
    ("IR", "Iran"); ("IL", "Israel"); ("TW", "Taiwan"); ("KP", "North Korea");
    ("SA", "Saudi Arabia"); ("TR", "Turkey"); ("PL", "Poland"); ("DE", "Germany");
    ("FR", "France"); ("GB", "United Kingdom"); ("IN", "India"); ("PK", "Pakistan");
    ("SY", "Syria"); ("YE", "Yemen"); ("MM", "Myanmar"); ("VE", "Venezuela") ].

Definition COUNTRY_KEYWORDS : list (string * list string) :=
  [ ("US", ["united states"; "america"; "washington"; "biden"; "trump"; "pentagon"]);
    ("RU", ["russia"; "moscow"; "kremlin"; "putin"]);
    ("CN", ["china"; "beijing"; "xi jinping"; "prc"]);
    ("UA", ["ukraine"; "kyiv"; "zelensky"; "donbas"]);
    ("IR", ["iran"; "tehran"; "khamenei"; "irgc"]);
    ("IL", ["israel"; "tel aviv"; "netanyahu"; "idf"; "gaza"]);
    ("TW", ["taiwan"; "taipei"]);
    ("KP", ["north korea"; "pyongyang"; "kim jong"]);
    ("SA", ["saudi arabia"; "riyadh"; "mbs"]);
    ("TR", ["turkey"; "ankara"; "erdogan"]);
    ("PL", ["poland"; "warsaw"]);
    ("DE", ["germany"; "berlin"]);
    ("FR", ["france"; "paris"; "macron"]);
    ("GB", ["britain"; "uk"; "london"; "starmer"]);
    ("IN", ["india"; "delhi"; "modi"]);
    ("PK", ["pakistan"; "islamabad"]);
    ("SY", ["syria"; "damascus"; "assad"]);
    ("YE", ["yemen"; "sanaa"; "houthi"]);
    ("MM", ["myanmar"; "burma"; "rangoon"]);
    ("VE", ["venezuela"; "caracas"; "maduro"]) ].

(** [obj[key]] on one of the two tables above. *)
Definition lookup_entry {V} (key : string) (entries : list (string * V)) : option V :=
  snd <$> List.find (fun e => String.eqb e.1 key) entries.

(** The two module-level maps. *)
Record ModuleState := {
  countryDataMap : gmap string CountryData;
  previousScores : gmap string Z;
}.

Definition initCountryData : CountryData :=
  {| protests := []; militaryFlights := []; militaryVessels := []; newsEvents := [] |}.

Definition clearCountryData (st : ModuleState) : ModuleState :=
  {| countryDataMap := ∅; previousScores := previousScores st |}.

Section Ingest.

Variable toLowerCase : string → string.

Definition normalizeCountryName (name : string) : option string :=
  let lower := toLowerCase name in
  match List.find (fun '(_, keywords) =>
                     existsb (fun kw => JsList.includes lower kw) keywords)
                  COUNTRY_KEYWORDS with
  | Some (code, _) => Some code
  | None =>
      match List.find (fun '(_, countryName) =>
                         JsList.includes lower (toLowerCase countryName))
                      TIER1_COUNTRIES with
      | Some (code, _) => Some code
      | None => None
      end
  end.

(** [if (!code || !TIER1_COUNTRIES[code]) continue;]: the code to file the
    event under, if the loop body goes on. *)
Definition tier1Code (code : option string) : option string :=
  match code with
  | Some c =>
      if Js.truthy_string c
         && Js.truthy_string (Js.or_string (lookup_entry c TIER1_COUNTRIES) "")
      then Some c else None
  | None => None
  end.

(** [if (!countryDataMap.has(code)) countryDataMap.set(code, initCountryData());
     countryDataMap.get(code)!.<field>.push(e)] *)
Definition pushTo (code : string) (push : CountryData → CountryData)
    (m : gmap string CountryData) : gmap string CountryData :=
  let m := if bool_decide (is_Some (m !! code)) then m
           else <[code := initCountryData]> m in
  match m !! code with
  | Some data => <[code := push data]> m
  | None => m
  end.

Definition pushProtest (e : SocialUnrestEvent) (d : CountryData) : CountryData :=
  {| protests := protests d ++ [e]; militaryFlights := militaryFlights d;
     militaryVessels := militaryVessels d; newsEvents := newsEvents d |}.

Definition pushFlight (f : MilitaryFlight) (d : CountryData) : CountryData :=
  {| protests := protests d; militaryFlights := militaryFlights d ++ [f];
     militaryVessels := militaryVessels d; newsEvents := newsEvents d |}.

Definition pushVessel (v : MilitaryVessel) (d : CountryData) : CountryData :=
  {| protests := protests d; militaryFlights := militaryFlights d;
     militaryVessels := militaryVessels d ++ [v]; newsEvents := newsEvents d |}.

Definition pushNews (e : ClusteredEvent) (d : CountryData) : CountryData :=
  {| protests := protests d; militaryFlights := militaryFlights d;
     militaryVessels := militaryVessels d; newsEvents := newsEvents d ++ [e] |}.

Definition withData (m : gmap string CountryData) (st : ModuleState) : ModuleState :=
  {| countryDataMap := m; previousScores := previousScores st |}.

Definition ingestProtestsForCII (events : list SocialUnrestEvent) (st : ModuleState)
    : ModuleState :=
  withData
    (foldl (fun m e =>
              match tier1Code (normalizeCountryName (country e)) with
              | Some code => pushTo code (pushProtest e) m
              | None => m
              end)
           (countryDataMap st) events)
    st.

Definition ingestMilitaryForCII (flights : list MilitaryFlight)
    (vessels : list MilitaryVessel) (st : ModuleState) : ModuleState :=
  let m :=
    foldl (fun m f =>
             match tier1Code (normalizeCountryName (flight_operatorCountry f)) with
             | Some code => pushTo code (pushFlight f) m
             | None => m
             end)
          (countryDataMap st) flights in
  let m :=
    foldl (fun m v =>
             match tier1Code (normalizeCountryName (vessel_operatorCountry v)) with
             | Some code => pushTo code (pushVessel v) m
             | None => m
             end)
          m vessels in
  withData m st.

Definition ingestNewsForCII (events : list ClusteredEvent) (st : ModuleState)
    : ModuleState :=
  withData
    (foldl (fun m e =>
              let title := toLowerCase (primaryTitle e) in
              foldl (fun m '(code, _) =>
                       let keywords :=
                         Js.opt_list (lookup_entry code COUNTRY_KEYWORDS) in
                       if existsb (fun kw => JsList.includes title kw) keywords
                       then pushTo code (pushNews e) m
                       else m)
                    m TIER1_COUNTRIES)
           (countryDataMap st) events)
    st.

End Ingest.

(** ** Scores *)

Definition calcUnrestScore (data : CountryData) : Q :=
  let count := length (protests data) in
  if Nat.eqb count 0 then 0
  else
    let fatalities :=
      foldl (fun sum p =>
               sum + Js.or_zero (default 0 (fatalities p)))%Q 0%Q (protests data) in
    let highSeverity :=
      length (List.filter (fun p => String.eqb (severity p) "high") (protests data)) in
    let baseScore := JsMath.min 50 (JsMath.ofNat count * 8)%Q in
    let fatalityBoost := JsMath.min 30 (fatalities * 5)%Q in
    let severityBoost := JsMath.min 20 (JsMath.ofNat highSeverity * 10)%Q in
    JsMath.min 100 (baseScore + fatalityBoost + severityBoost)%Q.

Definition calcSecurityScore (data : CountryData) : Q :=
  let flights := length (militaryFlights data) in
  let vessels := length (militaryVessels data) in
  let flightScore := JsMath.min 50 (JsMath.ofNat flights * 3)%Q in
  let vesselScore := JsMath.min 30 (JsMath.ofNat vessels * 5)%Q in
  JsMath.min 100 (flightScore + vesselScore)%Q.

Definition calcInformationScore (data : CountryData) : Q :=
  let count := length (newsEvents data) in
  if Nat.eqb count 0 then 0
  else
    let velocitySum :=
      foldl (fun sum e =>
               sum + Js.or_zero (default 0 (sourcesPerHour <$> velocity e)))%Q
            0%Q (newsEvents data) in
    let avgVelocity := (velocitySum / JsMath.ofNat count)%Q in
    let baseScore := JsMath.min 40 (JsMath.ofNat count * 5)%Q in
    let velocityBoost := JsMath.min 40 (avgVelocity * 10)%Q in
    let alertBoost := (if existsb isAlert (newsEvents data) then 20 else 0)%Q in
    JsMath.min 100 (baseScore + velocityBoost + alertBoost)%Q.

(** [score] is the rounded score at the only call site. *)
Definition getLevel (score : Z) : Level :=
  if (81 <=? score)%Z then LevelCritical
  else if (66 <=? score)%Z then LevelHigh
  else if (51 <=? score)%Z then LevelElevated
  else if (31 <=? score)%Z then LevelNormal
  else LevelLow.

Definition getTrend (previousScores : gmap string Z) (code : string) (current : Z)
    : Trend :=
  match previousScores !! code with
  | None => Stable
  | Some prev =>
      let diff := (current - prev)%Z in
      if (5 <=? diff)%Z then Rising
      else if (diff <=? -5)%Z then Falling
      else Stable
  end.

Definition byScoreDescending (a b : CountryScore) : Q :=
  inject_Z (score b - score a).

(** [clock i] is the value of [new Date()] in the [i]-th round of the loop. *)
Definition calculateCII (clock : nat → Z) (st : ModuleState)
    : list CountryScore * ModuleState :=
  let '(scores, previous) :=
    foldl (fun '(scores, previous) '(i, (code, name)) =>
             let data := default initCountryData (countryDataMap st !! code) in
             let components :=
               {| unrest := calcUnrestScore data;
                  security := calcSecurityScore data;
                  information := calcInformationScore data |} in
             let rawScore :=
               (unrest components * (4 # 10) + security components * (3 # 10)
                + information components * (3 # 10))%Q in
             let score := JsMath.round rawScore in
             let prev := default score (previous !! code) in
             (scores ++ [ {| code := code;
                             name := name;
                             score := score;
                             level := getLevel score;
                             trend := getTrend previous code score;
                             change24h := score - prev;
                             components := components;
                             lastUpdated := clock i |} ],
              <[code := score]> previous))
          ([], previousScores st)
          (imap (fun i e => (i, e)) TIER1_COUNTRIES) in
  (js_sort byScoreDescending scores,
   {| countryDataMap := countryDataMap st; previousScores := previous |}).

(** [limit] is [None] when the argument is left out. *)
Definition getTopUnstableCountries (clock : nat → Z) (limit : option Z)
    (st : ModuleState) : list CountryScore * ModuleState :=
  let limit := default 10%Z limit in
  let '(scores, st) := calculateCII clock st in
  (JsList.slice0 limit scores, st).

End CII.

(** ** Properties of the country instability index *)

Import CII.

Lemma min_le_l a b : (JsMath.min a b <= a)%Q.
Proof.
  unfold JsMath.min. destruct (Qle_bool a b) eqn:E; [lra|].
  destruct (Qlt_le_dec b a) as [Hlt|Hle]; [lra|].
  apply Qle_bool_iff in Hle. congruence.
Qed.

Lemma min_le_r a b : (JsMath.min a b <= b)%Q.
Proof.
  unfold JsMath.min. destruct (Qle_bool a b) eqn:E; [|lra].
  by apply Qle_bool_iff.
Qed.

Lemma min_glb c a b : (c <= a)%Q → (c <= b)%Q → (c <= JsMath.min a b)%Q.
Proof. unfold JsMath.min. by destruct (Qle_bool a b). Qed.

Lemma ofNat_nonneg n : (0 <= JsMath.ofNat n)%Q.
Proof.
  unfold JsMath.ofNat. change 0%Q with (inject_Z 0). rewrite <- Zle_Qle. lia.
Qed.

Lemma ofNat_pos n : (0 < n)%nat → (0 < JsMath.ofNat n)%Q.
Proof.
  intros H. unfold JsMath.ofNat. change 0%Q with (inject_Z 0).
  rewrite <- Zlt_Qlt. lia.
Qed.

Lemma round_mono x y : (x <= y)%Q → (JsMath.round x <= JsMath.round y)%Z.
Proof. intros H. unfold JsMath.round. apply Qfloor_resp_le. lra. Qed.

Lemma or_zero_nonneg x : (0 <= x)%Q → (0 <= Js.or_zero x)%Q.
Proof. unfold Js.or_zero. destruct (Qeq_bool x 0); [lra|done]. Qed.

Lemma foldl_sum_nonneg {A} (f : A → Q) (l : list A) (acc : Q) :
  Forall (fun x => (0 <= f x)%Q) l → (0 <= acc)%Q →
  (0 <= foldl (fun sum x => sum + f x) acc l)%Q.
Proof.
  intros Hl. revert acc. induction Hl as [|x l Hx _ IH]; simpl; [done|].
  intros acc Hacc. apply IH. lra.
Qed.

Lemma calcSecurityScore_range data :
  (0 <= calcSecurityScore data <= 80)%Q.
Proof.
  unfold calcSecurityScore.
  pose proof (ofNat_nonneg (length (militaryFlights data))) as Hf.
  pose proof (ofNat_nonneg (length (militaryVessels data))) as Hv.
  set (flightScore := JsMath.min 50 _). set (vesselScore := JsMath.min 30 _).
  assert (0 <= flightScore <= 50)%Q as [? ?].
  { split; [apply min_glb; lra|apply min_le_l]. }
  assert (0 <= vesselScore <= 30)%Q as [? ?].
  { split; [apply min_glb; lra|apply min_le_l]. }
  split; [apply min_glb; lra|].
  eapply Qle_trans; [apply min_le_r|]. lra.
Qed.

Lemma calcUnrestScore_le data : (calcUnrestScore data <= 100)%Q.
Proof.
  unfold calcUnrestScore. destruct (Nat.eqb _ 0); [lra|]. apply min_le_l.
Qed.

Lemma calcInformationScore_le data : (calcInformationScore data <= 100)%Q.
Proof.
  unfold calcInformationScore. destruct (Nat.eqb _ 0); [lra|]. apply min_le_l.
Qed.

(** Data without negative fatality counts or velocities. *)
Definition dataNonneg (data : CountryData) : Prop :=
  Forall (fun p => (0 <= default 0 (fatalities p))%Q) (protests data)
  ∧ Forall (fun e => (0 <= default 0 (sourcesPerHour <$> velocity e))%Q)
           (newsEvents data).

Lemma calcUnrestScore_nonneg data :
  dataNonneg data → (0 <= calcUnrestScore data)%Q.
Proof.
  intros [Hp _]. unfold calcUnrestScore. destruct (Nat.eqb _ 0); [lra|].
  cbv zeta.
  pose proof (ofNat_nonneg (length (protests data))).
  pose proof (ofNat_nonneg
                (length (List.filter (fun p => String.eqb (severity p) "high")
                           (protests data)))).
  assert (0 <= foldl (fun sum p => sum + Js.or_zero (default 0 (fatalities p)))
                 0 (protests data))%Q.
  { apply (foldl_sum_nonneg (fun p => Js.or_zero (default 0%Q (fatalities p))));
      [|lra].
    eapply Forall_impl; [exact Hp|]. intros p. apply or_zero_nonneg. }
  set (baseScore := JsMath.min 50 _). set (fatalityBoost := JsMath.min 30 _).
  set (severityBoost := JsMath.min 20 _).
  assert (0 <= baseScore)%Q by (apply min_glb; lra).
  assert (0 <= fatalityBoost)%Q by (apply min_glb; lra).
  assert (0 <= severityBoost)%Q by (apply min_glb; lra).
  apply min_glb; lra.
Qed.

Lemma calcInformationScore_nonneg data :
  dataNonneg data → (0 <= calcInformationScore data)%Q.
Proof.
  intros [_ He]. unfold calcInformationScore.
  destruct (Nat.eqb_spec (length (newsEvents data)) 0) as [|Hcount]; [lra|].
  cbv zeta.
  pose proof (ofNat_pos (length (newsEvents data)) ltac:(lia)) as Hpos.
  assert (0 <= foldl (fun sum e =>
                        sum + Js.or_zero (default 0 (sourcesPerHour <$> velocity e)))
                 0 (newsEvents data))%Q as Hsum.
  { apply (foldl_sum_nonneg
             (fun e => Js.or_zero (default 0%Q (sourcesPerHour <$> velocity e))));
      [|lra].
    eapply Forall_impl; [exact He|]. intros e. apply or_zero_nonneg. }
  set (velocitySum := foldl _ _ _) in *.
  assert (0 <= velocitySum / JsMath.ofNat (length (newsEvents data)))%Q as Havg.
  { apply Qle_shift_div_l; [done|]. lra. }
  set (baseScore := JsMath.min 40 _). set (velocityBoost := JsMath.min 40 _).
  assert (0 <= baseScore)%Q by (apply min_glb; lra).
  assert (0 <= velocityBoost)%Q by (apply min_glb; lra).
  apply min_glb; [lra|]. destruct (existsb _ _); lra.
Qed.

(** *** The scoring loop, entry by entry *)

Definition componentsOf (st : ModuleState) (c : string) : ComponentScores :=
  let data := default initCountryData (countryDataMap st !! c) in
  {| unrest := calcUnrestScore data;
     security := calcSecurityScore data;
     information := calcInformationScore data |}.

Definition rawScoreOf (st : ModuleState) (c : string) : Q :=
  (unrest (componentsOf st c) * (4 # 10) + security (componentsOf st c) * (3 # 10)
   + information (componentsOf st c) * (3 # 10))%Q.

Definition scoreOf (st : ModuleState) (c : string) : Z :=
  JsMath.round (rawScoreOf st c).

(** The entry [calculateCII] pushes for a country, in terms of the state at
    the start of the call. *)
Definition entryOf (st : ModuleState) (now : Z) (c n : string) : CountryScore :=
  {| code := c;
     name := n;
     score := scoreOf st c;
     level := getLevel (scoreOf st c);
     trend := getTrend (previousScores st) c (scoreOf st c);
     change24h := scoreOf st c - default (scoreOf st c) (previousScores st !! c);
     components := componentsOf st c;
     lastUpdated := now |}.

Definition recordScores (st : ModuleState) (previous : gmap string Z)
    (l : list (string * string)) : gmap string Z :=
  foldl (fun pm e => <[e.1 := scoreOf st e.1]> pm) previous l.

Lemma recordScores_lookup st l previous c :
  recordScores st previous l !! c
  = if bool_decide (c ∈ l.*1) then Some (scoreOf st c) else previous !! c.
Proof.
  unfold recordScores. revert previous.
  induction l as [|[c' n'] l IH]; intros previous; simpl; [done|].
  rewrite IH. destruct (decide (c ∈ l.*1)) as [Hin|Hnotin].
  - rewrite !bool_decide_eq_true_2; [done|by right|done].
  - rewrite (bool_decide_eq_false_2 _ Hnotin).
    destruct (decide (c = c')) as [->|Hne].
    + rewrite bool_decide_eq_true_2 by by left. by rewrite lookup_insert_eq.
    + rewrite bool_decide_eq_false_2.
      * by rewrite lookup_insert_ne.
      * intros Hin. apply elem_of_cons in Hin as [?|?]; done.
Qed.

Lemma scoring_loop (st : ModuleState) (clock : nat → Z)
    (f : list CountryScore * gmap string Z → nat * (string * string)
         → list CountryScore * gmap string Z) :
  (∀ acc pm i c n,
     pm !! c = previousScores st !! c →
     f (acc, pm) (i, (c, n))
     = (acc ++ [entryOf st (clock i) c n], <[c := scoreOf st c]> pm)) →
  ∀ l (g : nat → nat) acc pm,
    NoDup l.*1 →
    (∀ c, c ∈ l.*1 → pm !! c = previousScores st !! c) →
    foldl f (acc, pm) (imap (fun i e => (g i, e)) l)
    = (acc ++ imap (fun i e => entryOf st (clock (g i)) e.1 e.2) l,
       recordScores st pm l).
Proof.
  intros Hf l. induction l as [|[c n] l IH]; intros g acc pm Hnd Hpm.
  - simpl. by rewrite app_nil_r.
  - rewrite !imap_cons. cbn [foldl]. rewrite Hf by (apply Hpm; by left).
    simpl in Hnd. apply NoDup_cons in Hnd as [Hc Hnd].
    rewrite (IH (g ∘ S)); [|done|].
    + rewrite <- app_assoc. reflexivity.
    + intros c' Hc'. rewrite lookup_insert_ne; [apply Hpm; by right|].
      intros ->. done.
Qed.

Lemma TIER1_NoDup : NoDup TIER1_COUNTRIES.*1.
Proof. apply (bool_decide_unpack _). vm_compute. reflexivity. Qed.

Definition tier1Entries (st : ModuleState) (clock : nat → Z) : list CountryScore :=
  imap (fun i e => entryOf st (clock i) e.1 e.2) TIER1_COUNTRIES.

Lemma calculateCII_eq clock st :
  calculateCII clock st
  = (js_sort byScoreDescending (tier1Entries st clock),
     {| countryDataMap := countryDataMap st;
        previousScores := recordScores st (previousScores st) TIER1_COUNTRIES |}).
Proof.
  unfold calculateCII.
  match goal with
  | |- context [foldl ?f _ _] =>
      rewrite (scoring_loop st clock f) with (g := fun i => i) (l := TIER1_COUNTRIES)
  end.
  - reflexivity.
  - intros acc pm i c n Hpm. cbv beta iota zeta.
    unfold entryOf, getTrend, scoreOf, rawScoreOf, componentsOf.
    cbn [unrest security information]. rewrite Hpm. reflexivity.
  - apply TIER1_NoDup.
  - done.
Qed.

Lemma elem_of_tier1Entries st clock s :
  s ∈ tier1Entries st clock
  ↔ ∃ i c n, TIER1_COUNTRIES !! i = Some (c, n) ∧ s = entryOf st (clock i) c n.
Proof.
  unfold tier1Entries. rewrite elem_of_lookup_imap. split.
  - intros (i & [c n] & -> & Hi). by exists i, c, n.
  - intros (i & c & n & Hi & ->). by exists i, (c, n).
Qed.

Lemma elem_of_calculateCII clock st s :
  s ∈ (calculateCII clock st).1
  ↔ ∃ i c n, TIER1_COUNTRIES !! i = Some (c, n) ∧ s = entryOf st (clock i) c n.
Proof.
  rewrite calculateCII_eq. cbn [fst]. rewrite js_sort_perm.
  apply elem_of_tier1Entries.
Qed.

Lemma rawScoreOf_le st c : (rawScoreOf st c <= 94)%Q.
Proof.
  unfold rawScoreOf, componentsOf. cbn [unrest security information].
  set (data := default initCountryData _).
  pose proof (calcUnrestScore_le data). pose proof (calcInformationScore_le data).
  pose proof (calcSecurityScore_range data). lra.
Qed.

(** X22: whatever has been ingested, no country scores above 94: the unrest
    and information components are capped at 100, the security component
    cannot exceed 80 (it lies between 0 and 80), and the weights 0.4, 0.3
    and 0.3 then leave at most 40 + 24 + 30. *)
Theorem cii_score_at_most_94 (clock : nat → Z) (st : ModuleState) (s : CountryScore) :
  s ∈ (calculateCII clock st).1 →
  (score s <= 94)%Z
  ∧ (unrest (components s) <= 100)%Q
  ∧ (0 <= security (components s) <= 80)%Q
  ∧ (information (components s) <= 100)%Q.
Proof.
  intros Hs. apply elem_of_calculateCII in Hs as (i & c & n & _ & ->).
  cbn [score components entryOf]. unfold componentsOf.
  cbn [unrest security information].
  split; [|split; [apply calcUnrestScore_le|split;
                   [apply calcSecurityScore_range|apply calcInformationScore_le]]].
  unfold scoreOf. change 94%Z with (JsMath.round 94).
  apply round_mono, rawScoreOf_le.
Qed.

(** X23: when no ingested protest has a negative fatality count and no news
    event a negative velocity, no score is negative. *)
Theorem cii_score_nonneg (clock : nat → Z) (st : ModuleState) (s : CountryScore) :
  map_Forall (fun _ data => dataNonneg data) (countryDataMap st) →
  s ∈ (calculateCII clock st).1 →
  (0 <= score s)%Z.
Proof.
  intros Hdata Hs. apply elem_of_calculateCII in Hs as (i & c & n & _ & ->).
  cbn [score entryOf]. unfold scoreOf. change 0%Z with (JsMath.round 0).
  apply round_mono. unfold rawScoreOf, componentsOf.
  cbn [unrest security information].
  set (data := default initCountryData _).
  assert (dataNonneg data) as Hnn.
  { unfold data. destruct (countryDataMap st !! c) as [d|] eqn:E; simpl.
    - by apply (Hdata c d).
    - split; constructor. }
  pose proof (calcUnrestScore_nonneg data Hnn).
  pose proof (calcInformationScore_nonneg data Hnn).
  pose proof (calcSecurityScore_range data). lra.
Qed.

Lemma sort_insert_fmap {A B} (g : A → B) (cmpA : A → A → Q) (cmpB : B → B → Q) x l :
  (∀ a b, cmpA a b = cmpB (g a) (g b)) →
  g <$> sort_insert cmpA x l = sort_insert cmpB (g x) (g <$> l).
Proof.
  intros Hcmp. induction l as [|y l IH]; [done|].
  rewrite fmap_cons. cbn [sort_insert]. rewrite <- Hcmp.
  destruct (Js.gtb (cmpA x y) 0); rewrite !fmap_cons; [by rewrite IH|done].
Qed.

Lemma js_sort_fmap {A B} (g : A → B) (cmpA : A → A → Q) (cmpB : B → B → Q) l :
  (∀ a b, cmpA a b = cmpB (g a) (g b)) →
  g <$> js_sort cmpA l = js_sort cmpB (g <$> l).
Proof.
  intros Hcmp. unfold js_sort. induction l as [|x l IH]; [done|].
  rewrite fmap_cons. cbn [foldr]. rewrite <- IH. by apply sort_insert_fmap.
Qed.

Lemma StronglySorted_app_cross {A} (R : A → A → Prop) (l1 l2 : list A) :
  StronglySorted R (l1 ++ l2) → ∀ a b, a ∈ l1 → b ∈ l2 → R a b.
Proof.
  induction l1 as [|x l1 IH]; simpl; intros Hs a b Ha Hb.
  - by apply elem_of_nil in Ha.
  - apply StronglySorted_inv in Hs as [Hs Hx].
    apply elem_of_cons in Ha as [->|Ha]; [|by apply IH].
    rewrite Forall_forall in Hx. apply Hx. apply elem_of_app. by right.
Qed.

Definition byScore (a b : CountryScore) : Prop := (score b <= score a)%Z.

Lemma calculateCII_sorted clock st :
  StronglySorted byScore (calculateCII clock st).1.
Proof.
  rewrite calculateCII_eq. cbn [fst]. apply js_sort_sorted_by.
  - unfold byScoreDescending, byScore. intros a b H.
    apply gtb_false_iff in H. change 0%Q with (inject_Z 0) in H.
    rewrite <- Zle_Qle in H. lia.
  - unfold byScoreDescending, byScore. intros a b H.
    apply gtb_true_iff in H. change 0%Q with (inject_Z 0) in H.
    rewrite <- Zlt_Qlt in H. lia.
  - unfold byScore. intros; lia.
Qed.

Lemma fmap_tier1Entries {B} (g : CountryScore → B) st clock :
  g <$> tier1Entries st clock
  = imap (fun i e => g (entryOf st (clock i) e.1 e.2)) TIER1_COUNTRIES.
Proof.
  unfold tier1Entries. generalize TIER1_COUNTRIES. intros l. revert clock.
  induction l as [|e l IH]; intros clock; [done|].
  rewrite !imap_cons, fmap_cons. f_equal. apply (IH (clock ∘ S)).
Qed.

Lemma imap_const_index {A B} (f : A → B) (l : list A) :
  imap (fun _ x => f x) l = f <$> l.
Proof. induction l as [|x l IH]; [done|]. rewrite imap_cons, fmap_cons. f_equal. apply IH. Qed.

Lemma calculateCII_length clock st : length (calculateCII clock st).1 = 20%nat.
Proof.
  rewrite calculateCII_eq. cbn [fst]. rewrite js_sort_perm.
  unfold tier1Entries. by rewrite length_imap.
Qed.

(** X24: [calculateCII] returns one entry for each of the twenty countries,
    each under its own name and with the level of its score, ordered by
    score from the highest down. *)
Theorem cii_ranking (clock : nat → Z) (st : ModuleState) :
  let result := (calculateCII clock st).1 in
  code <$> result ≡ₚ TIER1_COUNTRIES.*1
  ∧ length result = 20%nat
  ∧ StronglySorted byScore result
  ∧ (∀ s, s ∈ result →
       lookup_entry (code s) TIER1_COUNTRIES = Some (name s)
       ∧ level s = getLevel (score s)).
Proof.
  intros result.
  assert (code <$> result ≡ₚ TIER1_COUNTRIES.*1) as Hperm.
  { unfold result. rewrite calculateCII_eq. cbn [fst].
    rewrite js_sort_perm, fmap_tier1Entries. cbn [code entryOf].
    by rewrite imap_const_index. }
  split; [done|]. split.
  { rewrite <- (length_fmap code), Hperm. reflexivity. }
  split; [apply calculateCII_sorted|].
  intros s Hs. apply elem_of_calculateCII in Hs as (i & c & n & Hi & ->).
  cbn [code name level score entryOf]. split; [|done].
  assert (Forall (fun e => lookup_entry e.1 TIER1_COUNTRIES = Some e.2) TIER1_COUNTRIES)
    as Hall by (repeat constructor).
  rewrite Forall_forall in Hall. apply (Hall (c, n)).
  by eapply list_elem_of_lookup_2.
Qed.

Lemma tier1_code_elem i c n :
  TIER1_COUNTRIES !! i = Some (c, n) → c ∈ TIER1_COUNTRIES.*1.
Proof.
  intros Hi. apply list_elem_of_fmap. exists (c, n). split; [done|].
  by eapply list_elem_of_lookup_2.
Qed.

(** X25: the trend and the reported change of an entry always agree: the
    change is the score minus the score recorded by the previous call (0
    when there was none), the trend is rising exactly when the change is at
    least 5 and falling exactly when it is at most -5, and the call records
    the score it reports as the new previous score. *)
Theorem cii_trend_matches_change (clock : nat → Z) (st : ModuleState)
    (s : CountryScore) :
  s ∈ (calculateCII clock st).1 →
  change24h s
  = (score s - default (score s) (previousScores st !! code s))%Z
  ∧ (trend s = Rising ↔ (5 <= change24h s)%Z)
  ∧ (trend s = Falling ↔ (change24h s <= -5)%Z)
  ∧ previousScores (calculateCII clock st).2 !! code s = Some (score s).
Proof.
  intros Hs. apply elem_of_calculateCII in Hs as (i & c & n & Hi & ->).
  cbn [code score trend change24h entryOf]. split; [done|].
  rewrite calculateCII_eq. cbn [snd previousScores].
  rewrite recordScores_lookup.
  rewrite (bool_decide_eq_true_2 _ (tier1_code_elem i c n Hi)).
  unfold getTrend. destruct (previousScores st !! c) as [prev|]; simpl.
  - destruct (Z.leb_spec 5 (scoreOf st c - prev));
      [|destruct (Z.leb_spec (scoreOf st c - prev) (-5))];
      repeat split; try done; try lia.
  - repeat split; try done; lia.
Qed.

Lemma scoreOf_ext st st' c :
  countryDataMap st = countryDataMap st' → scoreOf st c = scoreOf st' c.
Proof. unfold scoreOf, rawScoreOf, componentsOf. by intros ->. Qed.

Lemma calculateCII_state clock st :
  (calculateCII clock st).2
  = {| countryDataMap := countryDataMap st;
       previousScores := recordScores st (previousScores st) TIER1_COUNTRIES |}.
Proof. by rewrite calculateCII_eq. Qed.

Lemma calculateCII_keys clock st :
  (fun s => (code s, score s)) <$> (calculateCII clock st).1
  = js_sort (fun p q : string * Z => inject_Z (q.2 - p.2))
      ((fun e => (e.1, scoreOf st e.1)) <$> TIER1_COUNTRIES).
Proof.
  rewrite calculateCII_eq. cbn [fst].
  rewrite (js_sort_fmap _ byScoreDescending
             (fun p q : string * Z => inject_Z (q.2 - p.2))) by done.
  f_equal.
Qed.

(** X26: the "24h" change is the change since the previous call.  Calling
    [calculateCII] twice with nothing ingested in between gives the same
    ranking with the same scores the second time, but every entry then
    reports trend stable and change 0, and the second call leaves the module
    state as the first left it. *)
Theorem cii_second_call_stable (clock1 clock2 : nat → Z) (st : ModuleState) :
  let first := calculateCII clock1 st in
  let second := calculateCII clock2 first.2 in
  (fun s => (code s, score s)) <$> second.1
  = (fun s => (code s, score s)) <$> first.1
  ∧ Forall (fun s => trend s = Stable ∧ change24h s = 0%Z) second.1
  ∧ second.2 = first.2.
Proof.
  intros first second. subst second first.
  remember ((calculateCII clock1 st).2) as st1 eqn:Hst1.
  rewrite calculateCII_state in Hst1.
  assert (∀ c, scoreOf st1 c = scoreOf st c) as Hscore.
  { intros c. apply scoreOf_ext. by rewrite Hst1. }
  assert (∀ c, c ∈ TIER1_COUNTRIES.*1 →
               previousScores st1 !! c = Some (scoreOf st c)) as Hprev.
  { intros c Hc. rewrite Hst1. cbn [previousScores].
    rewrite recordScores_lookup. by rewrite bool_decide_eq_true_2. }
  split; [|split].
  - rewrite !calculateCII_keys. f_equal. apply list_fmap_ext.
    intros _ e _. by rewrite Hscore.
  - apply Forall_forall. intros s Hs.
    apply elem_of_calculateCII in Hs as (i & c & n & Hi & ->).
    cbn [trend change24h entryOf]. unfold getTrend.
    rewrite (Hprev c (tier1_code_elem i c n Hi)), Hscore.
    cbn [default]. rewrite Z.sub_diag. split; [reflexivity|]. unfold id. lia.
  - rewrite (calculateCII_state clock2 st1). clear Hst1.
    destruct st1 as [data1 previous1]. cbn [countryDataMap previousScores] in *.
    f_equal. apply map_eq. intros c. rewrite recordScores_lookup.
    destruct (decide (c ∈ TIER1_COUNTRIES.*1)) as [Hc|Hc].
    + rewrite bool_decide_eq_true_2 by done. by rewrite Hprev, Hscore.
    + by rewrite bool_decide_eq_false_2.
Qed.

Lemma scoreOf_cleared st c : scoreOf (clearCountryData st) c = 0%Z.
Proof.
  unfold scoreOf, rawScoreOf, componentsOf, clearCountryData.
  cbn [countryDataMap]. rewrite lookup_empty. reflexivity.
Qed.

(** X27: [clearCountryData] forgets the ingested data but not the recorded
    scores.  The next [calculateCII] therefore scores every country 0 at
    level low, and reports as change the loss of the whole recorded score,
    with trend falling exactly for the countries that were recorded at 5 or
    more. *)
Theorem cii_after_clear (clock : nat → Z) (st : ModuleState) (s : CountryScore) :
  s ∈ (calculateCII clock (clearCountryData st)).1 →
  score s = 0%Z
  ∧ level s = LevelLow
  ∧ change24h s = (- default 0 (previousScores st !! code s))%Z
  ∧ (trend s = Falling ↔ (5 <= default 0 (previousScores st !! code s))%Z)
  ∧ (trend s = Rising ↔ (default 0 (previousScores st !! code s) <= -5)%Z).
Proof.
  intros Hs. apply elem_of_calculateCII in Hs as (i & c & n & Hi & ->).
  cbn [code score level trend change24h entryOf].
  rewrite scoreOf_cleared. cbn [previousScores clearCountryData]. unfold getTrend.
  destruct (previousScores st !! c) as [prev|]; simpl.
  - destruct (Z.leb_spec 5 (0 - prev));
      [|destruct (Z.leb_spec (0 - prev) (-5))];
      repeat split; try done; try lia.
  - repeat split; try done; lia.
Qed.

(** X28: [getTopUnstableCountries] returns the head of the ranking: for a
    non-negative limit (10 when left out) it returns that many entries, or
    all twenty, no entry left out scores higher than a returned one, and the
    call records scores exactly as [calculateCII] does. *)
Theorem top_unstable_spec (clock : nat → Z) (limit : option Z) (st : ModuleState) :
  (0 <= default 10 limit)%Z →
  let k := Z.to_nat (default 10%Z limit) in
  let top := (getTopUnstableCountries clock limit st).1 in
  let ranking := (calculateCII clock st).1 in
  top = take k ranking
  ∧ length top = Nat.min k 20
  ∧ (∀ a b, a ∈ top → b ∈ drop k ranking → (score b <= score a)%Z)
  ∧ (getTopUnstableCountries clock limit st).2 = (calculateCII clock st).2.
Proof.
  intros Hlimit k top ranking.
  assert (top = take k ranking) as Htop.
  { unfold top, ranking, getTopUnstableCountries.
    destruct (calculateCII clock st) as [scores st']. cbn [fst].
    unfold JsList.slice0. by destruct (Z.leb_spec 0 (default 10%Z limit)); [|lia]. }
  split; [done|]. split; [|split].
  - rewrite Htop, length_take. unfold ranking.
    by rewrite calculateCII_length.
  - intros a b Ha Hb. rewrite Htop in Ha.
    pose proof (calculateCII_sorted clock st) as Hsorted. fold ranking in Hsorted.
    rewrite <- (take_drop k ranking) in Hsorted.
    apply (StronglySorted_app_cross _ _ _ Hsorted a b Ha Hb).
  - unfold getTopUnstableCountries. by destruct (calculateCII clock st).
Qed.

Section IngestProperties.

Variable toLowerCase : string → string.

Lemma keyword_codes :
  Forall (fun e => lookup_entry e.1 COUNTRY_KEYWORDS = Some e.2
                   ∧ e.1 ∈ TIER1_COUNTRIES.*1
                   ∧ tier1Code (Some e.1) = Some e.1) COUNTRY_KEYWORDS.
Proof. repeat constructor. Qed.

Lemma tier1_codes :
  Forall (fun e => e.1 ∈ TIER1_COUNTRIES.*1 ∧ tier1Code (Some e.1) = Some e.1)
         TIER1_COUNTRIES.
Proof. repeat constructor. Qed.

(** X29: [normalizeCountryName] only ever answers with one of the twenty
    country codes, so the guard [!code || !TIER1_COUNTRIES[code]] of the
    ingest loops skips an event exactly when no country was recognised. *)
Theorem normalizeCountryName_tier1 (name : string) :
  tier1Code (normalizeCountryName toLowerCase name)
  = normalizeCountryName toLowerCase name
  ∧ ∀ c, normalizeCountryName toLowerCase name = Some c → c ∈ TIER1_COUNTRIES.*1.
Proof.
  assert (∀ c, normalizeCountryName toLowerCase name = Some c →
               c ∈ TIER1_COUNTRIES.*1 ∧ tier1Code (Some c) = Some c) as Hcode.
  { intros c. unfold normalizeCountryName.
    destruct (List.find _ COUNTRY_KEYWORDS) as [[c1 kws]|] eqn:E1.
    - intros [= ->]. apply find_some in E1 as [Hin _].
      pose proof keyword_codes as Hall. rewrite Forall_forall in Hall.
      apply list_elem_of_In, Hall in Hin. simpl in Hin. tauto.
    - destruct (List.find _ TIER1_COUNTRIES) as [[c2 n2]|] eqn:E2; [|done].
      intros [= ->]. apply find_some in E2 as [Hin _].
      pose proof tier1_codes as Hall. rewrite Forall_forall in Hall.
      apply list_elem_of_In, Hall in Hin. simpl in Hin. tauto. }
  split.
  - destruct (normalizeCountryName toLowerCase name) as [c|] eqn:E; [|done].
    by apply Hcode.
  - intros c Hc. by apply Hcode.
Qed.

(** The event [e] is filed under the country [c]. *)
Definition filedUnder (e : ClusteredEvent) (c : string)
    (m : gmap string CountryData) : Prop :=
  ∃ d, m !! c = Some d ∧ e ∈ newsEvents d.

Lemma pushTo_lookup code push m :
  ∃ d, pushTo code push m !! code = Some (push d)
       ∧ d = default initCountryData (m !! code).
Proof.
  unfold pushTo. destruct (m !! code) as [d|] eqn:E.
  - rewrite bool_decide_eq_true_2 by done. rewrite E.
    exists d. by rewrite lookup_insert_eq.
  - rewrite bool_decide_eq_false_2 by (by intros [? ?]).
    rewrite lookup_insert_eq. exists initCountryData.
    by rewrite lookup_insert_eq.
Qed.

Lemma pushTo_lookup_ne code push m c :
  c ≠ code → pushTo code push m !! c = m !! c.
Proof.
  intros Hne. unfold pushTo. destruct (m !! code) as [d|] eqn:E.
  - rewrite bool_decide_eq_true_2 by done. rewrite E.
    by rewrite lookup_insert_ne.
  - rewrite bool_decide_eq_false_2 by (by intros [? ?]).
    rewrite lookup_insert_eq. by rewrite !lookup_insert_ne.
Qed.

Lemma pushNews_filed e c m : filedUnder e c (pushTo c (pushNews e) m).
Proof.
  destruct (pushTo_lookup c (pushNews e) m) as (d & Hd & _).
  exists (pushNews e d). split; [done|]. cbn [newsEvents pushNews].
  apply elem_of_app. right. by left.
Qed.

Lemma pushNews_keeps e c e' code m :
  filedUnder e c m → filedUnder e c (pushTo code (pushNews e') m).
Proof.
  intros (d & Hd & He). destruct (decide (c = code)) as [->|Hne].
  - destruct (pushTo_lookup code (pushNews e') m) as (d' & Hd' & ->).
    rewrite Hd in Hd'. exists (pushNews e' d). split; [done|].
    cbn [newsEvents pushNews]. apply elem_of_app. by left.
  - exists d. by rewrite pushTo_lookup_ne.
Qed.

(** The inner loop of [ingestNewsForCII] for one event. *)
Definition fileNews (e : ClusteredEvent) (m : gmap string CountryData)
    (entries : list (string * string)) : gmap string CountryData :=
  let title := toLowerCase (primaryTitle e) in
  foldl (fun m '(code, _) =>
           let keywords := Js.opt_list (lookup_entry code COUNTRY_KEYWORDS) in
           if existsb (fun kw => JsList.includes title kw) keywords
           then pushTo code (pushNews e) m
           else m)
        m entries.

Lemma fileNews_keeps e c e' entries m :
  filedUnder e c m → filedUnder e c (fileNews e' m entries).
Proof.
  unfold fileNews. revert m. induction entries as [|[code n] l IH]; intros m H; [done|].
  cbn [foldl]. apply IH. destruct (existsb _ _); [by apply pushNews_keeps|done].
Qed.

Lemma fileNews_files e c kws kw entries m :
  lookup_entry c COUNTRY_KEYWORDS = Some kws →
  kw ∈ kws →
  JsList.includes (toLowerCase (primaryTitle e)) kw = true →
  c ∈ entries.*1 →
  filedUnder e c (fileNews e m entries).
Proof.
  intros Hkws Hkw Hincl. revert m.
  induction entries as [|[code n] l IH]; intros m Hc.
  - by apply elem_of_nil in Hc.
  - rewrite fmap_cons in Hc. apply elem_of_cons in Hc as [Hc|Hc].
    + simpl in Hc. subst code. unfold fileNews. cbn [foldl].
      rewrite Hkws. cbn [Js.opt_list].
      assert (existsb (fun kw => JsList.includes (toLowerCase (primaryTitle e)) kw) kws
              = true) as ->.
      { apply existsb_exists. exists kw. by rewrite <- list_elem_of_In. }
      apply (fileNews_keeps e c e l). apply pushNews_filed.
    + unfold fileNews. cbn [foldl]. by apply IH.
Qed.

Lemma ingestNews_fold events m :
  foldl (fun m e =>
           let title := toLowerCase (primaryTitle e) in
           foldl (fun m '(code, _) =>
                    let keywords :=
                      Js.opt_list (lookup_entry code COUNTRY_KEYWORDS) in
                    if existsb (fun kw => JsList.includes title kw) keywords
                    then pushTo code (pushNews e) m
                    else m)
                 m TIER1_COUNTRIES)
        m events
  = foldl (fun m e => fileNews e m TIER1_COUNTRIES) m events.
Proof. reflexivity. Qed.

Lemma string_app_assoc (a b c : string) : (a +:+ b) +:+ c = a +:+ b +:+ c.
Proof.
  induction a as [|x a IH]; [done|].
  change ((String x a +:+ b) +:+ c) with (String x ((a +:+ b) +:+ c)).
  change (String x a +:+ b +:+ c) with (String x (a +:+ b +:+ c)).
  by rewrite IH.
Qed.

Lemma includes_app_l s a b :
  JsList.includes s (a +:+ b) = true → JsList.includes s a = true.
Proof.
  rewrite !includes_iff. intros (before & after & ->).
  exists before, (b +:+ after). by rewrite string_app_assoc.
Qed.

(** X30: [ingestNewsForCII] files an event under every country one of whose
    keywords occurs in the lower-cased title, not only under the first.  In
    particular every title that contains "ukraine" is also filed under GB,
    because it contains the GB keyword "uk". *)
Theorem news_filed_under_every_match (events : list ClusteredEvent)
    (st : ModuleState) (e : ClusteredEvent) :
  e ∈ events →
  let filed := countryDataMap (ingestNewsForCII toLowerCase events st) in
  (∀ c kws kw,
     (c, kws) ∈ COUNTRY_KEYWORDS → kw ∈ kws →
     JsList.includes (toLowerCase (primaryTitle e)) kw = true →
     filedUnder e c filed)
  ∧ (JsList.includes (toLowerCase (primaryTitle e)) "ukraine" = true →
     filedUnder e "UA" filed ∧ filedUnder e "GB" filed).
Proof.
  intros He filed.
  assert (∀ c kws kw,
            (c, kws) ∈ COUNTRY_KEYWORDS → kw ∈ kws →
            JsList.includes (toLowerCase (primaryTitle e)) kw = true →
            filedUnder e c filed) as Hgen.
  { intros c kws kw Hc Hkw Hincl.
    pose proof keyword_codes as Hall. rewrite Forall_forall in Hall.
    destruct (Hall _ Hc) as (Hlookup & Htier & _). simpl in Hlookup, Htier.
    unfold filed, ingestNewsForCII, withData. cbn [countryDataMap].
    rewrite ingestNews_fold. generalize (countryDataMap st). clear filed.
    induction events as [|e' l IH]; intros m; [by apply elem_of_nil in He|].
    cbn [foldl]. apply elem_of_cons in He as [<-|He].
    - assert (filedUnder e c (fileNews e m TIER1_COUNTRIES)) as Hfiled
        by by eapply fileNews_files.
      revert Hfiled. generalize (fileNews e m TIER1_COUNTRIES). clear IH.
      induction l as [|e2 l IHl]; intros m' Hm'; [done|].
      cbn [foldl]. apply IHl. by apply fileNews_keeps.
    - by apply IH. }
  split; [exact Hgen|]. intros Hukraine. split.
  - apply (Hgen "UA" ["ukraine"; "kyiv"; "zelensky"; "donbas"] "ukraine");
      [|by left|done].
    apply list_elem_of_In. simpl. tauto.
  - apply (Hgen "GB" ["britain"; "uk"; "london"; "starmer"] "uk");
      [|by right; left|].
    + apply list_elem_of_In. simpl. tauto.
    + by apply (includes_app_l _ "uk" "raine").
Qed.

End IngestProperties.

(** * More scenarios

    Concrete runs of the properties above: the small cable dataset of
    [Scenario], a message feed with two sources and one asset, and an index
    state with data for Ukraine. *)

Module MoreScenarios.

Import Scenario.

(** ** Cascade engine *)

Lemma built_nodes_keyed_witness :
  nodes (constructGraph cables pipelines ports waterways) !! "cable:north"
  = Some (cableNode cableNorth)
  ∧ node_id (cableNode cableNorth) = "cable:north"
  ∧ id_kind "cable:north" = Some (node_type (cableNode cableNorth)).
Proof.
  assert (nodes (constructGraph cables pipelines ports waterways) !! "cable:north"
          = Some (cableNode cableNorth)) as Hn by (vm_compute; reflexivity).
  split; [exact Hn|].
  exact (built_nodes_keyed cables pipelines ports waterways
           "cable:north" (cableNode cableNorth) Hn).
Defined.

Lemma cables_NoDup : NoDup (cable_id <$> cables).
Proof. apply (bool_decide_unpack _). vm_compute. exact I. Defined.

Lemma cable_node_of_accessor_witness :
  NoDup (cable_id <$> cables)
  ∧ getCableById cables "north" = Some cableNorth
  ∧ nodes (constructGraph cables pipelines ports waterways) !! ("cable:" +:+ "north")
    = Some (cableNode cableNorth).
Proof.
  assert (getCableById cables "north" = Some cableNorth) as Hc
    by (vm_compute; reflexivity).
  split; [exact cables_NoDup|]. split; [exact Hc|].
  exact (cable_node_of_accessor cables pipelines ports waterways
           "north" cableNorth cables_NoDup Hc).
Defined.

Lemma graph_stats_meaning_witness :
  stateInv cables pipelines ports waterways initialState
  ∧ stat_cables (getGraphStats cables pipelines ports waterways initialState).1
    = distinct (cable_id <$> cables)
  ∧ stat_countries (getGraphStats cables pipelines ports waterways initialState).1
    = size (referencedCountries cables pipelines).
Proof.
  split; [exact initial_inv|].
  pose proof (graph_stats_meaning cables pipelines ports waterways initialState
                initial_inv) as H.
  cbv zeta in H. destruct H as (H1 & _ & H3 & _). split; [exact H1|exact H3].
Defined.

Lemma dependency_chains_are_paths_witness :
  ∃ r, (calculateCascade cables pipelines ports waterways
          "cable:north" 1 initialState).1 = Some r
       ∧ Forall (fun an =>
                   head (dependencyChain an) = Some "cable:north"
                   ∧ is_path (currentGraph cables pipelines ports waterways initialState)
                       (dependencyChain an))
                (affectedNodes r).
Proof.
  destruct (calculateCascade cables pipelines ports waterways
              "cable:north" 1 initialState).1 as [r|] eqn:Hr.
  - exists r. split; [reflexivity|].
    eapply Forall_impl;
      [exact (dependency_chains_are_paths cables pipelines ports waterways
                initialState "cable:north" 1 r Hr)|].
    intros an (Hhead & _ & Hpath & _). split; [exact Hhead|exact Hpath].
  - vm_compute in Hr. discriminate.
Defined.

Lemma affected_nodes_distinct_witness :
  stateInv cables pipelines ports waterways initialState
  ∧ ∃ r, (calculateCascade cables pipelines ports waterways
            "cable:north" 1 initialState).1 = Some r
         ∧ node_id (source r) = "cable:north"
         ∧ NoDup ((fun an => node_id (node an)) <$> affectedNodes r)
         ∧ Forall (fun an => node_id (node an) ≠ "cable:north") (affectedNodes r).
Proof.
  split; [exact initial_inv|].
  destruct (calculateCascade cables pipelines ports waterways
              "cable:north" 1 initialState).1 as [r|] eqn:Hr.
  - exists r. split; [reflexivity|].
    exact (affected_nodes_distinct cables pipelines ports waterways
             initialState "cable:north" 1 r initial_inv Hr).
  - vm_compute in Hr. discriminate.
Defined.

Lemma categorizeImpact_monotone_witness :
  (1 # 4 <= 3 # 4)%Q
  ∧ (severityRank (categorizeImpact (3 # 4)) ≤ severityRank (categorizeImpact (1 # 4)))%Z.
Proof.
  assert (1 # 4 <= 3 # 4)%Q as Hle by (vm_compute; discriminate).
  split; [exact Hle|]. exact (categorizeImpact_monotone (1 # 4) (3 # 4) Hle).
Defined.



(** ** A message feed *)

(** Lower-casing of the letters A to Z, the part of [toLowerCase] that the
    texts below need. *)
Definition lowerAscii (c : Ascii.ascii) : Ascii.ascii :=
  let n := Ascii.nat_of_ascii c in
  if Nat.leb 65 n && Nat.leb n 90 then Ascii.ascii_of_nat (n + 32) else c.

Fixpoint lowerString (s : string) : string :=
  match s with
  | EmptyString => EmptyString
  | String c s' => String (lowerAscii c) (lowerString s')
  end.

Definition collectorConfig : SocialCollectorConfig :=
  {| collectorUrl := "http://localhost:3001"; maxMessages := 500 |}.

Definition channelOne : SocialSource :=
  mockSource 1000 ("mock-ch1", "@ukraine_news", "Ukraine News").

Definition channelTwo : SocialSource :=
  mockSource 2000 ("mock-ch2", "@world_crisis", "World Crisis Monitor").

Definition message (id : string) (posted : Z) (body : string) : SocialMessage :=
  {| message_id := id;
     message_sourceId := "mock-ch1";
     message_platform := "telegram";
     channelName := "Ukraine News";
     text := body;
     postedAt := posted;
     collectedAt := posted + 5;
     url := "https://t.me/ukraine_news";
     matchedAssetIds := [] |}.

Definition feed : LocalStorage :=
  {| SOURCES := Stored [channelOne];
     ASSETS := Absent;
     MESSAGES := Stored [message "m2" 200 "Drone activity near Kyiv";
                         message "m1" 100 "Talks resumed"];
     CONFIG := Unparsable |}.

Definition batch : list SocialMessage :=
  [message "m1" 100 "Talks resumed"; message "m3" 300 "Ukraine DRONE strike"].

Example feed_add :
  message_id <$> (addMessages collectorConfig batch feed).1 = ["m3"; "m2"; "m1"].
Proof. by vm_compute. Qed.

Lemma deleteSource_saveSource_witness :
  (source_id channelTwo ∉ source_id <$> getSources feed)
  ∧ getSources (deleteSource (source_id channelTwo) (saveSource channelTwo feed))
    = getSources feed.
Proof.
  assert (source_id channelTwo ∉ (source_id <$> getSources feed)) as Hfresh.
  { apply (bool_decide_unpack _). vm_compute. exact I. }
  split; [exact Hfresh|]. exact (deleteSource_saveSource channelTwo feed Hfresh).
Defined.

Lemma addMessages_idempotent_witness :
  (Z.of_nat (length (addMessages collectorConfig batch feed).1)
   <= maxMessages (getConfig collectorConfig feed))%Z
  ∧ addMessages collectorConfig batch (addMessages collectorConfig batch feed).2
    = addMessages collectorConfig batch feed.
Proof.
  assert (Z.of_nat (length (addMessages collectorConfig batch feed).1)
          <= maxMessages (getConfig collectorConfig feed))%Z as Hfits
    by (vm_compute; discriminate).
  split; [exact Hfits|].
  exact (addMessages_idempotent collectorConfig batch feed Hfits).
Defined.

Definition keyword (v : string) (excluded : bool) : AssetKeyword :=
  {| keyword_id := v; value := v; exclude := excluded |}.

Definition droneWatch (mode : MatchMode) : SocialAsset :=
  {| asset_id := "drone-watch";
     asset_name := "Drone watch";
     color := "#ff0000";
     keywords := [keyword "ukraine" false; keyword "drone" false;
                  keyword "exercise" true];
     matchMode := mode;
     sourceIds := [];
     enabled := true;
     createdAt := 0 |}.

Lemma matchAll_implies_matchAny_witness :
  matchesAsset lowerString "Ukraine DRONE strike" (droneWatch MatchAll) = true
  ∧ matchesAsset lowerString "Ukraine DRONE strike" (droneWatch MatchAny) = true.
Proof.
  assert (matchesAsset lowerString "Ukraine DRONE strike" (droneWatch MatchAll) = true)
    as Hall by (vm_compute; reflexivity).
  split; [exact Hall|].
  apply (matchAll_implies_matchAny lowerString "Ukraine DRONE strike"
           (droneWatch MatchAll) (droneWatch MatchAny)).
  - reflexivity.
  - reflexivity.
  - reflexivity.
  - reflexivity.
  - exact Hall.
Defined.

Definition quietWatch : SocialAsset :=
  {| asset_id := "quiet-watch";
     asset_name := "Quiet watch";
     color := "#00ff00";
     keywords := [keyword "drone" false];
     matchMode := MatchAny;
     sourceIds := [];
     enabled := false;
     createdAt := 0 |}.

Definition otherChannelWatch : SocialAsset :=
  {| asset_id := "other-channel";
     asset_name := "Other channel";
     color := "#0000ff";
     keywords := [keyword "drone" false];
     matchMode := MatchAny;
     sourceIds := ["mock-ch2"];
     enabled := true;
     createdAt := 0 |}.

Definition strikeWatch : SocialAsset :=
  {| asset_id := "strike-watch";
     asset_name := "Strike watch";
     color := "#ffff00";
     keywords := [keyword "strike" false; keyword "talks" true];
     matchMode := MatchAll;
     sourceIds := ["mock-ch1"];
     enabled := true;
     createdAt := 0 |}.

Example tag_run :
  matchedAssetIds
    (tagMessageWithAssets lowerString (message "m3" 300 "Ukraine DRONE strike")
       (saveAsset strikeWatch
          (saveAsset otherChannelWatch
             (saveAsset quietWatch (saveAsset (droneWatch MatchAll) feed)))))
  = ["drone-watch"; "strike-watch"].
Proof. by vm_compute. Qed.

Lemma empty_keyword_matches_everything_witness :
  lowerString "" = ""
  ∧ value (keyword "" true) = ""
  ∧ matchesKeyword lowerString "Talks resumed" (keyword "" true) = true.
Proof.
  split; [reflexivity|]. split; [reflexivity|].
  apply (empty_keyword_matches_everything lowerString "Talks resumed" (keyword "" true)).
  - reflexivity.
  - reflexivity.
Defined.

(** ** An index state *)

Definition protest (fatal : option Q) (sev : string) : SocialUnrestEvent :=
  {| country := "Ukraine"; fatalities := fatal; severity := sev |}.

Definition headline (title : string) (perHour : option Q) (alert : bool)
    : ClusteredEvent :=
  {| primaryTitle := title;
     velocity := (fun v => {| sourcesPerHour := v |}) <$> perHour;
     isAlert := alert |}.

Definition ukraineData : CountryData :=
  {| protests := [protest (Some 2%Q) "high"; protest None "low"];
     militaryFlights := [ {| flight_operatorCountry := "Ukraine" |} ];
     militaryVessels := [];
     newsEvents := [headline "Ukraine DRONE strike" (Some 3%Q) true] |}.

Definition indexState : CII.ModuleState :=
  {| countryDataMap := {["UA" := ukraineData]};
     previousScores := {["UA" := 10%Z]} |}.

Definition noon (i : nat) : Z := 43200 + Z.of_nat i.

Example index_top :
  (fun s => (code s, score s, level s, trend s, change24h s))
    <$> (getTopUnstableCountries noon (Some 1%Z) indexState).1
  = [("UA", 32%Z, LevelNormal, Rising, 22%Z)].
Proof. by vm_compute. Qed.

Lemma cii_score_at_most_94_witness :
  ∃ s, s ∈ (calculateCII noon indexState).1
       ∧ code s = "UA"
       ∧ (score s <= 94)%Z.
Proof.
  destruct (calculateCII noon indexState).1 as [|s l] eqn:E;
    [vm_compute in E; discriminate|].
  assert (s ∈ (calculateCII noon indexState).1) as Hs by (rewrite E; left).
  exists s. split; [by left|]. split.
  - vm_compute in E. injection E as <- _. reflexivity.
  - exact (proj1 (cii_score_at_most_94 noon indexState s Hs)).
Defined.

Lemma indexState_nonneg :
  map_Forall (fun _ data => dataNonneg data) (countryDataMap indexState).
Proof.
  apply map_Forall_singleton.
  split; repeat constructor; vm_compute; discriminate.
Defined.

Lemma cii_score_nonneg_witness :
  map_Forall (fun _ data => dataNonneg data) (countryDataMap indexState)
  ∧ ∃ s, s ∈ (calculateCII noon indexState).1 ∧ (0 <= score s)%Z.
Proof.
  split; [exact indexState_nonneg|].
  destruct (calculateCII noon indexState).1 as [|s l] eqn:E;
    [vm_compute in E; discriminate|].
  assert (s ∈ (calculateCII noon indexState).1) as Hs by (rewrite E; left).
  exists s. split; [by left|].
  exact (cii_score_nonneg noon indexState s indexState_nonneg Hs).
Defined.

Lemma cii_trend_matches_change_witness :
  ∃ s, s ∈ (calculateCII noon indexState).1
       ∧ code s = "UA"
       ∧ (trend s = Rising ↔ (5 <= change24h s)%Z).
Proof.
  destruct (calculateCII noon indexState).1 as [|s l] eqn:E;
    [vm_compute in E; discriminate|].
  assert (s ∈ (calculateCII noon indexState).1) as Hs by (rewrite E; left).
  exists s. split; [by left|]. split.
  - vm_compute in E. injection E as <- _. reflexivity.
  - exact (proj1 (proj2 (cii_trend_matches_change noon indexState s Hs))).
Defined.

Lemma cii_after_clear_witness :
  ∃ s, s ∈ (calculateCII noon (clearCountryData indexState)).1
       ∧ score s = 0%Z
       ∧ level s = LevelLow.
Proof.
  destruct (calculateCII noon (clearCountryData indexState)).1 as [|s l] eqn:E;
    [vm_compute in E; discriminate|].
  assert (s ∈ (calculateCII noon (clearCountryData indexState)).1) as Hs
    by (rewrite E; left).
  exists s. split; [by left|].
  pose proof (cii_after_clear noon indexState s Hs) as (H1 & H2 & _).
  split; [exact H1|exact H2].
Defined.

Lemma top_unstable_spec_witness :
  (0 <= default 10 (@None Z))%Z
  ∧ length (getTopUnstableCountries noon None indexState).1 = 10%nat.
Proof.
  assert (0 <= default 10 (@None Z))%Z as Hlimit by (vm_compute; discriminate).
  split; [exact Hlimit|].
  exact (proj1 (proj2 (top_unstable_spec noon None indexState Hlimit))).
Defined.

Definition strike : ClusteredEvent := headline "Ukraine DRONE strike" (Some 3%Q) true.

Lemma news_filed_under_every_match_witness :
  strike ∈ [strike]
  ∧ JsList.includes (lowerString (primaryTitle strike)) "ukraine" = true
  ∧ filedUnder strike "GB"
      (countryDataMap (ingestNewsForCII lowerString [strike] indexState)).
Proof.
  assert (strike ∈ [strike]) as Hin by left.
  assert (JsList.includes (lowerString (primaryTitle strike)) "ukraine" = true)
    as Htitle by (vm_compute; reflexivity).
  split; [exact Hin|]. split; [exact Htitle|].
  exact (proj2 (proj2 (news_filed_under_every_match lowerString [strike] indexState
                         strike Hin) Htitle)).
Defined.

End MoreScenarios.
